(** * MZifier: the rewrite engine of the MV-to-MZ plugin converter

    A shallow embedding of [MZifier.py] (the four rule stages and
    [convert_text]) together with the part of Python's [re] and [str]
    semantics that the four stages rely on.

    Text is a list of characters.  A character is an 8-bit code point, so
    the model covers every Python string whose code points are below 256;
    the character classes ([\s], [\w], line boundaries) are the ones
    Python 3 uses for such code points in [str] patterns.

    The functions are embedded twice: first with lists as values, in a
    monad that reads the module-level names and may raise; then, in
    the module [Obj], with lists as objects in a store, for what is
    said about the objects a call makes and changes. *)

From Stdlib Require Import Ascii String Bool Arith Lia List.
From Stdlib Require Import Numbers.DecimalString.
Import ListNotations.

Local Open Scope char_scope.
Local Open Scope list_scope.

(** ** Text *)

Definition text := list ascii.

Definition str (s : string) : text := list_ascii_of_string s.

Definition nl : ascii := "010".
Definition cr : ascii := "013".
Definition backslash : ascii := "\".

Definition text_eqb (a b : text) : bool :=
  if list_eq_dec ascii_dec a b then true else false.

Definition opt_is {A} (o : option A) : bool :=
  match o with Some _ => true | None => false end.

(** [prefixb p s]: [s] starts with [p]. *)
Fixpoint prefixb (p s : text) : bool :=
  match p, s with
  | [], _ => true
  | a :: p', b :: s' => Ascii.eqb a b && prefixb p' s'
  | _ :: _, [] => false
  end.

(** Python's [needle in hay] on strings. *)
Fixpoint contains (needle hay : text) : bool :=
  prefixb needle hay ||
  match hay with
  | [] => false
  | _ :: hay' => contains needle hay'
  end.

(** Python's [sep.join(parts)]. *)
Fixpoint join (sep : text) (parts : list text) : text :=
  match parts with
  | [] => []
  | [p] => p
  | p :: rest => p ++ sep ++ join sep rest
  end.

(** Python's [list.insert(i, x)] for a non-negative index. *)
Definition list_insert {A} (i : nat) (x : A) (l : list A) : list A :=
  firstn i l ++ x :: skipn i l.

(** Python's [str(n)] for a non-negative integer. *)
Definition str_of_nat (n : nat) : text :=
  str (NilEmpty.string_of_uint (Nat.to_uint n)).

(** ** Character classes of Python 3 [str] patterns (code points < 256) *)

Definition code (c : ascii) : nat := nat_of_ascii c.

Definition in_range (lo hi : nat) (c : ascii) : bool :=
  Nat.leb lo (code c) && Nat.leb (code c) hi.

(** [str.isspace], which is what [\s] tests. *)
Definition is_space (c : ascii) : bool :=
  in_range 9 13 c || in_range 28 32 c || Nat.eqb (code c) 133 || Nat.eqb (code c) 160.

(** [str.isalnum] or underscore, which is what [\w] and [\b] test. *)
Definition is_word (c : ascii) : bool :=
  in_range 48 57 c || in_range 65 90 c || Nat.eqb (code c) 95 || in_range 97 122 c
  || Nat.eqb (code c) 170 || in_range 178 179 c || Nat.eqb (code c) 181
  || in_range 185 186 c || in_range 188 190 c
  || in_range 192 214 c || in_range 216 246 c || in_range 248 255 c.

(** The line boundaries of [str.splitlines]. *)
Definition is_linebreak (c : ascii) : bool :=
  in_range 10 13 c || in_range 28 30 c || Nat.eqb (code c) 133.

Definition is_ascii_alnum (c : ascii) : bool :=
  in_range 48 57 c || in_range 65 90 c || in_range 97 122 c.

Definition is_digit (c : ascii) : bool := in_range 48 57 c.

Definition digit_opt (o : option ascii) : bool :=
  match o with Some d => is_digit d | None => false end.

(** Python's [str.splitlines()]: the line terminators are dropped, a
    carriage return followed by a line feed is one terminator, and a
    trailing terminator does not open an empty last line. *)
Fixpoint splitlines_from (cur : text) (s : text) : list text :=
  match s with
  | [] => match cur with [] => [] | _ => [rev cur] end
  | c :: s' =>
      if is_linebreak c then
        rev cur ::
        (if Ascii.eqb c cr then
           match s' with
           | d :: s'' => if Ascii.eqb d nl then splitlines_from [] s''
                         else splitlines_from [] s'
           | [] => splitlines_from [] s'
           end
         else splitlines_from [] s')
      else splitlines_from (c :: cur) s'
  end.

Definition splitlines (s : text) : list text := splitlines_from [] s.

(** ** The fragment of [re] the converter uses

    Patterns are sequences of single-character atoms, starred atoms
    (greedy [*] or lazy [*?]), the word boundary [\b] and capturing
    groups.  [re_compile] returns [None] where [re.compile] raises and
    also for syntax outside this fragment. *)

Inductive setitem :=
| SLit (c : ascii)
| SSpace
| SNotSpace.

Inductive cls :=
| CLit (c : ascii)
| CDot
| CSpace
| CNotSpace
| CSet (l : list setitem).

Inductive item :=
| Chr (a : cls)
| Star (greedy : bool) (a : cls)
| Bnd
| Open (g : nat)
| Close (g : nat).

Record regex := mkregex { items : list item; groups : nat }.

Definition setitem_match (c : ascii) (i : setitem) : bool :=
  match i with
  | SLit d => Ascii.eqb c d
  | SSpace => is_space c
  | SNotSpace => negb (is_space c)
  end.

Definition cls_match (a : cls) (c : ascii) : bool :=
  match a with
  | CLit d => Ascii.eqb c d
  | CDot => negb (Ascii.eqb c nl)
  | CSpace => is_space c
  | CNotSpace => negb (is_space c)
  | CSet l => existsb (setitem_match c) l
  end.

Definition one_of (cs : text) (c : ascii) : bool :=
  existsb (Ascii.eqb c) cs.

(** An escape outside a character set. *)
Definition escape_item (e : ascii) : option item :=
  if Ascii.eqb e "b" then Some Bnd
  else if Ascii.eqb e "s" then Some (Chr CSpace)
  else if Ascii.eqb e "S" then Some (Chr CNotSpace)
  else if is_ascii_alnum e then None
  else Some (Chr (CLit e)).

(** An escape inside a character set. *)
Definition escape_setitem (e : ascii) : option setitem :=
  if Ascii.eqb e "s" then Some SSpace
  else if Ascii.eqb e "S" then Some SNotSpace
  else if is_ascii_alnum e then None
  else Some (SLit e).

(** [parse s set acc ng stack]: [set] holds the items of the character
    set being read, [acc] the items read so far (last first), [ng] the
    number of groups opened and [stack] the groups still open. *)
Fixpoint parse (s : text) (set : option (list setitem)) (acc : list item)
         (ng : nat) (stack : list nat) {struct s} : option regex :=
  match s with
  | [] =>
      match set, stack with
      | None, [] => Some (mkregex (rev acc) ng)
      | _, _ => None
      end
  | c :: s1 =>
      match set with
      | Some its =>
          if Ascii.eqb c "]" then
            match its with
            | [] => None
            | _ => parse s1 None (Chr (CSet (rev its)) :: acc) ng stack
            end
          else if Ascii.eqb c backslash then
            match s1 with
            | e :: s2 =>
                match escape_setitem e with
                | Some i => parse s2 (Some (i :: its)) acc ng stack
                | None => None
                end
            | [] => None
            end
          else if one_of (str "^-[") c then None
          else parse s1 (Some (SLit c :: its)) acc ng stack
      | None =>
          if Ascii.eqb c backslash then
            match s1 with
            | e :: s2 =>
                match escape_item e with
                | Some i => parse s2 None (i :: acc) ng stack
                | None => None
                end
            | [] => None
            end
          else if Ascii.eqb c "[" then parse s1 (Some []) acc ng stack
          else if Ascii.eqb c "." then parse s1 None (Chr CDot :: acc) ng stack
          else if Ascii.eqb c "(" then
            match s1 with
            | "?" :: _ => None
            | _ => parse s1 None (Open (S ng) :: acc) (S ng) (S ng :: stack)
            end
          else if Ascii.eqb c ")" then
            match stack with
            | g :: stack' => parse s1 None (Close g :: acc) ng stack'
            | [] => None
            end
          else if Ascii.eqb c "*" then
            match acc with
            | Chr a :: acc' =>
                match s1 with
                | d :: s2 =>
                    if Ascii.eqb d "?" then parse s2 None (Star false a :: acc') ng stack
                    else parse s1 None (Star true a :: acc') ng stack
                | [] => parse s1 None (Star true a :: acc') ng stack
                end
            | _ => None
            end
          else if one_of (str "?+{}|^$") c then None
          else parse s1 None (Chr (CLit c) :: acc) ng stack
      end
  end.

(** Python's [re.compile(pattern)]. *)
Definition re_compile (pattern : text) : option regex :=
  parse pattern None [] 0 [].

(** Python's [re.escape(s)]. *)
Definition special_chars : text :=
  str "()[]{}?*+-|^$\.&~# " ++ ["009"; "010"; "013"; "011"; "012"].

Definition re_escape (s : text) : text :=
  flat_map (fun c => if one_of special_chars c then [backslash; c] else [c]) s.

(** ** Matching *)

(** Capture state: the groups opened so far with their start offset and
    the groups closed so far with their span, most recent first.  Offsets
    count from the start of the match. *)
Definition spans := list (nat * (nat * nat)).
Definition capstate := (list (nat * nat) * spans)%type.

Definition cap0 : capstate := ([], []).

Fixpoint lookup {A} (g : nat) (l : list (nat * A)) : option A :=
  match l with
  | [] => None
  | (h, v) :: l' => if Nat.eqb g h then Some v else lookup g l'
  end.

Definition cap_open (g k : nat) (st : capstate) : capstate :=
  ((g, k) :: fst st, snd st).

Definition cap_close (g k : nat) (st : capstate) : capstate :=
  match lookup g (fst st) with
  | Some b => (fst st, (g, (b, k)) :: snd st)
  | None => st
  end.

Definition word_opt (o : option ascii) : bool :=
  match o with Some c => is_word c | None => false end.

(** [\b] between the previous character [prev] and the rest [s]. *)
Definition at_boundary (prev : option ascii) (s : text) : bool :=
  xorb (word_opt prev) (word_opt (hd_error s)).

(** The backtracking matcher.  [m_items its ma prev s k st] matches the
    items [its] against [s], [k] characters into the match, where [prev]
    is the character before [s]; with [ma] set an empty match is refused
    (the matcher's [must_advance]).  The result is the length of the
    match and the capture state. *)
Fixpoint m_items (its : list item) (ma : bool) (prev : option ascii) (s : text)
         (k : nat) (st : capstate) {struct its} : option (nat * capstate) :=
  match its with
  | [] => if ma && Nat.eqb k 0 then None else Some (k, st)
  | Chr a :: r =>
      match s with
      | c :: s' => if cls_match a c then m_items r ma (Some c) s' (S k) st else None
      | [] => None
      end
  | Bnd :: r => if at_boundary prev s then m_items r ma prev s k st else None
  | Open g :: r => m_items r ma prev s k (cap_open g k st)
  | Close g :: r => m_items r ma prev s k (cap_close g k st)
  | Star true a :: r =>
      (fix star (prev : option ascii) (s : text) (k : nat) {struct s} :=
         match s with
         | c :: s' =>
             if cls_match a c then
               match star (Some c) s' (S k) with
               | Some x => Some x
               | None => m_items r ma prev s k st
               end
             else m_items r ma prev s k st
         | [] => m_items r ma prev s k st
         end) prev s k
  | Star false a :: r =>
      (fix star (prev : option ascii) (s : text) (k : nat) {struct s} :=
         match m_items r ma prev s k st with
         | Some x => Some x
         | None =>
             match s with
             | c :: s' => if cls_match a c then star (Some c) s' (S k) else None
             | [] => None
             end
         end) prev s k
  end.

(** A match attempt at one position: the length and the group spans. *)
Definition match_at (r : regex) (ma : bool) (prev : option ascii) (s : text)
  : option (nat * spans) :=
  match m_items (items r) ma prev s 0 cap0 with
  | Some (k, st) => Some (k, snd st)
  | None => None
  end.

(** [search_from r prev s i]: the leftmost match in [s], which starts at
    offset [i] of the whole text: (start, length, groups). *)
Fixpoint search_from (r : regex) (prev : option ascii) (s : text) (i : nat)
  : option (nat * nat * spans) :=
  match match_at r false prev s with
  | Some (k, gs) => Some (i, k, gs)
  | None =>
      match s with
      | c :: s' => search_from r (Some c) s' (S i)
      | [] => None
      end
  end.

(** Python's [pattern.search(source)]. *)
Definition re_search (r : regex) (source : text) : option (nat * nat * spans) :=
  search_from r None source 0.

(** [m.group(g)] of a match whose text is [m]. *)
Definition group_text (m : text) (gs : spans) (g : nat) : text :=
  match g with
  | 0 => m
  | _ => match lookup g gs with
         | Some (b, e) => firstn (e - b) (skipn b m)
         | None => []
         end
  end.

(** The scan behind [sub] and [subn]: [repl m gs] is the replacement of
    a match with text [m] and groups [gs]; [skip] counts the characters
    of the current match still to pass.  An empty match is replaced too,
    and the same position is then tried again for a non-empty match. *)
Fixpoint sub_scan (r : regex) (repl : text -> spans -> text)
         (prev : option ascii) (s : text) (skip : nat) {struct s} : text * nat :=
  match s with
  | [] =>
      match skip with
      | 0 =>
          match match_at r false prev [] with
          | Some (_, gs) => (repl [] gs, 1)
          | None => ([], 0)
          end
      | S _ => ([], 0)
      end
  | c :: s' =>
      match skip with
      | S j => sub_scan r repl (Some c) s' j
      | 0 =>
          match match_at r false prev s with
          | Some (S k, gs) =>
              let '(out, n) := sub_scan r repl (Some c) s' k in
              (repl (firstn (S k) s) gs ++ out, S n)
          | Some (0, gs) =>
              match match_at r true prev s with
              | Some (S k, gs') =>
                  let '(out, n) := sub_scan r repl (Some c) s' k in
                  (repl [] gs ++ repl (firstn (S k) s) gs' ++ out, S (S n))
              | _ =>
                  let '(out, n) := sub_scan r repl (Some c) s' 0 in
                  (repl [] gs ++ c :: out, S n)
              end
          | None =>
              let '(out, n) := sub_scan r repl (Some c) s' 0 in
              (c :: out, n)
          end
      end
  end.

(** Replacement templates: literal characters and group references. *)
Inductive tpiece :=
| TLit (c : ascii)
| TGroup (g : nat).

(** The template parser: [\1] .. [\9] refer to a group, which must
    exist; a doubled backslash is a backslash.  [None] where [re] raises
    and for escapes outside this fragment. *)
Fixpoint parse_template (ngroups : nat) (t : text) {struct t} : option (list tpiece) :=
  match t with
  | [] => Some []
  | c :: t1 =>
      if Ascii.eqb c backslash then
        match t1 with
        | [] => None
        | e :: t2 =>
            if Ascii.eqb e backslash then
              option_map (cons (TLit backslash)) (parse_template ngroups t2)
            else if in_range 49 57 e then
              let g := code e - 48 in
              if digit_opt (hd_error t2) then None
              else if Nat.leb g ngroups
                   then option_map (cons (TGroup g)) (parse_template ngroups t2)
                   else None
            else None
        end
      else option_map (cons (TLit c)) (parse_template ngroups t1)
  end.

Definition expand (tpl : list tpiece) (m : text) (gs : spans) : text :=
  flat_map (fun p => match p with
                     | TLit c => [c]
                     | TGroup g => group_text m gs g
                     end) tpl.

(** ** Module state and the monad of the stage functions

    The module-level names of [MZifier.py] are the state; a computation
    reads them, may raise ([None]) and hands the state on. *)

Record Globals := mkGlobals {
  WINDOW_BASE_TO_STATUSBASE_METHODS : list text;
  COLOR_REPLACEMENTS : list (text * text);
  MV_PLUGIN_COMMAND_SIGNS : list text;
  HEADER_BLOCK_RE : regex
}.

Definition M (A : Type) : Type := Globals -> option A * Globals.

Definition ret {A} (x : A) : M A := fun g => (Some x, g).

Definition bind {A B} (c : M A) (f : A -> M B) : M B :=
  fun g => match c g with
           | (Some x, g') => f x g'
           | (None, g') => (None, g')
           end.

Definition gets {A} (f : Globals -> A) : M A := fun g => (Some (f g), g).

(** A call that raises where the option is [None]. *)
Definition lift_opt {A} (o : option A) : M A := fun g => (o, g).

Notation "x <- c ;; k" := (bind c (fun x => k))
  (at level 61, c at next level, right associativity).
Notation "' p <- c ;; k" := (bind c (fun x => match x with p => k end))
  (at level 61, p pattern, c at next level, right associativity).

(** A [for] loop over a list, threading the loop's variables. *)
Fixpoint for_each {A S} (l : list A) (body : A -> S -> M S) (s : S) : M S :=
  match l with
  | [] => ret s
  | x :: l' => s' <- body x s ;; for_each l' body s'
  end.

(** [pattern.sub(repl, source)] and [re.subn(pattern, repl, source)] with
    a template string, and [pattern.sub(f, source)] with a function of
    the match. *)
Definition pattern_subn (r : regex) (repl : text) (source : text) : M (text * nat) :=
  tpl <- lift_opt (parse_template (groups r) repl) ;;
  ret (sub_scan r (expand tpl) None source 0).

Definition pattern_sub (r : regex) (repl : text) (source : text) : M text :=
  ' (out, _) <- pattern_subn r repl source ;; ret out.

Definition pattern_sub_fun (r : regex) (f : text -> spans -> text) (source : text) : M text :=
  ret (fst (sub_scan r f None source 0)).

Definition re_subn (pat repl source : text) : M (text * nat) :=
  r <- lift_opt (re_compile pat) ;;
  pattern_subn r repl source.

(** ** The rules (module constants) *)

Definition methods_catalog : list text :=
  map str [ "drawActorSimpleStatus"; "drawActorName"; "drawActorClass";
            "drawActorNickname"; "drawActorLevel"; "drawActorIcons";
            "drawActorHp"; "drawActorMp"; "drawActorTp";
            "drawActorHpGauge"; "drawActorMpGauge"; "drawActorTpGauge";
            "placeActorName"; "placeGauge" ]%string.

Definition color_catalog : list (text * text) :=
  map (fun p => (str (fst p), str (snd p)))
  [ ("\bthis\.systemColor\s*\(\s*\)", "ColorManager.systemColor()");
    ("\bthis\.crisisColor\s*\(\s*\)", "ColorManager.crisisColor()");
    ("\bthis\.deathColor\s*\(\s*\)", "ColorManager.deathColor()");
    ("\bthis\.gaugeBackColor\s*\(\s*\)", "ColorManager.gaugeBackColor()");
    ("\bthis\.hpColor\s*\(\s*(.*?)\s*\)", "ColorManager.hpColor(\1)");
    ("\bthis\.mpColor\s*\(\s*(.*?)\s*\)", "ColorManager.mpColor(\1)");
    ("\bthis\.tpColor\s*\(\s*(.*?)\s*\)", "ColorManager.tpColor(\1)");
    ("\bthis\.mpCostColor\s*\(\s*\)", "ColorManager.mpCostColor()");
    ("\bthis\.powerUpColor\s*\(\s*\)", "ColorManager.powerUpColor()");
    ("\bthis\.powerDownColor\s*\(\s*\)", "ColorManager.powerDownColor()");
    ("\bthis\.paramchangeTextColor\s*\(\s*(.*?)\s*\)", "ColorManager.paramchangeTextColor(\1)");
    ("\bthis\.textColor\s*\(\s*(.*?)\s*\)", "ColorManager.textColor(\1)");
    ("\bthis\.normalColor\s*\(\s*\)", "ColorManager.normalColor()") ]%string.

Definition signs_catalog : list text :=
  [ str "\bGame_Interpreter\.prototype\.pluginCommand\b" ].

(** [re.compile(r"/\*:[\s\S]*?\*/", re.MULTILINE)], as compiled. *)
Definition header_block_re : regex :=
  mkregex [ Chr (CLit "/"); Chr (CLit "*"); Chr (CLit ":");
            Star false (CSet [SSpace; SNotSpace]);
            Chr (CLit "*"); Chr (CLit "/") ] 0.

Definition module_globals : Globals :=
  {| WINDOW_BASE_TO_STATUSBASE_METHODS := methods_catalog;
     COLOR_REPLACEMENTS := color_catalog;
     MV_PLUGIN_COMMAND_SIGNS := signs_catalog;
     HEADER_BLOCK_RE := header_block_re |}.

(** ** The four stages *)

Definition target_marker : text := str " * @target MZ".

Definition add_target_mz (header : text) : text :=
  if contains (str "@target") header then header
  else
    let lines := splitlines header in
    match lines with
    | _ :: _ =>
        let insert_at := if Nat.ltb 1 (length lines) then 1 else 0 in
        join [nl] (list_insert insert_at target_marker lines)
    | [] => header
    end.

Definition ensure_header_has_target_mz (source : text) : M (text * bool) :=
  re <- gets HEADER_BLOCK_RE ;;
  match re_search re source with
  | None => ret (source, false)
  | Some (start, len, _) =>
      let header := firstn len (skipn start source) in
      let new_header := add_target_mz header in
      if negb (text_eqb new_header header)
      then ret (firstn start source ++ new_header ++ skipn (start + len) source, true)
      else ret (source, false)
  end.

Definition window_base_pattern (method : text) : text :=
  str "\bWindow_Base\.prototype\." ++ re_escape method ++ str "\b".

Definition window_base_change (method : text) : text :=
  str "Window_Base.prototype." ++ method ++ str " -> Window_StatusBase.prototype." ++ method.

Definition replace_window_base_methods (source : text) : M (text * list text) :=
  methods <- gets WINDOW_BASE_TO_STATUSBASE_METHODS ;;
  for_each methods
    (fun method '(source, changes) =>
       pattern <- lift_opt (re_compile (window_base_pattern method)) ;;
       if opt_is (re_search pattern source) then
         source' <- pattern_sub pattern (str "Window_StatusBase.prototype." ++ method) source ;;
         ret (source', changes ++ [window_base_change method])
       else ret (source, changes))
    (source, []).

Definition color_change (pat repl : text) (n : nat) : text :=
  pat ++ str " -> " ++ repl ++ str " (" ++ str_of_nat n ++ str "x)".

(** The body of the loop of [replace_colors]. *)
Definition color_step (entry : text * text) (acc : text * list text) : M (text * list text) :=
  let '(pat, repl) := entry in
  let '(source, changes) := acc in
  ' (new_source, n) <- re_subn pat repl source ;;
  if Nat.ltb 0 n then ret (new_source, changes ++ [color_change pat repl n])
  else ret (source, changes).

Definition replace_colors (source : text) (keep_mv_color : bool) : M (text * list text) :=
  if keep_mv_color then ret (source, [])
  else
    catalog <- gets COLOR_REPLACEMENTS ;;
    for_each catalog color_step (source, []).

Definition todo : text :=
  nl :: str "// [MZ TODO] Detected MV-style pluginCommand. In MZ, migrate to:" ++
  nl :: str "// PluginManager.registerCommand(pluginName, command, handler)" ++
  nl :: str "// and use @command/@arg annotations in the header." ++ [nl].

Definition annotated_change : text :=
  str "Annotated MV pluginCommand for manual conversion.".

Definition annotate_plugin_command_todos (source : text) : M (text * list text) :=
  signs <- gets MV_PLUGIN_COMMAND_SIGNS ;;
  for_each signs
    (fun sig '(source, changes) =>
       pattern <- lift_opt (re_compile sig) ;;
       if opt_is (re_search pattern source) then
         source' <- pattern_sub_fun pattern (fun m gs => todo ++ group_text m gs 0) source ;;
         ret (source', changes ++ [annotated_change])
       else ret (source, changes))
    (source, []).

Definition header_change : text := str "Added '@target MZ' to plugin header.".

Definition convert_text (source : text) (keep_mv_color : bool) : M (text * list text) :=
  let report := [] in
  ' (source, changed) <- ensure_header_has_target_mz source ;;
  let report := if changed : bool then report ++ [header_change] else report in
  ' (source, changes) <- replace_window_base_methods source ;;
  let report := report ++ changes in
  ' (source, changes) <- replace_colors source keep_mv_color ;;
  let report := report ++ changes in
  ' (source, changes) <- annotate_plugin_command_todos source ;;
  let report := report ++ changes in
  ret (source, report).

(** Running a computation in the module's state: its result. *)
Definition eval {A} (c : M A) : option A := fst (c module_globals).

(** * The list objects of the module

    [MZifier.py] keeps its catalogues in lists and builds its results
    in lists ([lines], [changes], [report]).  A Python list is an
    object: a name or a variable holds a reference to it, and [append],
    [insert] and [extend] change the object itself, for every holder of
    a reference.  To say which objects a call reads, makes and changes,
    the functions are embedded a second time, with the lists as objects
    in a store.  Strings, tuples and compiled patterns cannot be
    changed and are values. *)

Module Obj.

Inductive value :=
| VStr (s : text)
| VPair (a b : text).

Definition ref := nat.

(** The module-level names: the catalogues are references to list
    objects, the header pattern is a compiled pattern. *)
Record Globals := mkGlobals {
  WINDOW_BASE_TO_STATUSBASE_METHODS : ref;
  COLOR_REPLACEMENTS : ref;
  MV_PLUGIN_COMMAND_SIGNS : ref;
  HEADER_BLOCK_RE : regex
}.

(** The module-level names and the list objects, by address. *)
Record World := mkWorld {
  globals : Globals;
  objects : list (list value)
}.

Definition M (A : Type) : Type := World -> option A * World.

Definition ret {A} (x : A) : M A := fun w => (Some x, w).

Definition bind {A B} (c : M A) (f : A -> M B) : M B :=
  fun w => match c w with
           | (Some x, w') => f x w'
           | (None, w') => (None, w')
           end.

Definition gets {A} (f : Globals -> A) : M A := fun w => (Some (f (globals w)), w).

Definition lift_opt {A} (o : option A) : M A := fun w => (o, w).

Declare Scope obj_scope.
Notation "x <- c ;; k" := (bind c (fun x => k))
  (at level 61, c at next level, right associativity) : obj_scope.
Notation "' p <- c ;; k" := (bind c (fun x => match x with p => k end))
  (at level 61, p pattern, c at next level, right associativity) : obj_scope.
Local Open Scope obj_scope.

Fixpoint for_each {A S} (l : list A) (body : A -> S -> M S) (s : S) : M S :=
  match l with
  | [] => ret s
  | x :: l' => s' <- body x s ;; for_each l' body s'
  end.

(** A list display or a call that returns a list: a new object, at an
    address no one holds yet. *)
Definition new_list (l : list value) : M ref :=
  fun w => (Some (length (objects w)), mkWorld (globals w) (objects w ++ [l])).

(** The elements of the list at [r]. *)
Definition contents (r : ref) : M (list value) :=
  fun w => (nth_error (objects w) r, w).

Fixpoint update {A} (i : nat) (x : A) (l : list A) : list A :=
  match l, i with
  | [], _ => []
  | _ :: l', 0 => x :: l'
  | y :: l', S j => y :: update j x l'
  end.

(** The list at [r] changed in place. *)
Definition change (r : ref) (f : list value -> list value) : M unit :=
  fun w => match nth_error (objects w) r with
           | Some l => (Some tt, mkWorld (globals w) (update r (f l) (objects w)))
           | None => (None, w)
           end.

(** [lst.append(v)], [lst.insert(i, v)] and [lst.extend(other)]. *)
Definition append (r : ref) (v : value) : M unit := change r (fun l => l ++ [v]).

Definition insert (r : ref) (i : nat) (v : value) : M unit := change r (list_insert i v).

Definition extend (r other : ref) : M unit :=
  l' <- contents other ;; change r (fun l => l ++ l').

(** A value used as a string raises unless it is one. *)
Definition as_str (v : value) : M text :=
  match v with
  | VStr s => ret s
  | VPair _ _ => lift_opt None
  end.

Fixpoint strs (l : list value) : option (list text) :=
  match l with
  | [] => Some []
  | VStr s :: l' => option_map (cons s) (strs l')
  | VPair _ _ :: _ => None
  end.

(** [a, b = v]: a tuple of two, or a string of two characters. *)
Definition unpack2 (v : value) : M (text * text) :=
  match v with
  | VPair a b => ret (a, b)
  | VStr [a; b] => ret ([a], [b])
  | VStr _ => lift_opt None
  end.

(** [for x in lst], for a loop whose body leaves [lst] alone, as the
    bodies of the loops of the module do: the elements are those the
    list holds when the loop starts. *)
Definition for_in {S} (r : ref) (body : value -> S -> M S) (s : S) : M S :=
  l <- contents r ;; for_each l body s.

Definition pattern_subn (r : regex) (repl : text) (source : text) : M (text * nat) :=
  tpl <- lift_opt (parse_template (groups r) repl) ;;
  ret (sub_scan r (expand tpl) None source 0).

Definition pattern_sub (r : regex) (repl : text) (source : text) : M text :=
  ' (out, _) <- pattern_subn r repl source ;; ret out.

Definition pattern_sub_fun (r : regex) (f : text -> spans -> text) (source : text) : M text :=
  ret (fst (sub_scan r f None source 0)).

Definition re_subn (pat repl source : text) : M (text * nat) :=
  r <- lift_opt (re_compile pat) ;;
  pattern_subn r repl source.

Definition add_target_mz (header : text) : M text :=
  if contains (str "@target") header then ret header
  else
    lines <- new_list (map VStr (splitlines header)) ;;
    ls <- contents lines ;;
    match ls with
    | _ :: _ =>
        let insert_at := if Nat.ltb 1 (length ls) then 1 else 0 in
        _ <- insert lines insert_at (VStr target_marker) ;;
        ls' <- contents lines ;;
        parts <- lift_opt (strs ls') ;;
        ret (join [nl] parts)
    | [] => ret header
    end.

Definition ensure_header_has_target_mz (source : text) : M (text * bool) :=
  re <- gets HEADER_BLOCK_RE ;;
  match re_search re source with
  | None => ret (source, false)
  | Some (start, len, _) =>
      let header := firstn len (skipn start source) in
      new_header <- add_target_mz header ;;
      if negb (text_eqb new_header header)
      then ret (firstn start source ++ new_header ++ skipn (start + len) source, true)
      else ret (source, false)
  end.

Definition replace_window_base_methods (source : text) : M (text * ref) :=
  changes <- new_list [] ;;
  methods <- gets WINDOW_BASE_TO_STATUSBASE_METHODS ;;
  source <- for_in methods
    (fun v source =>
       method <- as_str v ;;
       pattern <- lift_opt (re_compile (window_base_pattern method)) ;;
       if opt_is (re_search pattern source) then
         source' <- pattern_sub pattern (str "Window_StatusBase.prototype." ++ method) source ;;
         _ <- append changes (VStr (window_base_change method)) ;;
         ret source'
       else ret source)
    source ;;
  ret (source, changes).

Definition replace_colors (source : text) (keep_mv_color : bool) : M (text * ref) :=
  if keep_mv_color then
    changes <- new_list [] ;; ret (source, changes)
  else
    changes <- new_list [] ;;
    catalog <- gets COLOR_REPLACEMENTS ;;
    source <- for_in catalog
      (fun v source =>
         ' (pat, repl) <- unpack2 v ;;
         ' (new_source, n) <- re_subn pat repl source ;;
         if Nat.ltb 0 n then
           _ <- append changes (VStr (color_change pat repl n)) ;;
           ret new_source
         else ret source)
      source ;;
    ret (source, changes).

Definition annotate_plugin_command_todos (source : text) : M (text * ref) :=
  changes <- new_list [] ;;
  signs <- gets MV_PLUGIN_COMMAND_SIGNS ;;
  source <- for_in signs
    (fun v source =>
       sig <- as_str v ;;
       pattern <- lift_opt (re_compile sig) ;;
       if opt_is (re_search pattern source) then
         source' <- pattern_sub_fun pattern (fun m gs => todo ++ group_text m gs 0) source ;;
         _ <- append changes (VStr annotated_change) ;;
         ret source'
       else ret source)
    source ;;
  ret (source, changes).

Definition convert_text (source : text) (keep_mv_color : bool) : M (text * ref) :=
  report <- new_list [] ;;
  ' (source, changed) <- ensure_header_has_target_mz source ;;
  _ <- (if changed : bool then append report (VStr header_change) else ret tt) ;;
  ' (source, changes) <- replace_window_base_methods source ;;
  _ <- extend report changes ;;
  ' (source, changes) <- replace_colors source keep_mv_color ;;
  _ <- extend report changes ;;
  ' (source, changes) <- annotate_plugin_command_todos source ;;
  _ <- extend report changes ;;
  ret (source, report).

(** The module as loaded: the three catalogues are the first three
    objects. *)
Definition module_world : World :=
  mkWorld (mkGlobals 0 1 2 header_block_re)
          [ map VStr methods_catalog;
            map (fun e => VPair (fst e) (snd e)) color_catalog;
            map VStr signs_catalog ].

End Obj.


(** * Definitions for the statements

    What the theorems below are stated with: the stages as plain folds,
    the literal patterns and their occurrences, the scans the stages
    are compared with, and the example inputs. *)

(** ** State and loops *)

(** A loop whose body leaves the state alone is a fold of its result. *)
Fixpoint fold_opt {A S} (step : A -> S -> option S) (l : list A) (s : S) : option S :=
  match l with
  | [] => Some s
  | x :: l' => match step x s with
               | Some s' => fold_opt step l' s'
               | None => None
               end
  end.

(** ** The list objects *)

(** The names of the module refer to the catalogues and the header
    pattern of the module. *)
Definition catalogs_in (w : Obj.World) : Prop :=
  nth_error (Obj.objects w) (Obj.WINDOW_BASE_TO_STATUSBASE_METHODS (Obj.globals w))
  = Some (map Obj.VStr methods_catalog) /\
  nth_error (Obj.objects w) (Obj.COLOR_REPLACEMENTS (Obj.globals w))
  = Some (map (fun e => Obj.VPair (fst e) (snd e)) color_catalog) /\
  nth_error (Obj.objects w) (Obj.MV_PLUGIN_COMMAND_SIGNS (Obj.globals w))
  = Some (map Obj.VStr signs_catalog) /\
  Obj.HEADER_BLOCK_RE (Obj.globals w) = header_block_re.

(** The world with the objects [extra] made after those it has: every
    name and every object of [w] is as it was. *)
Definition with_objects (w : Obj.World) (extra : list (list Obj.value)) : Obj.World :=
  Obj.mkWorld (Obj.globals w) (Obj.objects w ++ extra).

(** ** Texts, prefixes and the last character read *)

(** The character before the rest, once [l] has been read after [prev]. *)
Definition last_of (l : text) (prev : option ascii) : option ascii :=
  fold_left (fun _ c => Some c) l prev.

(** ** Literal patterns between word boundaries *)

Definition lit_items (l : text) : list item := map (fun c => Chr (CLit c)) l.

(** The compiled form of [\b<literal>\b]. *)
Definition word_pattern (lit : text) : regex :=
  mkregex (Bnd :: lit_items lit ++ [Bnd]) 0.

(** [lit] stands at the head of [s], between two word boundaries. *)
Definition occ (lit : text) (prev : option ascii) (s : text) : bool :=
  at_boundary prev s && prefixb lit s &&
  at_boundary (last_of lit prev) (skipn (length lit) s).

(** [lit] stands somewhere in [s], between two word boundaries. *)
Fixpoint occurs (lit : text) (prev : option ascii) (s : text) : bool :=
  match s with
  | [] => false
  | c :: s' => occ lit prev s || occurs lit (Some c) s'
  end.

(** ** Scanning with a position test

    [scan_with f prev s skip] copies [s] except where [f] finds a hit at
    the current position: a hit [(len, rep)] emits [rep] and passes over
    [len] characters. *)
Fixpoint scan_with (f : option ascii -> text -> option (nat * text))
         (prev : option ascii) (s : text) (skip : nat) {struct s} : text :=
  match s with
  | [] => []
  | c :: s' =>
      match skip with
      | S j => scan_with f (Some c) s' j
      | 0 =>
          match f prev s with
          | Some (len, rep) => rep ++ scan_with f (Some c) s' (len - 1)
          | None => c :: scan_with f (Some c) s' 0
          end
      end
  end.

(** The hits of a regex with a replacement function. *)
Definition regex_hit (r : regex) (repl : text -> spans -> text)
           (prev : option ascii) (s : text) : option (nat * text) :=
  match match_at r false prev s with
  | Some (k, gs) => Some (k, repl (firstn k s) gs)
  | None => None
  end.

(** A regex none of whose matches is empty. *)
Definition never_empty (r : regex) : Prop :=
  forall prev s k gs, match_at r false prev s = Some (k, gs) -> 0 < k <= length s.

(** ** The stages as folds over their catalogs *)

Definition old_owner : text := str "Window_Base.prototype.".
Definition new_owner : text := str "Window_StatusBase.prototype.".

Definition plugin_command : text := str "Game_Interpreter.prototype.pluginCommand".

(** Stage 1 at the module's header pattern. *)
Definition header_stage (source : text) : text * bool :=
  match re_search header_block_re source with
  | None => (source, false)
  | Some (start, len, _) =>
      let header := firstn len (skipn start source) in
      let new_header := add_target_mz header in
      if negb (text_eqb new_header header)
      then (firstn start source ++ new_header ++ skipn (start + len) source, true)
      else (source, false)
  end.

(** One entry of stage 2. *)
Definition migrate_step (method : text) (acc : text * list text) : option (text * list text) :=
  let '(source, changes) := acc in
  let r := word_pattern (old_owner ++ method) in
  if opt_is (re_search r source)
  then Some (fst (sub_scan r (fun _ _ => new_owner ++ method) None source 0),
             changes ++ [window_base_change method])
  else Some (source, changes).

(** One entry of stage 3, with its pattern and template compiled. *)
Definition compile_entry (e : text * text) : option (regex * list tpiece) :=
  match re_compile (fst e) with
  | Some r => match parse_template (groups r) (snd e) with
              | Some tpl => Some (r, tpl)
              | None => None
              end
  | None => None
  end.

Definition substitute_step (e : text * text) (acc : text * list text) : option (text * list text) :=
  match compile_entry e with
  | Some (r, tpl) =>
      let '(new_source, n) := sub_scan r (expand tpl) None (fst acc) 0 in
      if Nat.ltb 0 n
      then Some (new_source, snd acc ++ [color_change (fst e) (snd e) n])
      else Some acc
  | None => None
  end.

(** One entry of stage 4. *)
Definition annotate_step (sig : text) (acc : text * list text) : option (text * list text) :=
  match re_compile sig with
  | Some r =>
      if opt_is (re_search r (fst acc))
      then Some (fst (sub_scan r (fun m gs => todo ++ group_text m gs 0) None (fst acc) 0),
                 snd acc ++ [annotated_change])
      else Some acc
  | None => None
  end.

Definition colors_stage (source : text) (keep_mv_color : bool) : option (text * list text) :=
  if keep_mv_color then Some (source, [])
  else fold_opt substitute_step color_catalog (source, []).

(** The engine as the composition of its four stages. *)
Definition convert_stages (source : text) (keep : bool) : option (text * list text) :=
  let '(s1, changed) := header_stage source in
  match fold_opt migrate_step methods_catalog (s1, []) with
  | Some (s2, c2) =>
      match colors_stage s2 keep with
      | Some (s3, c3) =>
          match fold_opt annotate_step signs_catalog (s3, []) with
          | Some (s4, c4) =>
              Some (s4, (((if changed then [header_change] else []) ++ c2) ++ c3) ++ c4)
          | None => None
          end
      | None => None
      end
  | None => None
  end.

(** ** The engine as a whole *)

(** The pattern, as [re] compiles it, is found somewhere in the text. *)
Definition pattern_occurs (pat source : text) : bool :=
  match re_compile pat with
  | Some r => opt_is (re_search r source)
  | None => false
  end.

(** A report line of the call-pattern substitution stage. *)
Definition is_color_change (line : text) : bool :=
  existsb (fun e => prefixb (fst e ++ str " -> " ++ snd e ++ str " (") line) color_catalog.

(** One of the recognized patterns occurs in the text: a header block,
    a catalogued [Window_Base] method, a colour helper call or the
    plugin command hook. *)
Definition recognized (source : text) : bool :=
  opt_is (re_search header_block_re source)
  || existsb (fun m => pattern_occurs (window_base_pattern m) source) methods_catalog
  || existsb (fun e => pattern_occurs (fst e) source) color_catalog
  || existsb (fun sig => pattern_occurs sig source) signs_catalog.

(** A header whose directive names another target. *)
Definition header_target_mv : text :=
  str "/*:" ++ nl :: str " * @target MV" ++ nl :: str " */".

(** A header with a directive and, in its help text, a call of a colour
    helper. *)
Definition header_with_call : text :=
  str "/*:" ++ nl :: str " * @target MV" ++ nl ::
  str " * @help call this.textColor( 1 )" ++ nl :: str " */".

(** A header block that is a single line. *)
Definition single_line_header : text := str "/*: foo */".

(** ** The header block *)

Definition open_mark : text := str "/*:".
Definition close_mark : text := str "*/".

(** The offset of the first [*/] in [s]. *)
Fixpoint first_close (s : text) : option nat :=
  match s with
  | [] => None
  | _ :: s' => if prefixb close_mark s then Some 0 else option_map S (first_close s')
  end.

(** The number of places where [*/] stands in [s]. *)
Fixpoint count_close (s : text) : nat :=
  match s with
  | [] => 0
  | _ :: s' => (if prefixb close_mark s then 1 else 0) + count_close s'
  end.

(** No position of [pre] starts a match of [r] in [pre ++ t]. *)
Fixpoint quiet (r : regex) (prev : option ascii) (pre t : text) : Prop :=
  match pre with
  | [] => True
  | d :: b => match_at r false prev (d :: b ++ t) = None /\ quiet r (Some d) b t
  end.

(** *** Counting the closing marks *)

Definition not_slash (s : text) : bool :=
  match s with
  | [] => true
  | c :: _ => negb (Ascii.eqb c "/")
  end.

Definition sum_close (lines : list text) : nat := list_sum (map count_close lines).

(** *** Lines without line breaks *)

Definition plain (l : text) : bool := forallb (fun c => negb (is_linebreak c)) l.

(** ** Annotation: insertion before every occurrence *)

(** The stage in the words of its contract: the text is copied
    character by character, and wherever [lit] stands between two word
    boundaries [note] is put in front of it. *)
Fixpoint insert_before_occurrences (lit note : text) (prev : option ascii) (s : text) : text :=
  match s with
  | [] => []
  | c :: s' =>
      (if occ lit prev s then note else []) ++
      c :: insert_before_occurrences lit note (Some c) s'
  end.

Fixpoint count_occurrences (lit : text) (prev : option ascii) (s : text) : nat :=
  match s with
  | [] => 0
  | c :: s' => (if occ lit prev s then 1 else 0) + count_occurrences lit (Some c) s'
  end.

(** The first character of [lit] does not come back in it, so two
    occurrences cannot overlap. *)
Definition no_self_overlap (lit : text) : bool :=
  match lit with
  | [] => false
  | a :: l => negb (one_of l a)
  end.

(** ** The successive matches of a substitution *)

(** A match with the text before it since the previous match: the gap,
    the matched text and its groups. *)
Definition seg : Type := (text * text * spans)%type.

(** The text with every match replaced by [f]. *)
Definition render (f : text -> spans -> text) (segs : list seg) (tail : text) : text :=
  flat_map (fun sg : seg => let '(gap, m, gs) := sg in gap ++ f m gs) segs ++ tail.

(** [Scanned r prev s segs tail]: searching [s] from the left, again
    after each match, finds the non-empty matches [segs] in turn and
    then no further match in [tail]. *)
Inductive Scanned (r : regex) : option ascii -> text -> list seg -> text -> Prop :=
| Scanned_done prev s :
    search_from r prev s 0 = None ->
    Scanned r prev s [] s
| Scanned_match prev gap m gs rest segs tail :
    search_from r prev (gap ++ m ++ rest) 0 = Some (length gap, length m, gs) ->
    m <> [] ->
    Scanned r (last_of (gap ++ m) prev) rest segs tail ->
    Scanned r prev (gap ++ m ++ rest) ((gap, m, gs) :: segs) tail.

(** ** Call-pattern substitution *)

(** The catalogue by helper name, with whether the helper takes an
    argument. *)
Definition color_names : list (text * bool) :=
  map (fun p => (str (fst p), snd p))
  [ ("systemColor", false); ("crisisColor", false); ("deathColor", false);
    ("gaugeBackColor", false); ("hpColor", true); ("mpColor", true);
    ("tpColor", true); ("mpCostColor", false); ("powerUpColor", false);
    ("powerDownColor", false); ("paramchangeTextColor", true);
    ("textColor", true); ("normalColor", false) ]%string.

Definition color_entry (name : text) (has_arg : bool) : text * text :=
  (str "\bthis\." ++ name ++ str "\s*\(\s*" ++ (if has_arg then str "(.*?)\s*" else [])
       ++ str "\)",
   str "ColorManager." ++ name ++ str "(" ++ (if has_arg then str "\1" else []) ++ str ")").

Definition color_regex (name : text) (has_arg : bool) : regex :=
  mkregex (Bnd :: lit_items (str "this." ++ name) ++
           [Star true CSpace; Chr (CLit "("); Star true CSpace] ++
           (if has_arg then [Open 1; Star false CDot; Close 1; Star true CSpace] else []) ++
           [Chr (CLit ")")])
          (if has_arg then 1 else 0).

Definition color_template (name : text) (has_arg : bool) : list tpiece :=
  map TLit (str "ColorManager." ++ name ++ str "(") ++
  (if has_arg then [TGroup 1] else []) ++ [TLit ")"].

(** A call of the helper [name] on [this], as the patterns accept it. *)
Definition call_text (name ws1 ws2 arg ws3 : text) : text :=
  (str "this." ++ name) ++ ws1 ++ "(" :: ws2 ++ arg ++ ws3 ++ [")"].

(** The argument of a matched call: group 1 where the entry has one. *)
Definition call_arg (has_arg : bool) (m : text) (gs : spans) : text :=
  if has_arg then group_text m gs 1 else [].

(** The call it is rewritten to. *)
Definition manager_call (name arg : text) : text :=
  str "ColorManager." ++ name ++ "(" :: arg ++ [")"].

(** The matched texts of a scan are calls of the entry's helper. *)
Definition is_call (name : text) (has_arg : bool) (sg : seg) : Prop :=
  let '(_, m, gs) := sg in
  exists ws1 ws2 ws3,
    forallb is_space ws1 = true /\ forallb is_space ws2 = true /\
    forallb is_space ws3 = true /\
    m = call_text name ws1 ws2 (call_arg has_arg m gs) ws3.

Definition text_color_pattern : text := str "\bthis\.textColor\s*\(\s*(.*?)\s*\)".
Definition text_color_template : text := str "ColorManager.textColor(\1)".

(** Two inputs on which the entries interact. *)
Definition nested_call : text := str "this.hpColor(this.textColor(1))".
Definition broken_line_call : text :=
  str "this.textColor(this.hpColor(" ++ nl :: str "1)".

(** What an entry returns for the matches [segs] it finds in the text
    of [acc], [tail] being the text after the last of them. *)
Definition entry_result (name : text) (has_arg : bool) (acc : text * list text)
           (segs : list seg) (tail : text) : text * list text :=
  match segs with
  | [] => acc
  | _ :: _ =>
      (render (fun m gs => manager_call name (call_arg has_arg m gs)) segs tail,
       snd acc ++ [color_change (fst (color_entry name has_arg))
                                (snd (color_entry name has_arg)) (length segs)])
  end.

(** The entries applied one after the other, each to the text the one
    before it returned. *)
Inductive Applied : list (text * bool) -> text * list text -> text * list text -> Prop :=
| Applied_nil acc : Applied [] acc acc
| Applied_cons name has_arg rest acc segs tail acc' :
    Scanned (color_regex name has_arg) None (fst acc) segs tail ->
    Forall (is_call name has_arg) segs ->
    Applied rest (entry_result name has_arg acc segs tail) acc' ->
    Applied ((name, has_arg) :: rest) acc acc'.

(** ** Symbol migration *)

(** The catalogued method whose old qualified reference stands at the
    head of [s], between word boundaries. *)
Definition hit_of (M : list text) (prev : option ascii) (s : text) : option text :=
  find (fun m => occ (old_owner ++ m) prev s) M.

Definition migrate_hit (M : list text) (prev : option ascii) (s : text) : option (nat * text) :=
  match hit_of M prev s with
  | Some m => Some (length (old_owner ++ m), new_owner ++ m)
  | None => None
  end.

(** The stage in the words of its contract, for the methods [M]: one
    pass over the text in which every old qualified reference to a
    method of [M] is replaced by the new one. *)
Definition migrate (M : list text) (prev : option ascii) (s : text) : text :=
  scan_with (migrate_hit M) prev s 0.

Definition mem (m : text) (M : list text) : bool := existsb (text_eqb m) M.

Fixpoint distinct (l : list text) : bool :=
  match l with
  | [] => true
  | x :: l' => negb (mem x l') && distinct l'
  end.

(** A method name: a non-empty word without the letter that starts the
    owner. *)
Definition method_ok (m : text) : bool :=
  match m with
  | [] => false
  | _ :: _ => forallb is_word m && negb (one_of m "W")
  end.

(** *** Word boundaries around a reference *)

(** The old and the new reference start with "W", which does not come
    back in them. *)
Definition old_tail : text := tl old_owner.
Definition new_tail : text := tl new_owner.

(** *** One pass of [migrate] *)

Definition all_ok (M : list text) : Prop := forallb method_ok M = true.

(** *** Entry after entry is one pass over all of them *)

Definition draw_actor_hp_source : text :=
  str "Window_Base.prototype.drawActorHp = function(){}".

(** *** References and the later stages *)

(** A character a qualified reference can hold. *)
Definition ref_char (c : ascii) : bool := is_word c || Ascii.eqb c ".".

(** Read after [prev], [u] has no "C" right after a character that is
    not a word character. *)
Fixpoint no_C_after_break (prev : option ascii) (u : text) : bool :=
  match u with
  | [] => true
  | c :: u' => negb (Ascii.eqb c "C" && negb (word_opt prev)) && no_C_after_break (Some c) u'
  end.

(** One pass of a call-pattern entry over a text. *)
Definition color_scan (name : text) (has_arg : bool) (prev : option ascii) (s : text) : text :=
  scan_with (regex_hit (color_regex name has_arg) (expand (color_template name has_arg)))
            prev s 0.

(** [lit] stands in the line [ln], between two word boundaries. *)
Definition in_line (lit ln : text) : bool := occurs lit (Some nl) (ln ++ [nl]).

(** A report line of the symbol migration stage. *)
Definition is_window_base_change (line : text) : bool :=
  existsb (fun m => text_eqb line (window_base_change m)) methods_catalog.

(** ** Definitions for the further properties *)

(** Every line terminator of [s] is a line feed. *)
Definition lf_only (s : text) : bool :=
  forallb (fun c => negb (is_linebreak c) || Ascii.eqb c nl) s.

(** A file with carriage return and line feed at its line ends. *)
Definition crlf_source : text :=
  str "'use strict';" ++ cr :: nl :: str "/*:" ++ cr :: nl :: str " * @plugindesc x"
      ++ cr :: nl :: str " */" ++ cr :: nl :: str "var a;".

(** [n] marker lines, one after the other. *)
Definition marker_lines (n : nat) : text := concat (repeat (target_marker ++ [nl]) n).

(** The number of places of [s] where an old reference to a method of
    [M] stands between word boundaries. *)
Fixpoint count_refs (M : list text) (prev : option ascii) (s : text) : nat :=
  match s with
  | [] => 0
  | c :: s' => match hit_of M prev s with Some _ => 1 | None => 0 end + count_refs M (Some c) s'
  end.

(** The number of times the character [c] stands in [s]. *)
Definition count_char (c : ascii) (s : text) : nat := count_occ ascii_dec s c.

(** Read after [prev], [u] has no [x] right after a character that is
    not a word character. *)
Fixpoint no_start_after_break (x : ascii) (prev : option ascii) (u : text) : bool :=
  match u with
  | [] => true
  | c :: u' =>
      negb (Ascii.eqb c x && negb (word_opt prev)) && no_start_after_break x (Some c) u'
  end.

(** The text of the report file that [main] writes beside the output,
    for the names of the input and of the output file. *)
Definition report_text (in_name out_name : text) (report : list text) : text :=
  match report with
  | _ :: _ =>
      str "Conversion report for " ++ in_name ++ str " -> " ++ out_name ++ [nl] ++
      join [nl] (map (fun line => str "- " ++ line) report)
  | [] => str "No heuristic changes were necessary."
  end.

(** [Subseq a b]: [b] is [a] with characters put in. *)
Inductive Subseq : text -> text -> Prop :=
| Subseq_nil : Subseq [] []
| Subseq_skip a b y : Subseq a b -> Subseq a (y :: b)
| Subseq_keep x a b : Subseq a b -> Subseq (x :: a) (x :: b).

(** [Sublist a b]: [a] is [b] with elements left out, in the order of
    [b]. *)
Inductive Sublist {A : Type} : list A -> list A -> Prop :=
| Sublist_nil : Sublist [] []
| Sublist_skip a b y : Sublist a b -> Sublist a (y :: b)
| Sublist_keep x a b : Sublist a b -> Sublist (x :: a) (x :: b).

(** The texts differ at a place both of them have. *)
Fixpoint differ (p q : text) : bool :=
  match p, q with
  | a :: p', b :: q' => negb (Ascii.eqb a b) || differ p' q'
  | _, _ => false
  end.

(** The patterns of the entries differ two by two. *)
Fixpoint all_differ (l : list (text * text)) : bool :=
  match l with
  | [] => true
  | e :: l' => forallb (fun e' => differ (fst e) (fst e')) l' && all_differ l'
  end.

(** The report line of an entry with its count. *)
Definition color_line (en : (text * text) * nat) : text :=
  color_change (fst (fst en)) (snd (fst en)) (snd en).

(** * Properties of the embedding *)

Ltac lens := repeat first [rewrite length_app | progress cbn [length]].

Ltac reassoc :=
  repeat first [rewrite <- app_assoc | rewrite <- app_comm_cons]; cbn [app].

(** ** The monad: loops as folds *)

Lemma run_bind {A B} (c : M A) (f : A -> M B) (g : Globals) (o : option A) :
  c g = (o, g) ->
  bind c f g = match o with Some x => f x g | None => (None, g) end.
Proof. intros H. unfold bind. rewrite H. reflexivity. Qed.

Lemma for_each_run {A S} (body : A -> S -> M S) (step : A -> S -> option S)
      (g : Globals) (l : list A) :
  (forall x s, In x l -> body x s g = (step x s, g)) ->
  forall s, for_each l body s g = (fold_opt step l s, g).
Proof.
  induction l as [|x l IH]; intros Hb s; simpl.
  - reflexivity.
  - rewrite (run_bind _ _ g (step x s)) by (apply Hb; left; reflexivity).
    destruct (step x s) as [s'|]; [|reflexivity].
    apply IH. intros y t Hy. apply Hb. right. exact Hy.
Qed.

(** ** Texts, prefixes and the last character read *)

Lemma last_of_app (u v : text) (prev : option ascii) :
  last_of (u ++ v) prev = last_of v (last_of u prev).
Proof. unfold last_of. apply fold_left_app. Qed.

Lemma last_of_cons (c : ascii) (u : text) (prev : option ascii) :
  last_of (c :: u) prev = last_of u (Some c).
Proof. reflexivity. Qed.

Lemma prefixb_app (l t : text) : prefixb l (l ++ t) = true.
Proof.
  induction l as [|a l IH]; simpl; [reflexivity|].
  rewrite Ascii.eqb_refl. exact IH.
Qed.

Lemma prefixb_true (l s : text) :
  prefixb l s = true -> s = l ++ skipn (length l) s.
Proof.
  revert s. induction l as [|a l IH]; intros [|c s] H; simpl in *; try reflexivity; try discriminate.
  apply andb_true_iff in H. destruct H as [H1 H2].
  apply Ascii.eqb_eq in H1. subst c. f_equal. apply IH. exact H2.
Qed.

Lemma prefixb_length (l s : text) : prefixb l s = true -> length l <= length s.
Proof.
  intro H. apply prefixb_true in H.
  apply (f_equal (@length ascii)) in H. rewrite length_app in H. lia.
Qed.

Lemma prefixb_firstn (l s : text) : prefixb l s = true -> firstn (length l) s = l.
Proof.
  intro H. apply prefixb_true in H. rewrite H.
  generalize (skipn (length l) s). intro t. clear H.
  induction l; simpl; [reflexivity | f_equal; assumption].
Qed.

Lemma skipn_app_length {A} (u v : list A) : skipn (length u) (u ++ v) = v.
Proof. induction u; simpl; auto. Qed.

Lemma firstn_app_length {A} (u v : list A) : firstn (length u) (u ++ v) = u.
Proof. induction u; simpl; [reflexivity | f_equal; assumption]. Qed.

Lemma text_eqb_eq (a b : text) : text_eqb a b = true <-> a = b.
Proof.
  unfold text_eqb. destruct (list_eq_dec ascii_dec a b); split; congruence.
Qed.

Lemma text_eqb_refl (a : text) : text_eqb a a = true.
Proof. apply text_eqb_eq. reflexivity. Qed.

(** ** Literal patterns between word boundaries *)

Lemma m_items_lit (l : text) (r : list item) (ma : bool) :
  forall prev s k st,
    m_items (lit_items l ++ r) ma prev s k st =
    if prefixb l s
    then m_items r ma (last_of l prev) (skipn (length l) s) (length l + k) st
    else None.
Proof.
  induction l as [|a l IH]; intros prev s k st.
  - reflexivity.
  - destruct s as [|c s]; [reflexivity|].
    cbn [lit_items map app m_items cls_match prefixb].
    rewrite Ascii.eqb_sym. destruct (Ascii.eqb_spec a c) as [->|]; [|reflexivity].
    cbn [andb]. fold (lit_items l). rewrite IH.
    cbn [length skipn]. rewrite last_of_cons, Nat.add_succ_r. reflexivity.
Qed.

Lemma match_at_word_pattern (lit : text) (ma : bool) (prev : option ascii) (s : text) :
  lit <> [] ->
  match_at (word_pattern lit) ma prev s =
  if occ lit prev s then Some (length lit, []) else None.
Proof.
  intro Hne. unfold match_at, word_pattern, occ. cbn [items m_items].
  destruct (at_boundary prev s); [|reflexivity].
  rewrite m_items_lit. destruct (prefixb lit s); [|reflexivity].
  cbn [m_items andb].
  destruct (at_boundary (last_of lit prev) (skipn (length lit) s)); [|reflexivity].
  rewrite Nat.add_0_r.
  destruct lit as [|a l]; [congruence|].
  cbn [length Nat.eqb]. rewrite andb_false_r. reflexivity.
Qed.

Lemma occ_prefix (lit : text) (prev : option ascii) (s : text) :
  occ lit prev s = true -> s = lit ++ skipn (length lit) s.
Proof.
  unfold occ. intro H. apply andb_true_iff in H. destruct H as [H _].
  apply andb_true_iff in H. destruct H as [_ H]. apply prefixb_true. exact H.
Qed.

Lemma occ_nil (lit : text) (prev : option ascii) : lit <> [] -> occ lit prev [] = false.
Proof.
  intro H. unfold occ. destruct lit; [congruence|].
  cbn [prefixb]. rewrite andb_false_r. reflexivity.
Qed.

Lemma search_word_pattern (lit : text) :
  lit <> [] ->
  forall s prev i, opt_is (search_from (word_pattern lit) prev s i) = occurs lit prev s.
Proof.
  intro Hne. induction s as [|c s IH]; intros prev i.
  - cbn [search_from occurs]. rewrite match_at_word_pattern by exact Hne.
    rewrite occ_nil by exact Hne. reflexivity.
  - cbn [search_from occurs]. rewrite match_at_word_pattern by exact Hne.
    destruct (occ lit prev (c :: s)); [reflexivity|]. apply IH.
Qed.

Lemma scan_with_skip f (u rest : text) :
  forall prev, scan_with f prev (u ++ rest) (length u) = scan_with f (last_of u prev) rest 0.
Proof.
  induction u as [|c u IH]; intro prev.
  - destruct rest; reflexivity.
  - cbn [app length scan_with]. rewrite IH. reflexivity.
Qed.

Lemma scan_with_hit f (prev : option ascii) (m rest rep : text) :
  m <> [] ->
  f prev (m ++ rest) = Some (length m, rep) ->
  scan_with f prev (m ++ rest) 0 = rep ++ scan_with f (last_of m prev) rest 0.
Proof.
  intros Hne Hf. destruct m as [|c m]; [congruence|].
  cbn [app scan_with]. cbn [app] in Hf. rewrite Hf.
  cbn [length Nat.sub]. rewrite Nat.sub_0_r, scan_with_skip. reflexivity.
Qed.

Lemma scan_with_miss f (prev : option ascii) (c : ascii) (s : text) :
  f prev (c :: s) = None ->
  scan_with f prev (c :: s) 0 = c :: scan_with f (Some c) s 0.
Proof. intro Hf. cbn [scan_with]. rewrite Hf. reflexivity. Qed.

Lemma sub_scan_text (r : regex) (repl : text -> spans -> text) :
  never_empty r ->
  forall s prev skip,
    fst (sub_scan r repl prev s skip) = scan_with (regex_hit r repl) prev s skip.
Proof.
  intros Hne. induction s as [|c s IH]; intros prev skip.
  - cbn [sub_scan scan_with]. destruct skip; [|reflexivity].
    destruct (match_at r false prev []) as [[k gs]|] eqn:E; [|reflexivity].
    apply Hne in E. simpl in E. lia.
  - cbn [sub_scan scan_with]. destruct skip as [|j]; [|apply IH].
    unfold regex_hit at 1.
    destruct (match_at r false prev (c :: s)) as [[k gs]|] eqn:E.
    + destruct k as [|k]; [apply Hne in E; lia|].
      specialize (IH (Some c) k).
      destruct (sub_scan r repl (Some c) s k) as [out n]. simpl in IH. simpl.
      rewrite Nat.sub_0_r, IH. reflexivity.
    + specialize (IH (Some c) 0).
      destruct (sub_scan r repl (Some c) s 0) as [out n]. simpl in IH. simpl.
      rewrite IH. reflexivity.
Qed.

Lemma never_empty_word_pattern (lit : text) : lit <> [] -> never_empty (word_pattern lit).
Proof.
  intros Hne prev s k gs H. rewrite match_at_word_pattern in H by exact Hne.
  destruct (occ lit prev s) eqn:E; [|discriminate].
  injection H as <- _. split.
  - destruct lit; [congruence | simpl; lia].
  - apply occ_prefix in E. apply (f_equal (@length ascii)) in E.
    rewrite length_app in E. lia.
Qed.

(** Without a match the scan copies the text. *)
Lemma sub_scan_nomatch (r : regex) (repl : text -> spans -> text) :
  forall s prev i, search_from r prev s i = None -> sub_scan r repl prev s 0 = (s, 0).
Proof.
  induction s as [|c s IH]; intros prev i H; cbn [search_from] in H; cbn [sub_scan].
  - destruct (match_at r false prev []) as [[k gs]|]; [discriminate | reflexivity].
  - destruct (match_at r false prev (c :: s)) as [[k gs]|]; [discriminate|].
    rewrite (IH _ _ H). reflexivity.
Qed.

(** ** The stages as folds over their catalogs *)

Lemma sub_scan_ext (r : regex) (f1 f2 : text -> spans -> text) :
  (forall m gs, f1 m gs = f2 m gs) ->
  forall s prev skip, sub_scan r f1 prev s skip = sub_scan r f2 prev s skip.
Proof.
  intro H. induction s as [|c s IH]; intros prev skip; cbn [sub_scan].
  - destruct skip; [|reflexivity].
    destruct (match_at r false prev []) as [[k gs]|]; [rewrite H|]; reflexivity.
  - destruct skip as [|j]; [|apply IH].
    destruct (match_at r false prev (c :: s)) as [[[|k] gs]|].
    + destruct (match_at r true prev (c :: s)) as [[[|k'] gs']|];
        rewrite ?IH, ?H; reflexivity.
    + rewrite IH, H. reflexivity.
    + rewrite IH. reflexivity.
Qed.

Lemma expand_literal (t m : text) (gs : spans) : expand (map TLit t) m gs = t.
Proof.
  unfold expand. induction t as [|c t IH]; simpl; [reflexivity | f_equal; exact IH].
Qed.

Lemma methods_compile :
  Forall (fun m => re_compile (window_base_pattern m) = Some (word_pattern (old_owner ++ m))
                   /\ parse_template 0 (new_owner ++ m) = Some (map TLit (new_owner ++ m)))
         methods_catalog.
Proof. repeat constructor. Qed.

Lemma sign_compiles :
  re_compile (str "\bGame_Interpreter\.prototype\.pluginCommand\b") = Some (word_pattern plugin_command).
Proof. reflexivity. Qed.

Lemma header_compiles : re_compile (str "/\*:[\s\S]*?\*/") = Some header_block_re.
Proof. reflexivity. Qed.

Lemma ensure_header_run (source : text) :
  ensure_header_has_target_mz source module_globals = (Some (header_stage source), module_globals).
Proof.
  unfold ensure_header_has_target_mz, header_stage, bind, gets. cbn [HEADER_BLOCK_RE module_globals].
  destruct (re_search header_block_re source) as [[[start len] gs]|]; [|reflexivity].
  cbv zeta. destruct (negb _); reflexivity.
Qed.

Lemma replace_window_base_methods_run (source : text) :
  replace_window_base_methods source module_globals =
  (fold_opt migrate_step methods_catalog (source, []), module_globals).
Proof.
  unfold replace_window_base_methods, bind at 1, gets.
  cbn [WINDOW_BASE_TO_STATUSBASE_METHODS module_globals].
  apply for_each_run. intros m [s ch] Hin.
  pose proof methods_compile as Hc. rewrite Forall_forall in Hc.
  destruct (Hc m Hin) as [Hre Htpl].
  unfold bind at 1, lift_opt. rewrite Hre. unfold migrate_step.
  destruct (opt_is (re_search (word_pattern (old_owner ++ m)) s)); [|reflexivity].
  unfold pattern_sub, pattern_subn, bind, lift_opt, ret. cbn [groups word_pattern].
  fold new_owner. rewrite Htpl.
  rewrite (sub_scan_ext _ (expand (map TLit (new_owner ++ m))) (fun _ _ => new_owner ++ m))
    by (intros; apply expand_literal).
  destruct (sub_scan _ _ None s 0) as [out n]. reflexivity.
Qed.

Lemma color_step_run (e : text * text) (acc : text * list text) (g : Globals) :
  color_step e acc g = (substitute_step e acc, g).
Proof.
  destruct e as [pat repl], acc as [s ch].
  unfold color_step, substitute_step, compile_entry, re_subn, pattern_subn, bind, lift_opt, ret.
  cbn [fst snd].
  destruct (re_compile pat) as [r|]; [|reflexivity].
  destruct (parse_template (groups r) repl) as [tpl|]; [|reflexivity].
  destruct (sub_scan r (expand tpl) None s 0) as [out n].
  destruct (Nat.ltb 0 n); reflexivity.
Qed.

Lemma replace_colors_run (source : text) (keep : bool) :
  replace_colors source keep module_globals = (colors_stage source keep, module_globals).
Proof.
  unfold replace_colors, colors_stage. destruct keep; [reflexivity|].
  unfold bind at 1, gets. cbn [COLOR_REPLACEMENTS module_globals].
  apply for_each_run. intros e acc _. apply color_step_run.
Qed.

Lemma annotate_run (source : text) :
  annotate_plugin_command_todos source module_globals =
  (fold_opt annotate_step signs_catalog (source, []), module_globals).
Proof.
  unfold annotate_plugin_command_todos, bind at 1, gets.
  cbn [MV_PLUGIN_COMMAND_SIGNS module_globals].
  apply for_each_run. intros sig [s ch] _.
  unfold annotate_step, bind, lift_opt, pattern_sub_fun, ret. cbn [fst snd].
  destruct (re_compile sig) as [r|]; [|reflexivity].
  destruct (opt_is (re_search r s)); reflexivity.
Qed.

Lemma convert_text_run (source : text) (keep : bool) :
  convert_text source keep module_globals = (convert_stages source keep, module_globals).
Proof.
  unfold convert_text, convert_stages.
  rewrite (run_bind _ _ _ _ (ensure_header_run source)).
  destruct (header_stage source) as [s1 changed].
  rewrite (run_bind _ _ _ _ (replace_window_base_methods_run s1)).
  destruct (fold_opt migrate_step methods_catalog (s1, [])) as [[s2 c2]|]; [|reflexivity].
  rewrite (run_bind _ _ _ _ (replace_colors_run s2 keep)).
  destruct (colors_stage s2 keep) as [[s3 c3]|]; [|reflexivity].
  rewrite (run_bind _ _ _ _ (annotate_run s3)).
  destruct (fold_opt annotate_step signs_catalog (s3, [])) as [[s4 c4]|]; [|reflexivity].
  destruct changed; reflexivity.
Qed.

(** ** What a loop keeps invariant, and when it returns *)

Lemma fold_opt_total {A S} (step : A -> S -> option S) (l : list A) :
  (forall x t, In x l -> exists t', step x t = Some t') ->
  forall s, exists s', fold_opt step l s = Some s'.
Proof.
  induction l as [|x l IH]; intros Hstep s; simpl.
  - exists s. reflexivity.
  - destruct (Hstep x s (or_introl eq_refl)) as [t Ht]. rewrite Ht.
    apply IH. intros y u Hy. apply Hstep. right. exact Hy.
Qed.

Lemma fold_opt_fixed {A S} (step : A -> S -> option S) (l : list A) (s : S) :
  (forall x, In x l -> step x s = Some s) -> fold_opt step l s = Some s.
Proof.
  induction l as [|x l IH]; intros Hstep; simpl.
  - reflexivity.
  - rewrite (Hstep x (or_introl eq_refl)). apply IH.
    intros y Hy. apply Hstep. right. exact Hy.
Qed.

Lemma colors_compile :
  forallb (fun e => opt_is (compile_entry e)) color_catalog = true.
Proof. reflexivity. Qed.

Lemma color_entry_compiles (e : text * text) :
  In e color_catalog -> exists r tpl, compile_entry e = Some (r, tpl).
Proof.
  intro H. pose proof colors_compile as Hc. rewrite forallb_forall in Hc.
  specialize (Hc e H). destruct (compile_entry e) as [[r tpl]|]; [|discriminate].
  exists r, tpl. reflexivity.
Qed.

Lemma compile_entry_regex (e : text * text) (r : regex) (tpl : list tpiece) :
  compile_entry e = Some (r, tpl) -> re_compile (fst e) = Some r.
Proof.
  unfold compile_entry. destruct (re_compile (fst e)) as [r'|]; [|discriminate].
  destruct (parse_template (groups r') (snd e)); [|discriminate].
  intro H. injection H as -> _. reflexivity.
Qed.

Lemma migrate_stage_total (s : text) (ch : list text) :
  exists r, fold_opt migrate_step methods_catalog (s, ch) = Some r.
Proof.
  apply fold_opt_total. intros m [t c] _. unfold migrate_step.
  destruct (opt_is _); eexists; reflexivity.
Qed.

Lemma colors_stage_total (s : text) (keep : bool) :
  exists r, colors_stage s keep = Some r.
Proof.
  unfold colors_stage. destruct keep; [eexists; reflexivity|].
  apply fold_opt_total. intros e acc Hin.
  destruct (color_entry_compiles e Hin) as (r & tpl & Hc).
  unfold substitute_step. rewrite Hc.
  destruct (sub_scan r (expand tpl) None (fst acc) 0) as [out n].
  destruct (Nat.ltb 0 n); eexists; reflexivity.
Qed.

Lemma annotate_stage_total (s : text) (ch : list text) :
  exists r, fold_opt annotate_step signs_catalog (s, ch) = Some r.
Proof.
  apply fold_opt_total. intros sig acc Hin.
  destruct Hin as [<-|[]]. unfold annotate_step. rewrite sign_compiles.
  destruct (opt_is _); eexists; reflexivity.
Qed.

(** The lines a stage can add to the report. *)
Lemma migrate_stage_lines (l : list text) (s s' : text) (ch ch' : list text) :
  fold_opt migrate_step l (s, ch) = Some (s', ch') ->
  exists extra, ch' = ch ++ extra /\ incl extra (map window_base_change l).
Proof.
  revert s ch. induction l as [|m l IH]; intros s ch H; simpl in H.
  - injection H as <- <-. exists []. split; [symmetry; apply app_nil_r | intros x []].
  - destruct (opt_is _).
    + apply IH in H. destruct H as (extra & -> & Hin).
      exists (window_base_change m :: extra). split.
      * rewrite <- app_assoc. reflexivity.
      * intros x [<-|Hx]; [left; reflexivity | right; apply Hin; exact Hx].
    + apply IH in H. destruct H as (extra & -> & Hin).
      exists extra. split; [reflexivity|].
      intros x Hx. right. apply Hin. exact Hx.
Qed.

Lemma annotate_stage_lines (s s' : text) (ch' : list text) :
  fold_opt annotate_step signs_catalog (s, []) = Some (s', ch') ->
  ch' = [] \/ ch' = [annotated_change].
Proof.
  cbn [fold_opt signs_catalog]. unfold annotate_step. rewrite sign_compiles. cbn [fst snd].
  destruct (opt_is _); intro H; injection H as <- <-; [right | left]; reflexivity.
Qed.

Lemma colors_stage_lines (l : list (text * text)) (acc acc' : text * list text) :
  fold_opt substitute_step l acc = Some acc' ->
  exists extra, snd acc' = snd acc ++ extra /\
                Forall (fun line => exists e n, In e l /\ line = color_change (fst e) (snd e) n) extra.
Proof.
  revert acc. induction l as [|e l IH]; intros acc H; simpl in H.
  - injection H as <-. exists []. split; [symmetry; apply app_nil_r | constructor].
  - destruct (substitute_step e acc) as [acc1|] eqn:E; [|discriminate].
    apply IH in H. destruct H as (extra & Hex & Hall).
    assert (Hall' : Forall (fun line => exists e0 n, In e0 (e :: l) /\
                                          line = color_change (fst e0) (snd e0) n) extra).
    { eapply Forall_impl; [|exact Hall]. intros line (e0 & n & Hin & ->).
      exists e0, n. split; [right; exact Hin | reflexivity]. }
    unfold substitute_step in E.
    destruct (compile_entry e) as [[r tpl]|]; [|discriminate].
    destruct (sub_scan r (expand tpl) None (fst acc) 0) as [out n].
    destruct (Nat.ltb 0 n); injection E as <-.
    + cbn [snd] in Hex. rewrite <- app_assoc in Hex.
      eexists. split; [exact Hex|]. constructor; [|exact Hall'].
      exists e, n. split; [left; reflexivity | reflexivity].
    + exists extra. split; assumption.
Qed.

(** ** The engine as a whole *)

Lemma eval_convert_text (source : text) (keep : bool) :
  eval (convert_text source keep) = convert_stages source keep.
Proof. unfold eval. rewrite convert_text_run. reflexivity. Qed.

Lemma convert_stages_total (source : text) (keep : bool) :
  exists out report, convert_stages source keep = Some (out, report).
Proof.
  unfold convert_stages. destruct (header_stage source) as [s1 changed].
  destruct (migrate_stage_total s1 []) as [[s2 c2] ->].
  destruct (colors_stage_total s2 keep) as [[s3 c3] ->].
  destruct (annotate_stage_total s3 []) as [[s4 c4] ->].
  eexists. eexists. reflexivity.
Qed.

Lemma other_lines_not_color :
  forallb (fun line => negb (is_color_change line))
          (header_change :: annotated_change :: map window_base_change methods_catalog) = true.
Proof. reflexivity. Qed.

(** C6. With the skip flag set the call-pattern substitution stage
    returns its input and no changes, so [convert_text] is the header,
    symbol migration and annotation stages chained, and its report has
    no call-pattern substitution line. *)
Theorem skip_flag_skips_colors (source : text) :
  eval (replace_colors source true) = Some (source, []) /\
  exists s1 changed s2 c2 s4 c4,
    eval (ensure_header_has_target_mz source) = Some (s1, changed) /\
    eval (replace_window_base_methods s1) = Some (s2, c2) /\
    eval (annotate_plugin_command_todos s2) = Some (s4, c4) /\
    eval (convert_text source true)
    = Some (s4, (if changed then [header_change] else []) ++ c2 ++ c4) /\
    existsb is_color_change ((if changed then [header_change] else []) ++ c2 ++ c4) = false.
Proof.
  split; [reflexivity|].
  unfold eval.
  destruct (header_stage source) as [s1 changed] eqn:E1.
  destruct (migrate_stage_total s1 []) as [[s2 c2] E2].
  destruct (annotate_stage_total s2 []) as [[s4 c4] E4].
  exists s1, changed, s2, c2, s4, c4.
  rewrite ensure_header_run, replace_window_base_methods_run, annotate_run, convert_text_run.
  cbn [fst]. unfold convert_stages. rewrite E1, E2. cbn [colors_stage]. rewrite E4.
  rewrite app_nil_r, <- app_assoc.
  repeat split; try assumption; try reflexivity.
  pose proof other_lines_not_color as Hl. rewrite forallb_forall in Hl.
  apply not_true_is_false. intro Hex. apply existsb_exists in Hex.
  destruct Hex as (line & Hin & Hline).
  assert (Hmem : In line (header_change :: annotated_change ::
                          map window_base_change methods_catalog)).
  { apply in_app_or in Hin. destruct Hin as [Hin|Hin].
    - destruct changed; [destruct Hin as [<-|[]]; left; reflexivity | destruct Hin].
    - apply in_app_or in Hin. destruct Hin as [Hin|Hin].
      + apply migrate_stage_lines in E2. destruct E2 as (extra & -> & Hincl).
        right. right. apply Hincl. exact Hin.
      + apply annotate_stage_lines in E4. destruct E4 as [-> | ->]; [destruct Hin|].
        destruct Hin as [<-|[]]. right. left. reflexivity. }
  apply Hl in Hmem. rewrite Hline in Hmem. discriminate.
Qed.

Lemma existsb_false_In {A} (f : A -> bool) (l : list A) (x : A) :
  existsb f l = false -> In x l -> f x = false.
Proof.
  intros H Hin. apply not_true_is_false. intro Hx.
  assert (existsb f l = true) by (apply existsb_exists; exists x; split; assumption).
  congruence.
Qed.

(** C7. A text in which none of the recognized patterns occurs comes
    back unchanged with an empty report, whatever the skip flag. *)
Theorem no_pattern_no_change (source : text) (keep : bool) :
  recognized source = false ->
  eval (convert_text source keep) = Some (source, []).
Proof.
  unfold recognized. intro H.
  apply orb_false_iff in H. destruct H as [H H4].
  apply orb_false_iff in H. destruct H as [H H3].
  apply orb_false_iff in H. destruct H as [H1 H2].
  rewrite eval_convert_text. unfold convert_stages, header_stage.
  destruct (re_search header_block_re source); [discriminate|].
  rewrite fold_opt_fixed.
  2:{ intros m Hm. unfold migrate_step.
      pose proof (existsb_false_In _ _ m H2 Hm) as Ho. unfold pattern_occurs in Ho.
      pose proof methods_compile as Hc. rewrite Forall_forall in Hc.
      destruct (Hc m Hm) as [Hre _]. rewrite Hre in Ho. rewrite Ho. reflexivity. }
  assert (Hcol : colors_stage source keep = Some (source, [])).
  { unfold colors_stage. destruct keep; [reflexivity|].
    apply fold_opt_fixed. intros e He. unfold substitute_step.
    destruct (color_entry_compiles e He) as (r & tpl & Hc). rewrite Hc.
    pose proof (existsb_false_In _ _ e H3 He) as Ho. unfold pattern_occurs in Ho.
    rewrite (compile_entry_regex _ _ _ Hc) in Ho. cbn [fst].
    unfold re_search in Ho.
    destruct (search_from r None source 0) eqn:Es; [discriminate|].
    rewrite (sub_scan_nomatch _ _ _ _ _ Es). reflexivity. }
  rewrite Hcol.
  rewrite fold_opt_fixed; [reflexivity|].
  intros sig Hs. unfold annotate_step.
  pose proof (existsb_false_In _ _ sig H4 Hs) as Ho. unfold pattern_occurs in Ho.
  destruct Hs as [<-|[]]. rewrite sign_compiles in *. cbn [fst]. rewrite Ho. reflexivity.
Qed.

(** The minimal empty document. *)
Lemma no_pattern_no_change_witness :
  recognized [] = false /\ eval (convert_text [] false) = Some ([], []).
Proof.
  split; [reflexivity | apply (no_pattern_no_change [] false); reflexivity].
Defined.

Lemma not_header_lines :
  forallb (fun line => negb (text_eqb header_change line))
          (annotated_change :: map window_base_change methods_catalog) = true.
Proof. reflexivity. Qed.

Lemma color_patterns_start :
  forallb (fun e => prefixb [backslash] (fst e)) color_catalog = true.
Proof. reflexivity. Qed.

Lemma color_change_not_header (e : text * text) (n : nat) :
  In e color_catalog -> header_change <> color_change (fst e) (snd e) n.
Proof.
  intros Hin Heq. pose proof color_patterns_start as H. rewrite forallb_forall in H.
  specialize (H e Hin). apply prefixb_true in H. unfold color_change in Heq.
  rewrite H in Heq. discriminate Heq.
Qed.

(** When the header stage changes nothing, the report has no header
    line. *)
Lemma report_without_header (source : text) (keep : bool) :
  header_stage source = (source, false) ->
  exists out report,
    eval (convert_text source keep) = Some (out, report) /\
    existsb (text_eqb header_change) report = false.
Proof.
  intro Hh. rewrite eval_convert_text. unfold convert_stages. rewrite Hh.
  destruct (migrate_stage_total source []) as [[s2 c2] E2]. rewrite E2.
  destruct (colors_stage_total s2 keep) as [[s3 c3] E3]. rewrite E3.
  destruct (annotate_stage_total s3 []) as [[s4 c4] E4]. rewrite E4.
  eexists. eexists. split; [reflexivity|].
  apply not_true_is_false. intro Hex. apply existsb_exists in Hex.
  destruct Hex as (line & Hin & Hline). apply text_eqb_eq in Hline. subst line.
  pose proof not_header_lines as Hl. rewrite forallb_forall in Hl.
  cbn [app] in Hin. apply in_app_or in Hin. destruct Hin as [Hin|Hin].
  - apply in_app_or in Hin. destruct Hin as [Hin|Hin].
    + apply migrate_stage_lines in E2. destruct E2 as (extra & -> & Hincl).
      assert (Hm : In header_change (annotated_change :: map window_base_change methods_catalog))
        by (right; apply Hincl; exact Hin).
      apply Hl in Hm. rewrite text_eqb_refl in Hm. discriminate.
    + unfold colors_stage in E3. destruct keep.
      * injection E3 as <- <-. destruct Hin.
      * apply colors_stage_lines in E3. destruct E3 as (extra & Hex & Hall).
        cbn [snd app] in Hex. subst c3. rewrite Forall_forall in Hall.
        destruct (Hall _ Hin) as (e & n & He & Heq).
        exact (color_change_not_header e n He Heq).
  - apply annotate_stage_lines in E4. destruct E4 as [-> | ->]; [destruct Hin|].
    destruct Hin as [Heq|[]].
    assert (Hm : In header_change (annotated_change :: map window_base_change methods_catalog))
      by (left; exact Heq).
    apply Hl in Hm. rewrite text_eqb_refl in Hm. discriminate.
Qed.

(** C10, as amended.  The marker check is for the substring [@target]:
    when the first header block already holds such a directive
    (whatever its value), [add_target_mz] returns the block as it is,
    the header stage returns the source unchanged, and the report of
    [convert_text] has no header entry: [convert_text] is then the
    three later stages run on the source as it was given. *)
Theorem existing_target_directive_kept
        (source : text) (keep : bool) (start len : nat) (gs : spans) :
  re_search header_block_re source = Some (start, len, gs) ->
  contains (str "@target") (firstn len (skipn start source)) = true ->
  add_target_mz (firstn len (skipn start source)) = firstn len (skipn start source) /\
  eval (ensure_header_has_target_mz source) = Some (source, false) /\
  (exists out report,
      eval (convert_text source keep) = Some (out, report) /\
      existsb (text_eqb header_change) report = false) /\
  exists s2 c2 s3 c3 s4 c4,
    eval (replace_window_base_methods source) = Some (s2, c2) /\
    eval (replace_colors s2 keep) = Some (s3, c3) /\
    eval (annotate_plugin_command_todos s3) = Some (s4, c4) /\
    eval (convert_text source keep) = Some (s4, c2 ++ c3 ++ c4).
Proof.
  intros Hs Hc.
  assert (Ha : add_target_mz (firstn len (skipn start source)) = firstn len (skipn start source)).
  { unfold add_target_mz. rewrite Hc. reflexivity. }
  assert (Hh : header_stage source = (source, false)).
  { unfold header_stage. rewrite Hs. cbv zeta. rewrite Ha, text_eqb_refl. reflexivity. }
  split; [exact Ha|]. split; [|split].
  - unfold eval. rewrite ensure_header_run. cbn [fst]. rewrite Hh. reflexivity.
  - apply report_without_header. exact Hh.
  - destruct (migrate_stage_total source []) as [[s2 c2] E2].
    destruct (colors_stage_total s2 keep) as [[s3 c3] E3].
    destruct (annotate_stage_total s3 []) as [[s4 c4] E4].
    exists s2, c2, s3, c3, s4, c4.
    unfold eval.
    rewrite replace_window_base_methods_run, replace_colors_run, annotate_run,
      convert_text_run.
    cbn [fst]. unfold convert_stages. rewrite Hh, E2, E3, E4.
    cbn [app]. rewrite <- app_assoc. repeat split; assumption || reflexivity.
Qed.

Lemma existing_target_directive_kept_witness :
  re_search header_block_re header_target_mv = Some (0, 21, []) /\
  contains (str "@target") (firstn 21 (skipn 0 header_target_mv)) = true /\
  eval (ensure_header_has_target_mz header_target_mv) = Some (header_target_mv, false).
Proof.
  split; [reflexivity|]. split; [reflexivity|].
  apply (existing_target_directive_kept header_target_mv false 0 21 []); reflexivity.
Defined.

(** C10 as stated fails where it says that [convert_text] returns the
    header unchanged.  The header block of [header_with_call] holds a
    directive, so the header stage leaves it alone; but the block also
    holds a call of [textColor] in its help text, which the
    call-pattern substitution stage rewrites: the text returned does
    not hold the header block of the source any more. *)
Lemma header_rewritten_by_later_stage :
  eval (convert_text header_with_call false)
  = Some (str "/*:" ++ nl :: str " * @target MV" ++ nl ::
          str " * @help call ColorManager.textColor(1)" ++ nl :: str " */",
          [text_color_pattern ++ str " -> " ++ text_color_template ++ str " (1x)"]) /\
  ~ (forall source keep start len gs,
        re_search header_block_re source = Some (start, len, gs) ->
        contains (str "@target") (firstn len (skipn start source)) = true ->
        exists out report,
          eval (convert_text source keep) = Some (out, report) /\
          contains (firstn len (skipn start source)) out = true).
Proof.
  split; [reflexivity|]. intro H.
  destruct (H header_with_call false 0 (length header_with_call) [] eq_refl eq_refl)
    as (out & report & Hrun & Hin).
  vm_compute in Hrun. injection Hrun as <- _.
  vm_compute in Hin. discriminate Hin.
Qed.

(** C3, at a header block of a single line.  The block has no
    [@target] directive, and [add_target_mz] puts the marker line in
    front of it: the text spliced in does not start with the opening
    delimiter, and the header block of the result is the old block,
    found after the marker line, with no line added to it. *)
Theorem single_line_header_marker_outside :
  re_search header_block_re single_line_header = Some (0, 10, []) /\
  contains (str "@target") single_line_header = false /\
  add_target_mz single_line_header = target_marker ++ nl :: single_line_header /\
  eval (ensure_header_has_target_mz single_line_header)
  = Some (target_marker ++ nl :: single_line_header, true) /\
  prefixb (str "/*:") (add_target_mz single_line_header) = false /\
  re_search header_block_re (target_marker ++ nl :: single_line_header)
  = Some (length target_marker + 1, 10, []).
Proof. repeat split. Qed.

(** C4, at a header block of a single line: the first pass reports the
    header stage, and so does the second pass over the output of the
    first, which gets a second marker line. *)
Theorem second_pass_reports_header_again :
  eval (convert_text single_line_header false)
  = Some (target_marker ++ nl :: single_line_header, [header_change]) /\
  eval (convert_text (target_marker ++ nl :: single_line_header) false)
  = Some (target_marker ++ nl :: target_marker ++ nl :: single_line_header, [header_change]).
Proof. split; reflexivity. Qed.

(** ** The list objects: what a call reads, makes and changes *)

Lemma with_objects_nil (w : Obj.World) : with_objects w [] = w.
Proof. destruct w as [g o]. unfold with_objects. cbn. rewrite app_nil_r. reflexivity. Qed.

Lemma with_objects_app (w : Obj.World) (a b : list (list Obj.value)) :
  with_objects (with_objects w a) b = with_objects w (a ++ b).
Proof. unfold with_objects. cbn. rewrite app_assoc. reflexivity. Qed.

Lemma with_objects_length (w : Obj.World) (a : list (list Obj.value)) :
  length (Obj.objects (with_objects w a)) = length (Obj.objects w) + length a.
Proof. unfold with_objects. cbn. apply length_app. Qed.

Lemma catalogs_in_with_objects (w : Obj.World) (extra : list (list Obj.value)) :
  catalogs_in w -> catalogs_in (with_objects w extra).
Proof.
  unfold catalogs_in, with_objects. cbn [Obj.globals Obj.objects].
  intros (H1 & H2 & H3 & H4).
  assert (Hk : forall r l, nth_error (Obj.objects w) r = Some l ->
                           nth_error (Obj.objects w ++ extra) r = Some l).
  { intros r l H. rewrite nth_error_app1; [exact H|].
    apply nth_error_Some. rewrite H. discriminate. }
  repeat split; auto.
Qed.

Lemma obj_bind_some {A B} (c : Obj.M A) (k : A -> Obj.M B) (w w' : Obj.World) (x : A) :
  c w = (Some x, w') -> Obj.bind c k w = k x w'.
Proof. intro H. unfold Obj.bind. rewrite H. reflexivity. Qed.

Lemma update_app {A} (h e : list A) (i : nat) (x : A) :
  Obj.update (length h + i) x (h ++ e) = h ++ Obj.update i x e.
Proof.
  induction h as [|y h IH]; cbn [length Nat.add app Obj.update].
  - reflexivity.
  - rewrite IH. reflexivity.
Qed.

Lemma contents_fresh (w : Obj.World) (extra : list (list Obj.value)) (i : nat) :
  Obj.contents (length (Obj.objects w) + i) (with_objects w extra)
  = (nth_error extra i, with_objects w extra).
Proof.
  unfold Obj.contents, with_objects. cbn [Obj.objects].
  rewrite nth_error_app2 by lia.
  replace (length (Obj.objects w) + i - length (Obj.objects w)) with i by lia.
  reflexivity.
Qed.

Lemma change_fresh (w : Obj.World) (extra : list (list Obj.value)) (i : nat)
      (l : list Obj.value) (f : list Obj.value -> list Obj.value) :
  nth_error extra i = Some l ->
  Obj.change (length (Obj.objects w) + i) f (with_objects w extra)
  = (Some tt, with_objects w (Obj.update i (f l) extra)).
Proof.
  intro H. unfold Obj.change, with_objects. cbn [Obj.objects Obj.globals].
  rewrite nth_error_app2 by lia.
  replace (length (Obj.objects w) + i - length (Obj.objects w)) with i by lia.
  rewrite H, update_app. reflexivity.
Qed.

(** A change of the first object made since [w]. *)
Lemma change_first (w : Obj.World) (l : list Obj.value) (rest : list (list Obj.value))
      (f : list Obj.value -> list Obj.value) :
  Obj.change (length (Obj.objects w)) f (with_objects w (l :: rest))
  = (Some tt, with_objects w (f l :: rest)).
Proof.
  rewrite <- (Nat.add_0_r (length (Obj.objects w))) at 1.
  apply (change_fresh w (l :: rest) 0 l f). reflexivity.
Qed.

Lemma strs_map (l : list text) : Obj.strs (map Obj.VStr l) = Some l.
Proof.
  induction l as [|x l IH]; [reflexivity|]. cbn [map Obj.strs]. rewrite IH. reflexivity.
Qed.

Lemma list_insert_map {A B} (f : A -> B) (i : nat) (x : A) (l : list A) :
  list_insert i (f x) (map f l) = map f (list_insert i x l).
Proof.
  unfold list_insert. rewrite map_app. cbn [map].
  rewrite firstn_map, skipn_map. reflexivity.
Qed.

(** [add_target_mz] makes at most one list, [lines], and returns what
    the function on values returns. *)
Lemma add_target_mz_objects (header : text) (w : Obj.World) :
  exists extra,
    Obj.add_target_mz header w = (Some (add_target_mz header), with_objects w extra).
Proof.
  unfold Obj.add_target_mz, add_target_mz.
  destruct (contains (str "@target") header).
  - exists []. rewrite with_objects_nil. reflexivity.
  - rewrite (obj_bind_some _ _ w (with_objects w [map Obj.VStr (splitlines header)])
                           (length (Obj.objects w))) by reflexivity.
    rewrite (obj_bind_some _ _ _ (with_objects w [map Obj.VStr (splitlines header)])
                           (map Obj.VStr (splitlines header))).
    2:{ rewrite <- (Nat.add_0_r (length (Obj.objects w))). apply contents_fresh. }
    destruct (splitlines header) as [|l0 lines] eqn:El.
    + eexists. reflexivity.
    + cbn [map]. cbv zeta.
      change (Obj.VStr l0 :: map Obj.VStr lines) with (map Obj.VStr (l0 :: lines)).
      set (ls := l0 :: lines). rewrite length_map.
      set (i := if Nat.ltb 1 (length ls) then 1 else 0).
      unfold Obj.insert.
      rewrite (obj_bind_some _ _ _ _ tt
                 (change_first w (map Obj.VStr ls) [] (list_insert i (Obj.VStr target_marker)))).
      rewrite list_insert_map.
      rewrite (obj_bind_some _ _ _ (with_objects w [map Obj.VStr (list_insert i target_marker ls)])
                             (map Obj.VStr (list_insert i target_marker ls))).
      2:{ rewrite <- (Nat.add_0_r (length (Obj.objects w))). apply contents_fresh. }
      unfold Obj.lift_opt, Obj.bind, Obj.ret. rewrite strs_map.
      eexists. reflexivity.
Qed.

Lemma ensure_header_objects (source : text) (w : Obj.World) :
  catalogs_in w ->
  exists extra,
    Obj.ensure_header_has_target_mz source w
    = (Some (header_stage source), with_objects w extra).
Proof.
  intros (_ & _ & _ & Hre).
  unfold Obj.ensure_header_has_target_mz, header_stage.
  unfold Obj.bind at 1, Obj.gets. rewrite Hre.
  destruct (re_search header_block_re source) as [[[start len] gs]|].
  - destruct (add_target_mz_objects (firstn len (skipn start source)) w) as (extra & Ha).
    exists extra. cbv zeta. rewrite (obj_bind_some _ _ _ _ _ Ha).
    destruct (negb _); reflexivity.
  - exists []. rewrite with_objects_nil. reflexivity.
Qed.

(** A loop that appends to the one list made since [w]. *)
Lemma for_each_objects {X} (w : Obj.World) (inj : X -> Obj.value)
      (body : Obj.value -> text -> Obj.M text)
      (step : X -> text * list text -> option (text * list text)) (l : list X) :
  (forall x s ch s' ch',
      In x l -> step x (s, ch) = Some (s', ch') ->
      body (inj x) s (with_objects w [map Obj.VStr ch])
      = (Some s', with_objects w [map Obj.VStr ch'])) ->
  forall s ch s' ch',
    fold_opt step l (s, ch) = Some (s', ch') ->
    Obj.for_each (map inj l) body s (with_objects w [map Obj.VStr ch])
    = (Some s', with_objects w [map Obj.VStr ch']).
Proof.
  induction l as [|x l IH]; intros Hb s ch s' ch' H; cbn [fold_opt map Obj.for_each] in *.
  - injection H as <- <-. reflexivity.
  - destruct (step x (s, ch)) as [[s1 ch1]|] eqn:E; [|discriminate].
    rewrite (obj_bind_some _ _ _ _ _ (Hb x s ch s1 ch1 (or_introl eq_refl) E)).
    apply IH; [|exact H]. intros y t c t' c' Hy. apply Hb. right. exact Hy.
Qed.

Lemma append_line (w : Obj.World) (ch : list text) (line : text) :
  Obj.append (length (Obj.objects w)) (Obj.VStr line) (with_objects w [map Obj.VStr ch])
  = (Some tt, with_objects w [map Obj.VStr (ch ++ [line])]).
Proof. unfold Obj.append. rewrite change_first, map_app. reflexivity. Qed.

Lemma for_in_catalog {S} (w : Obj.World) (r : Obj.ref) (l l0 : list Obj.value)
      (body : Obj.value -> S -> Obj.M S) (s : S) :
  nth_error (Obj.objects w) r = Some l ->
  Obj.for_in r body s (with_objects w [l0])
  = Obj.for_each l body s (with_objects w [l0]).
Proof.
  intro H. unfold Obj.for_in.
  rewrite (obj_bind_some _ _ _ (with_objects w [l0]) l); [reflexivity|].
  unfold Obj.contents, with_objects. cbn [Obj.objects].
  rewrite nth_error_app1; [rewrite H; reflexivity|].
  apply nth_error_Some. rewrite H. discriminate.
Qed.

Lemma replace_window_base_methods_objects (source out : text) (ch : list text)
      (w : Obj.World) :
  catalogs_in w ->
  fold_opt migrate_step methods_catalog (source, []) = Some (out, ch) ->
  Obj.replace_window_base_methods source w
  = (Some (out, length (Obj.objects w)), with_objects w [map Obj.VStr ch]).
Proof.
  intros (Hm & _) Hfold. unfold Obj.replace_window_base_methods.
  rewrite (obj_bind_some _ _ w (with_objects w [[]]) (length (Obj.objects w))) by reflexivity.
  unfold Obj.bind at 1, Obj.gets. cbn [Obj.globals with_objects].
  fold (with_objects w [[]]).
  rewrite (obj_bind_some _ _ _ (with_objects w [map Obj.VStr ch]) out); [reflexivity|].
  rewrite (for_in_catalog w _ _ _ _ _ Hm).
  change (with_objects w [[]]) with (with_objects w [map Obj.VStr []]).
  apply (for_each_objects w Obj.VStr _ migrate_step methods_catalog); [|exact Hfold].
  intros m s c s' c' Hin Hstep.
  pose proof methods_compile as Hc. rewrite Forall_forall in Hc.
  destruct (Hc m Hin) as [Hre Htpl].
  cbn [Obj.as_str]. unfold Obj.bind at 1, Obj.ret.
  unfold Obj.bind at 1, Obj.lift_opt. rewrite Hre.
  unfold migrate_step in Hstep.
  destruct (opt_is (re_search (word_pattern (old_owner ++ m)) s)).
  - injection Hstep as <- <-.
    unfold Obj.pattern_sub, Obj.pattern_subn. cbn [groups word_pattern]. fold new_owner.
    unfold Obj.bind at 1. unfold Obj.bind at 1. unfold Obj.bind at 1.
    unfold Obj.lift_opt. rewrite Htpl. unfold Obj.ret at 1.
    rewrite (sub_scan_ext _ (expand (map TLit (new_owner ++ m))) (fun _ _ => new_owner ++ m))
      by (intros; apply expand_literal).
    destruct (sub_scan _ _ None s 0) as [o n]. cbn [fst]. unfold Obj.ret at 1.
    rewrite (obj_bind_some _ _ _ _ _ (append_line w c (window_base_change m))).
    reflexivity.
  - injection Hstep as <- <-. reflexivity.
Qed.

Lemma replace_colors_objects (source out : text) (keep : bool) (ch : list text)
      (w : Obj.World) :
  catalogs_in w ->
  colors_stage source keep = Some (out, ch) ->
  Obj.replace_colors source keep w
  = (Some (out, length (Obj.objects w)), with_objects w [map Obj.VStr ch]).
Proof.
  intros (_ & Hc & _) Hfold. unfold Obj.replace_colors, colors_stage in *.
  destruct keep.
  - injection Hfold as <- <-. reflexivity.
  - rewrite (obj_bind_some _ _ w (with_objects w [[]]) (length (Obj.objects w)))
      by reflexivity.
    unfold Obj.bind at 1, Obj.gets. cbn [Obj.globals with_objects].
    fold (with_objects w [[]]).
    rewrite (obj_bind_some _ _ _ (with_objects w [map Obj.VStr ch]) out); [reflexivity|].
    rewrite (for_in_catalog w _ _ _ _ _ Hc).
    change (with_objects w [[]]) with (with_objects w [map Obj.VStr []]).
    apply (for_each_objects w (fun e => Obj.VPair (fst e) (snd e)) _
                            substitute_step color_catalog); [|exact Hfold].
    intros [pat repl] s c s' c' _ Hstep. cbn [fst snd Obj.unpack2].
    unfold substitute_step, compile_entry in Hstep. cbn [fst snd] in Hstep.
    unfold Obj.bind at 1, Obj.ret at 1.
    unfold Obj.re_subn, Obj.pattern_subn.
    unfold Obj.bind at 1. unfold Obj.bind at 1. unfold Obj.lift_opt at 1.
    destruct (re_compile pat) as [r|]; [|discriminate].
    unfold Obj.bind at 1. unfold Obj.lift_opt at 1.
    destruct (parse_template (groups r) repl) as [tpl|]; [|discriminate].
    unfold Obj.ret at 1.
    destruct (sub_scan r (expand tpl) None s 0) as [o n].
    destruct (Nat.ltb 0 n).
    + injection Hstep as <- <-.
      rewrite (obj_bind_some _ _ _ _ _ (append_line w c (color_change pat repl n))).
      reflexivity.
    + injection Hstep as <- <-. reflexivity.
Qed.

Lemma annotate_objects (source out : text) (ch : list text) (w : Obj.World) :
  catalogs_in w ->
  fold_opt annotate_step signs_catalog (source, []) = Some (out, ch) ->
  Obj.annotate_plugin_command_todos source w
  = (Some (out, length (Obj.objects w)), with_objects w [map Obj.VStr ch]).
Proof.
  intros (_ & _ & Hs & _) Hfold. unfold Obj.annotate_plugin_command_todos.
  rewrite (obj_bind_some _ _ w (with_objects w [[]]) (length (Obj.objects w))) by reflexivity.
  unfold Obj.bind at 1, Obj.gets. cbn [Obj.globals with_objects].
  fold (with_objects w [[]]).
  rewrite (obj_bind_some _ _ _ (with_objects w [map Obj.VStr ch]) out); [reflexivity|].
  rewrite (for_in_catalog w _ _ _ _ _ Hs).
  change (with_objects w [[]]) with (with_objects w [map Obj.VStr []]).
  apply (for_each_objects w Obj.VStr _ annotate_step signs_catalog); [|exact Hfold].
  intros sig s c s' c' _ Hstep.
  cbn [Obj.as_str]. unfold Obj.bind at 1, Obj.ret at 1.
  unfold annotate_step in Hstep. cbn [fst snd] in Hstep.
  unfold Obj.bind at 1, Obj.lift_opt.
  destruct (re_compile sig) as [r|]; [|discriminate].
  destruct (opt_is (re_search r s)).
  - injection Hstep as <- <-. unfold Obj.pattern_sub_fun.
    unfold Obj.bind at 1, Obj.ret at 1.
    rewrite (obj_bind_some _ _ _ _ _ (append_line w c annotated_change)).
    reflexivity.
  - injection Hstep as <- <-. reflexivity.
Qed.

(** [report.extend(changes)], [report] being the first object made
    since [w] and [changes] the last. *)
Lemma extend_report (w : Obj.World) (rep c : list Obj.value) (mid : list (list Obj.value)) :
  Obj.extend (length (Obj.objects w))
             (length (Obj.objects (with_objects w (rep :: mid))))
             (with_objects (with_objects w (rep :: mid)) [c])
  = (Some tt, with_objects w ((rep ++ c) :: mid ++ [c])).
Proof.
  rewrite with_objects_app, with_objects_length. cbn [app]. unfold Obj.extend.
  rewrite (obj_bind_some _ _ _ (with_objects w (rep :: mid ++ [c])) c).
  - apply (change_first w rep (mid ++ [c]) (fun l => l ++ c)).
  - rewrite contents_fresh. f_equal. cbn [length nth_error].
    rewrite nth_error_app2 by lia. rewrite Nat.sub_diag. reflexivity.
Qed.

Lemma convert_text_objects (source out : text) (keep : bool) (report : list text)
      (w : Obj.World) :
  catalogs_in w ->
  convert_stages source keep = Some (out, report) ->
  exists made,
    Obj.convert_text source keep w
    = (Some (out, length (Obj.objects w)), with_objects w (map Obj.VStr report :: made)).
Proof.
  intros Hw Hrun. unfold convert_stages in Hrun. unfold Obj.convert_text.
  rewrite (obj_bind_some _ _ w (with_objects w [[]]) (length (Obj.objects w))) by reflexivity.
  destruct (ensure_header_objects source (with_objects w [[]])
                                  (catalogs_in_with_objects _ _ Hw)) as (hx & Hh).
  rewrite (obj_bind_some _ _ _ _ _ Hh). rewrite with_objects_app. cbn [app].
  destruct (header_stage source) as [s1 changed].
  destruct (fold_opt migrate_step methods_catalog (s1, [])) as [[s2 c2]|] eqn:E2;
    [|discriminate].
  destruct (colors_stage s2 keep) as [[s3 c3]|] eqn:E3; [|discriminate].
  destruct (fold_opt annotate_step signs_catalog (s3, [])) as [[s4 c4]|] eqn:E4;
    [|discriminate].
  injection Hrun as <- <-.
  set (rep1 := map Obj.VStr (if changed then [header_change] else [])).
  rewrite (obj_bind_some _ _ _ (with_objects w (rep1 :: hx)) tt).
  2:{ unfold rep1. destruct changed; [|reflexivity].
      unfold Obj.append. apply change_first. }
  rewrite (obj_bind_some _ _ _ _ _
             (replace_window_base_methods_objects s1 s2 c2 _
                (catalogs_in_with_objects _ _ Hw) E2)).
  rewrite (obj_bind_some _ _ _ _ _ (extend_report w rep1 (map Obj.VStr c2) hx)).
  rewrite (obj_bind_some _ _ _ _ _
             (replace_colors_objects s2 s3 keep c3 _
                (catalogs_in_with_objects _ _ Hw) E3)).
  rewrite (obj_bind_some _ _ _ _ _
             (extend_report w (rep1 ++ map Obj.VStr c2) (map Obj.VStr c3) _)).
  rewrite (obj_bind_some _ _ _ _ _
             (annotate_objects s3 s4 c4 _ (catalogs_in_with_objects _ _ Hw) E4)).
  rewrite (obj_bind_some _ _ _ _ _
             (extend_report w ((rep1 ++ map Obj.VStr c2) ++ map Obj.VStr c3)
                            (map Obj.VStr c4) _)).
  eexists. unfold Obj.ret, rep1. rewrite !map_app. reflexivity.
Qed.

(** C9. [convert_text] is a pure, deterministic function of the source
    text and the skip flag.  Its text and the lines of its report are
    those of the function on values, in every world in which the names
    of the module refer to the catalogues, whatever else that world
    holds and whatever ran before.  The report is a list made by the
    call, at an address no one held before; every name and every
    object of the world, the catalogues among them, is after the call
    as it was before it.  So two calls in a row return the same text
    and two reports with the same lines, which are two objects. *)
Theorem convert_text_pure (source : text) (keep : bool) :
  exists out report,
    eval (convert_text source keep) = Some (out, report) /\
    (forall w,
        catalogs_in w ->
        exists made,
          Obj.convert_text source keep w
          = (Some (out, length (Obj.objects w)),
             with_objects w (map Obj.VStr report :: made)) /\
          catalogs_in (with_objects w (map Obj.VStr report :: made))) /\
    (forall w,
        catalogs_in w ->
        exists r1 w1 r2 w2,
          Obj.convert_text source keep w = (Some (out, r1), w1) /\
          Obj.convert_text source keep w1 = (Some (out, r2), w2) /\
          r1 <> r2 /\
          nth_error (Obj.objects w2) r1 = Some (map Obj.VStr report) /\
          nth_error (Obj.objects w2) r2 = Some (map Obj.VStr report) /\
          Obj.globals w2 = Obj.globals w /\
          (forall r l, nth_error (Obj.objects w) r = Some l ->
                       nth_error (Obj.objects w2) r = Some l)).
Proof.
  destruct (convert_stages_total source keep) as (out & report & Hrun).
  exists out, report. split; [rewrite eval_convert_text; exact Hrun|].
  assert (Hone : forall w,
             catalogs_in w ->
             exists made,
               Obj.convert_text source keep w
               = (Some (out, length (Obj.objects w)),
                  with_objects w (map Obj.VStr report :: made)) /\
               catalogs_in (with_objects w (map Obj.VStr report :: made))).
  { intros w Hw. destruct (convert_text_objects source out keep report w Hw Hrun) as (made & H).
    exists made. split; [exact H | apply catalogs_in_with_objects; exact Hw]. }
  split; [exact Hone|].
  intros w Hw.
  destruct (Hone w Hw) as (made1 & H1 & Hw1).
  destruct (Hone _ Hw1) as (made2 & H2 & _).
  rewrite with_objects_app in H2. rewrite with_objects_length in H2. cbn [length] in H2.
  eexists. eexists. eexists. eexists.
  split; [exact H1|]. split; [exact H2|].
  split; [lia|].
  unfold with_objects. cbn [Obj.objects Obj.globals].
  split; [|split; [|split]].
  - rewrite nth_error_app2 by lia. rewrite Nat.sub_diag. reflexivity.
  - rewrite nth_error_app2 by lia.
    replace (length (Obj.objects w) + S (length made1) - length (Obj.objects w))
      with (length (map Obj.VStr report :: made1) + 0) by (cbn [length]; lia).
    rewrite nth_error_app2 by lia.
    replace (length (map Obj.VStr report :: made1) + 0
             - length (map Obj.VStr report :: made1)) with 0 by lia.
    reflexivity.
  - reflexivity.
  - intros r l H. rewrite nth_error_app1; [exact H|].
    apply nth_error_Some. rewrite H. discriminate.
Qed.

Lemma convert_text_pure_witness :
  catalogs_in Obj.module_world /\
  exists made,
    Obj.convert_text (str "this.textColor(1)") false Obj.module_world
    = (Some (str "ColorManager.textColor(1)", 3),
       with_objects Obj.module_world
         ([Obj.VStr (text_color_pattern ++ str " -> " ++ text_color_template ++ str " (1x)")]
          :: made)).
Proof.
  assert (Hw : catalogs_in Obj.module_world) by (repeat split).
  split; [exact Hw|].
  destruct (convert_text_pure (str "this.textColor(1)") false)
    as (out & report & Hrun & Hone & _).
  assert (Hout : Some (out, report)
                 = Some (str "ColorManager.textColor(1)",
                         [text_color_pattern ++ str " -> " ++ text_color_template
                                             ++ str " (1x)"])).
  { rewrite <- Hrun. reflexivity. }
  injection Hout as -> ->.
  destruct (Hone Obj.module_world Hw) as (made & H & _).
  exists made. exact H.
Defined.

(** ** The header block *)

Lemma search_from_elim (r : regex) :
  forall s prev i i' k gs,
    search_from r prev s i = Some (i', k, gs) ->
    exists pre t,
      s = pre ++ t /\ i' = i + length pre /\
      match_at r false (last_of pre prev) t = Some (k, gs) /\ quiet r prev pre t.
Proof.
  induction s as [|c s IH]; intros prev i i' k gs H; cbn [search_from] in H.
  - destruct (match_at r false prev []) as [[k' gs']|] eqn:E; [|discriminate].
    injection H as <- <- <-. exists [], []. cbn. rewrite Nat.add_0_r. auto.
  - destruct (match_at r false prev (c :: s)) as [[k' gs']|] eqn:E.
    + injection H as <- <- <-. exists [], (c :: s). cbn. rewrite Nat.add_0_r. auto.
    + apply IH in H. destruct H as (pre & t & -> & -> & Hm & Hq).
      exists (c :: pre), t. cbn [app length last_of fold_left quiet].
      repeat split; [lia | exact Hm | exact E | exact Hq].
Qed.

Lemma search_from_intro (r : regex) (t : text) (k : nat) (gs : spans) :
  forall pre prev i,
    quiet r prev pre t ->
    match_at r false (last_of pre prev) t = Some (k, gs) ->
    search_from r prev (pre ++ t) i = Some (i + length pre, k, gs).
Proof.
  induction pre as [|d b IH]; intros prev i Hq Hm.
  - cbn [app length last_of fold_left] in *. rewrite Nat.add_0_r.
    destruct t; cbn [search_from]; rewrite Hm; reflexivity.
  - cbn [quiet] in Hq. destruct Hq as [Hn Hq].
    cbn [app search_from]. rewrite Hn.
    rewrite (IH (Some d) (S i) Hq Hm). cbn [length]. f_equal. f_equal. f_equal. lia.
Qed.

Lemma any_char (c : ascii) : cls_match (CSet [SSpace; SNotSpace]) c = true.
Proof. cbn. destruct (is_space c); reflexivity. Qed.

Lemma m_items_close (ma : bool) prev (s : text) (k : nat) (st : capstate) :
  m_items [Chr (CLit "*"); Chr (CLit "/")] ma prev s k st =
  if prefixb close_mark s then Some (2 + k, st) else None.
Proof.
  change [Chr (CLit "*"); Chr (CLit "/")] with (lit_items close_mark ++ []).
  rewrite m_items_lit. destruct (prefixb close_mark s); [|reflexivity].
  cbn [m_items length close_mark str list_ascii_of_string Nat.add Nat.eqb].
  rewrite andb_false_r. reflexivity.
Qed.

Lemma m_items_lazy_unfold (a : cls) (r : list item) ma prev (s : text) k st :
  m_items (Star false a :: r) ma prev s k st =
  match m_items r ma prev s k st with
  | Some x => Some x
  | None =>
      match s with
      | c :: s' => if cls_match a c
                   then m_items (Star false a :: r) ma (Some c) s' (S k) st
                   else None
      | [] => None
      end
  end.
Proof. destruct s; reflexivity. Qed.

Lemma lazy_close (ma : bool) (st : capstate) :
  forall s prev k,
    m_items [Star false (CSet [SSpace; SNotSpace]); Chr (CLit "*"); Chr (CLit "/")]
            ma prev s k st =
    match first_close s with
    | Some j => Some (2 + (j + k), st)
    | None => None
    end.
Proof.
  induction s as [|c s IH]; intros prev k; rewrite m_items_lazy_unfold, m_items_close.
  - reflexivity.
  - cbn [first_close]. destruct (prefixb close_mark (c :: s)); [reflexivity|].
    rewrite any_char, IH. destruct (first_close s) as [j|]; [|reflexivity].
    cbn [option_map]. f_equal. f_equal. lia.
Qed.

(** A header block starts with [/*:] and runs to the first [*/] after
    it. *)
Lemma match_at_header (ma : bool) prev (s : text) :
  match_at header_block_re ma prev s =
  if prefixb open_mark s
  then match first_close (skipn 3 s) with
       | Some j => Some (3 + j + 2, [])
       | None => None
       end
  else None.
Proof.
  unfold match_at, header_block_re. cbn [items].
  change (Chr (CLit "/") :: Chr (CLit "*") :: Chr (CLit ":") :: ?r)
    with (lit_items open_mark ++ r).
  rewrite m_items_lit. destruct (prefixb open_mark s); [|reflexivity].
  rewrite lazy_close. cbn [length open_mark str list_ascii_of_string].
  destruct (first_close (skipn 3 s)) as [j|]; [|reflexivity].
  cbn [snd cap0]. f_equal. f_equal. lia.
Qed.

Lemma first_close_bound (s : text) (j : nat) : first_close s = Some j -> j + 2 <= length s.
Proof.
  revert j. induction s as [|c s IH]; intros j H; [discriminate|].
  cbn [first_close] in H. destruct (prefixb close_mark (c :: s)) eqn:E.
  - injection H as <-. apply prefixb_length in E. exact E.
  - destruct (first_close s) as [j'|]; [|discriminate]. injection H as <-.
    specialize (IH j' eq_refl). cbn [length]. lia.
Qed.

Lemma first_close_later (y w : text) :
  first_close w <> None -> first_close (y ++ w) <> None.
Proof.
  intro H. induction y as [|c y IH]; [exact H|].
  cbn [app first_close]. destruct (prefixb close_mark (c :: y ++ w)); [discriminate|].
  destruct (first_close (y ++ w)); [discriminate | exact IH].
Qed.

Lemma prefixb_app_le (p a w : text) :
  length p <= length a -> prefixb p (a ++ w) = prefixb p a.
Proof.
  revert a. induction p as [|x p IH]; intros a H; [reflexivity|].
  destruct a as [|y a]; [cbn [length] in H; lia|].
  cbn [app prefixb]. rewrite IH by (cbn [length] in H; lia). reflexivity.
Qed.

Lemma skipn_app_le {A} (n : nat) (a w : list A) :
  n <= length a -> skipn n (a ++ w) = skipn n a ++ w.
Proof.
  revert a. induction n as [|n IH]; intros a H; [reflexivity|].
  destruct a as [|y a]; [cbn [length] in H; lia|].
  cbn [app skipn]. apply IH. cbn [length] in H. lia.
Qed.

(** What comes before a header block stays quiet when the block is
    replaced by another text that starts with [/*:]. *)
Lemma quiet_transfer (x x' post : text) :
  first_close (x ++ post) <> None ->
  forall pre prev,
    quiet header_block_re prev pre ((open_mark ++ x) ++ post) ->
    quiet header_block_re prev pre ((open_mark ++ x') ++ post).
Proof.
  intros Hc. induction pre as [|d b IH]; intros prev Hq; [exact I|].
  cbn [quiet] in *. destruct Hq as [Hn Hq]. split; [|apply IH; exact Hq].
  rewrite match_at_header in *.
  assert (Hlen : length open_mark <= length (d :: b ++ open_mark))
    by (cbn [length]; rewrite length_app; cbn; lia).
  assert (H3 : 3 <= length (d :: b ++ open_mark))
    by (cbn [length]; rewrite length_app; cbn; lia).
  rewrite <- !app_assoc in *.
  change (d :: b ++ open_mark ++ ?w) with ((d :: b) ++ open_mark ++ w) in *.
  rewrite !(app_assoc (d :: b) open_mark) in *.
  rewrite prefixb_app_le in * by exact Hlen.
  destruct (prefixb open_mark ((d :: b) ++ open_mark)); [|reflexivity].
  rewrite skipn_app_le in Hn by exact H3.
  destruct (first_close (skipn 3 ((d :: b) ++ open_mark) ++ x ++ post)) eqn:E;
    [discriminate|].
  exfalso. revert E. apply first_close_later. exact Hc.
Qed.

(** *** Counting the closing marks *)

Lemma count_close_end (y : text) : 1 <= count_close (y ++ close_mark).
Proof.
  induction y as [|c y IH]; [cbn; lia|]. cbn [app count_close]. lia.
Qed.

Lemma prefixb_close_app (c d : ascii) (a w : text) :
  prefixb close_mark ((c :: d :: a) ++ w) = prefixb close_mark (c :: d :: a).
Proof. apply prefixb_app_le. cbn [length close_mark str list_ascii_of_string]. lia. Qed.

(** The block ends at its only closing mark. *)
Lemma first_close_end (y post : text) :
  count_close (y ++ close_mark) = 1 ->
  first_close ((y ++ close_mark) ++ post) = Some (length y).
Proof.
  induction y as [|c y IH]; intro H; [reflexivity|].
  cbn [app count_close] in H. pose proof (count_close_end y) as Hge.
  destruct (prefixb close_mark (c :: y ++ close_mark)) eqn:Hp; [lia|].
  cbn [Nat.add] in H. cbn [app first_close].
  replace (prefixb close_mark (c :: (y ++ close_mark) ++ post)) with false.
  - rewrite IH by exact H. reflexivity.
  - destruct y as [|d y]; [cbn; symmetry; apply andb_false_r|].
    rewrite <- Hp. symmetry. apply (prefixb_close_app c d (y ++ close_mark) post).
Qed.

Lemma first_close_count (post : text) :
  forall x j,
    first_close (x ++ post) = Some j -> j + 2 = length x ->
    (exists y, x = y ++ close_mark) /\ count_close x = 1.
Proof.
  induction x as [|c x IH]; intros j H Hl; [cbn [length] in Hl; lia|].
  cbn [app first_close] in H.
  destruct (prefixb close_mark (c :: x ++ post)) eqn:E.
  - injection H as <-. destruct x as [|d [|e x]]; cbn [length] in Hl; try lia.
    cbn [app prefixb close_mark str list_ascii_of_string] in E.
    apply andb_true_iff in E. destruct E as [E1 E].
    apply andb_true_iff in E. destruct E as [E2 _].
    apply Ascii.eqb_eq in E1, E2. subst c d. split; [exists []; reflexivity | reflexivity].
  - destruct (first_close (x ++ post)) as [j'|] eqn:E'; [|discriminate].
    injection H as <-. cbn [length] in Hl.
    destruct (IH j' eq_refl ltac:(lia)) as [[y ->] Hc]. split.
    + exists (c :: y). reflexivity.
    + cbn [count_close].
      assert (Hp : prefixb close_mark (c :: y ++ close_mark) = false).
      { destruct y as [|d y]; [cbn; apply andb_false_r|].
        rewrite <- E. symmetry.
        apply (prefixb_close_app c d (y ++ close_mark) post). }
      rewrite Hp, Hc. reflexivity.
Qed.

Lemma count_close_app (a b : text) :
  not_slash b = true -> count_close (a ++ b) = count_close a + count_close b.
Proof.
  intro Hb. induction a as [|c a IH]; [reflexivity|].
  cbn [app count_close]. rewrite IH.
  enough (prefixb close_mark (c :: a ++ b) = prefixb close_mark (c :: a)) as -> by lia.
  destruct a as [|d a].
  - cbn [app prefixb close_mark str list_ascii_of_string].
    destruct b as [|e b]; [reflexivity|].
    cbn [not_slash] in Hb. apply negb_true_iff in Hb.
    rewrite (Ascii.eqb_sym "/" e), Hb. reflexivity.
  - apply (prefixb_close_app c d a b).
Qed.

Lemma linebreak_plain (c : ascii) :
  is_linebreak c = true -> Ascii.eqb c "/" = false /\ Ascii.eqb c "*" = false.
Proof.
  intro H. split; apply not_true_is_false; intro E; apply Ascii.eqb_eq in E;
    subst c; discriminate H.
Qed.

Lemma count_close_cons (c : ascii) (s : text) :
  Ascii.eqb c "*" = false -> count_close (c :: s) = count_close s.
Proof.
  intro H. cbn [count_close prefixb close_mark str list_ascii_of_string].
  rewrite (Ascii.eqb_sym "*" c), H. reflexivity.
Qed.

Lemma count_splitlines :
  forall s cur, sum_close (splitlines_from cur s) = count_close (rev cur ++ s).
Proof.
  unfold sum_close.
  induction s as [|c s IH]; intro cur.
  - cbn [splitlines_from]. rewrite app_nil_r. destruct cur as [|x cur]; [reflexivity|].
    unfold list_sum. cbn [map fold_right]. lia.
  - cbn [splitlines_from]. destruct (is_linebreak c) eqn:El.
    + destruct (linebreak_plain c El) as [Hs Ha].
      rewrite count_close_app by (cbn [not_slash]; rewrite Hs; reflexivity).
      rewrite (count_close_cons c s Ha).
      assert (Hsame : forall t, list_sum (map count_close (rev cur :: t))
                                = count_close (rev cur) + list_sum (map count_close t))
        by reflexivity.
      destruct (Ascii.eqb c cr); [destruct s as [|d s']|].
      * rewrite Hsame, IH. reflexivity.
      * destruct (Ascii.eqb_spec d nl) as [->|].
        -- rewrite Hsame. specialize (IH []).
           change (splitlines_from [] (nl :: s')) with ([] :: splitlines_from [] s') in IH.
           cbn [rev app map] in IH. rewrite (count_close_cons nl s' eq_refl) in IH |- *.
           rewrite <- IH. reflexivity.
        -- rewrite Hsame, IH. reflexivity.
      * rewrite Hsame, IH. reflexivity.
    + rewrite IH. cbn [rev]. rewrite <- app_assoc. reflexivity.
Qed.

(** *** Lines *)

Lemma join_cons2 (sep p q : text) (rest : list text) :
  join sep (p :: q :: rest) = p ++ sep ++ join sep (q :: rest).
Proof. reflexivity. Qed.

Lemma count_join (lines : list text) : sum_close lines = count_close (join [nl] lines).
Proof.
  unfold sum_close. induction lines as [|p [|q rest] IH].
  - reflexivity.
  - unfold list_sum. cbn [map fold_right join]. lia.
  - rewrite join_cons2. cbn [app].
    rewrite count_close_app by reflexivity.
    rewrite (count_close_cons nl _ eq_refl), <- IH. reflexivity.
Qed.

Lemma join_last (sep l : text) (lines : list text) :
  exists p, join sep (lines ++ [l]) = p ++ l.
Proof.
  induction lines as [|q lines [p IH]].
  - exists []. reflexivity.
  - destruct lines as [|q' lines].
    + exists (q ++ sep). cbn [app join]. rewrite <- app_assoc. reflexivity.
    + exists (q ++ sep ++ p). cbn [app] in *. rewrite join_cons2, IH, <- !app_assoc.
      reflexivity.
Qed.

Lemma splitlines_from_hd :
  forall s cur, cur <> [] -> exists t more, splitlines_from cur s = (rev cur ++ t) :: more.
Proof.
  induction s as [|c s IH]; intros cur Hne.
  - exists [], []. cbn [splitlines_from]. rewrite app_nil_r.
    destruct cur; [congruence | reflexivity].
  - cbn [splitlines_from]. destruct (is_linebreak c).
    + exists []. rewrite app_nil_r. eexists. reflexivity.
    + destruct (IH (c :: cur) ltac:(discriminate)) as (t & more & ->).
      exists (c :: t), more. cbn [rev]. rewrite <- app_assoc. reflexivity.
Qed.

Lemma ends_close_after (c : ascii) (s : text) :
  Ascii.eqb c "/" = false -> Ascii.eqb c "*" = false ->
  forall a, (exists y, a ++ c :: s = y ++ close_mark) -> exists y, s = y ++ close_mark.
Proof.
  intros Hs Ha. induction a as [|x a IH]; intros [y Hy].
  - destruct y as [|y0 y]; cbn [app] in Hy.
    + injection Hy as -> _. discriminate Ha.
    + injection Hy as _ ->. exists y. reflexivity.
  - destruct y as [|y0 y]; cbn [app] in Hy.
    + injection Hy as _ Hy. destruct a as [|x' a]; cbn [app] in Hy.
      * injection Hy as -> _. discriminate Hs.
      * injection Hy as _ Hy. destruct a; discriminate Hy.
    + injection Hy as _ Hy. apply IH. exists y. exact Hy.
Qed.

(** The last line of a text that ends with the closing mark ends with
    it. *)
Lemma splitlines_last :
  forall s cur,
    (exists y, rev cur ++ s = y ++ close_mark) ->
    exists lines l, splitlines_from cur s = lines ++ [l ++ close_mark].
Proof.
  induction s as [|c s IH]; intros cur [y Hy].
  - rewrite app_nil_r in Hy. cbn [splitlines_from].
    destruct cur as [|x cur].
    + destruct y; discriminate Hy.
    + exists [], y. rewrite Hy. reflexivity.
  - cbn [splitlines_from]. destruct (is_linebreak c) eqn:El.
    + destruct (linebreak_plain c El) as [Hs Ha].
      pose proof (ends_close_after c s Hs Ha (rev cur) (ex_intro _ y Hy)) as Hend.
      destruct (Ascii.eqb c cr); [destruct s as [|d s']|].
      * destruct (IH [] Hend) as (lines & l & ->). exists (rev cur :: lines), l. reflexivity.
      * destruct (Ascii.eqb_spec d nl) as [->|].
        -- assert (Hend' : exists y', s' = y' ++ close_mark)
             by (apply (ends_close_after nl s' eq_refl eq_refl []); exact Hend).
           specialize (IH [] Hend).
           change (splitlines_from [] (nl :: s')) with ([] :: splitlines_from [] s') in IH.
           destruct IH as (lines & l & IH). destruct lines as [|l0 lines].
           ++ destruct Hend' as [y' ->]. cbn [app] in IH. injection IH as Hnil _.
              destruct l; discriminate Hnil.
           ++ cbn [app] in IH. injection IH as _ ->.
              exists (rev cur :: lines), l. reflexivity.
        -- destruct (IH [] Hend) as (lines & l & ->). exists (rev cur :: lines), l. reflexivity.
      * destruct (IH [] Hend) as (lines & l & ->). exists (rev cur :: lines), l. reflexivity.
    + apply IH. exists y. cbn [rev]. rewrite <- app_assoc. exact Hy.
Qed.

(** *** Containment *)

Lemma prefixb_app_l (n a b : text) : prefixb n a = true -> prefixb n (a ++ b) = true.
Proof.
  revert a. induction n as [|x n IH]; intros a H; [reflexivity|].
  destruct a as [|y a]; [discriminate|]. cbn [app prefixb] in *.
  apply andb_true_iff in H. destruct H as [-> H]. apply IH. exact H.
Qed.

Lemma contains_app_l (n a b : text) : contains n a = true -> contains n (a ++ b) = true.
Proof.
  induction a as [|c a IH]; intro H.
  - cbn [contains] in H. rewrite orb_false_r in H.
    destruct n; [|discriminate]. destruct b; reflexivity.
  - cbn [app contains] in *. apply orb_true_iff in H. destruct H as [H|H].
    + pose proof (prefixb_app_l n (c :: a) b H) as Hp. cbn [app] in Hp.
      rewrite Hp. reflexivity.
    + rewrite (IH H). apply orb_true_r.
Qed.

Lemma contains_app_r (n a b : text) : contains n b = true -> contains n (a ++ b) = true.
Proof.
  intro H. induction a as [|c a IH]; [exact H|].
  cbn [app contains]. rewrite IH. apply orb_true_r.
Qed.

(** *** Lines without line breaks *)

Lemma plain_app (a b : text) : plain (a ++ b) = plain a && plain b.
Proof. unfold plain. apply forallb_app. Qed.

Lemma plain_rev (l : text) : plain (rev l) = plain l.
Proof.
  induction l as [|c l IH]; [reflexivity|].
  cbn [rev]. rewrite plain_app, IH. cbn [plain forallb]. rewrite andb_true_r. apply andb_comm.
Qed.

Lemma splitlines_plain :
  forall s cur, plain cur = true -> forallb plain (splitlines_from cur s) = true.
Proof.
  induction s as [|c s IH]; intros cur Hc.
  - cbn [splitlines_from]. destruct cur; [reflexivity|].
    cbn [forallb]. rewrite plain_rev, Hc. reflexivity.
  - cbn [splitlines_from]. destruct (is_linebreak c) eqn:El.
    + cbn [forallb]. rewrite plain_rev, Hc. cbn [andb].
      destruct (Ascii.eqb c cr); [destruct s as [|d s']|]; try (apply IH; reflexivity).
      destruct (Ascii.eqb_spec d nl) as [->|]; [|apply IH; reflexivity].
      specialize (IH [] eq_refl).
      change (splitlines_from [] (nl :: s')) with ([] :: splitlines_from [] s') in IH.
      exact IH.
    + apply IH. cbn [plain forallb]. rewrite El. exact Hc.
Qed.

Lemma splitlines_from_line (l s : text) :
  plain l = true ->
  forall cur, splitlines_from cur (l ++ s) = splitlines_from (rev l ++ cur) s.
Proof.
  induction l as [|c l IH]; intros Hl cur; [reflexivity|].
  cbn [plain forallb] in Hl. apply andb_true_iff in Hl. destruct Hl as [Hc Hl].
  apply negb_true_iff in Hc.
  cbn [app splitlines_from]. rewrite Hc, IH by exact Hl.
  cbn [rev]. rewrite <- app_assoc. reflexivity.
Qed.

(** Splitting the joined lines gives the lines back. *)
Lemma splitlines_join (lines : list text) :
  forallb plain lines = true -> last lines [] <> [] ->
  splitlines (join [nl] lines) = lines.
Proof.
  unfold splitlines. induction lines as [|l [|q rest] IH]; intros Hp Hl.
  - cbn in Hl. congruence.
  - cbn [forallb] in Hp. apply andb_true_iff in Hp. destruct Hp as [Hp _].
    cbn [join last] in *. rewrite <- (app_nil_r l) at 1.
    rewrite splitlines_from_line by exact Hp. rewrite app_nil_r. cbn [splitlines_from].
    destruct (rev l) eqn:E.
    + apply (f_equal (@rev ascii)) in E. rewrite rev_involutive in E. cbn in E. congruence.
    + rewrite <- E, rev_involutive. reflexivity.
  - cbn [forallb] in Hp. apply andb_true_iff in Hp. destruct Hp as [Hp Hp'].
    rewrite join_cons2, splitlines_from_line by exact Hp.
    rewrite app_nil_r. cbn [app]. 
    change (splitlines_from (rev l) (nl :: join [nl] (q :: rest)))
      with (rev (rev l) :: splitlines_from [] (join [nl] (q :: rest))).
    rewrite rev_involutive, IH; [reflexivity | exact Hp' | exact Hl].
Qed.

(** *** The block found, and the block put back *)

Lemma count_close_open (x : text) : count_close (open_mark ++ x) = count_close x.
Proof. reflexivity. Qed.

Lemma header_block_found (source : text) (start len : nat) (gs : spans) :
  re_search header_block_re source = Some (start, len, gs) ->
  exists pre x post,
    source = pre ++ (open_mark ++ x) ++ post /\
    start = length pre /\ len = length (open_mark ++ x) /\ gs = [] /\
    (exists y, x = y ++ close_mark) /\ count_close x = 1 /\
    first_close (x ++ post) <> None /\
    quiet header_block_re None pre ((open_mark ++ x) ++ post).
Proof.
  unfold re_search. intro H. apply search_from_elim in H.
  destruct H as (pre & t & -> & -> & Hm & Hq). rewrite match_at_header in Hm.
  destruct (prefixb open_mark t) eqn:Ep; [|discriminate].
  apply prefixb_true in Ep.
  change (length open_mark) with 3 in Ep.
  destruct (first_close (skipn 3 t)) as [j|] eqn:Ec; [|discriminate].
  injection Hm as <- <-.
  pose proof (first_close_bound _ _ Ec) as Hb.
  set (w := skipn 3 t) in *.
  assert (Hw : w = firstn (j + 2) w ++ skipn (j + 2) w) by (symmetry; apply firstn_skipn).
  set (x := firstn (j + 2) w) in *. set (post := skipn (j + 2) w) in *.
  assert (Hx : length x = j + 2) by (unfold x; apply firstn_length_le; exact Hb).
  rewrite Hw in Ec.
  destruct (first_close_count post x j Ec ltac:(lia)) as [Hy Hc].
  exists pre, x, post.
  assert (Ht : t = (open_mark ++ x) ++ post) by (rewrite <- app_assoc, <- Hw; exact Ep).
  rewrite <- Ht. repeat split; try assumption.
  - rewrite length_app, Hx. cbn [length open_mark str list_ascii_of_string]. lia.
  - rewrite Ec. discriminate.
Qed.

Lemma header_block_intro (pre y post : text) :
  quiet header_block_re None pre ((open_mark ++ y ++ close_mark) ++ post) ->
  count_close (y ++ close_mark) = 1 ->
  re_search header_block_re (pre ++ (open_mark ++ y ++ close_mark) ++ post)
  = Some (length pre, length (open_mark ++ y ++ close_mark), []).
Proof.
  intros Hq Hc. unfold re_search.
  apply (search_from_intro header_block_re _ _ _ pre None 0 Hq).
  rewrite match_at_header.
  rewrite <- app_assoc. rewrite prefixb_app.
  change (skipn 3 (open_mark ++ ?w)) with w.
  rewrite first_close_end by exact Hc.
  f_equal. f_equal. f_equal. rewrite !length_app.
  cbn [length open_mark close_mark str list_ascii_of_string]. lia.
Qed.

Lemma marker_has_target : contains (str "@target") target_marker = true.
Proof. reflexivity. Qed.

Lemma cons_app_inv {A} (a b : A) (l lines : list A) (z : A) :
  lines ++ [z] = a :: b :: l -> exists lines', lines = a :: lines' /\ b :: l = lines' ++ [z].
Proof.
  intro H. destruct lines as [|x lines]; [discriminate H|].
  cbn [app] in H. injection H as -> H. exists lines. auto.
Qed.

(** The header with its marker line, for a block of more than one
    line: it is a block again, with the one closing mark at its end. *)
Lemma add_target_mz_block (x : text) :
  (exists y, x = y ++ close_mark) -> count_close x = 1 ->
  contains (str "@target") (open_mark ++ x) = false ->
  1 < length (splitlines (open_mark ++ x)) ->
  exists first rest y',
    splitlines (open_mark ++ x) = first :: rest /\
    add_target_mz (open_mark ++ x) = join [nl] (first :: target_marker :: rest) /\
    splitlines (join [nl] (first :: target_marker :: rest)) = first :: target_marker :: rest /\
    join [nl] (first :: target_marker :: rest) = open_mark ++ y' ++ close_mark /\
    count_close (y' ++ close_mark) = 1 /\
    add_target_mz (open_mark ++ x) <> open_mark ++ x.
Proof.
  intros [y Hy] Hc Hno Hlen.
  set (header := open_mark ++ x) in *.
  destruct (splitlines header) as [|l0 [|l1 rest]] eqn:El; cbn [length] in Hlen; try lia.
  (* the first line *)
  assert (H0 : exists t0, l0 = open_mark ++ t0).
  { assert (Hs : splitlines header = splitlines_from (rev open_mark) x) by reflexivity.
    destruct (splitlines_from_hd x (rev open_mark) ltac:(discriminate)) as (t0 & more & Hhd).
    rewrite Hs, Hhd in El. injection El as <- _. exists t0. reflexivity. }
  destruct H0 as [t0 ->].
  (* the last line *)
  assert (Hl : exists lines l, splitlines header = lines ++ [l ++ close_mark]).
  { apply splitlines_last. exists (open_mark ++ y). cbn [rev app]. unfold header.
    rewrite Hy, <- app_assoc. reflexivity. }
  destruct Hl as (lines & l & Hl). rewrite El in Hl. symmetry in Hl.
  apply cons_app_inv in Hl. destruct Hl as (lines' & -> & Hrest).
  destruct (join_last [nl] (l ++ close_mark) lines') as [p Hp]. rewrite <- Hrest in Hp.
  (* the new header *)
  assert (Hnew : add_target_mz header
                 = join [nl] ((open_mark ++ t0) :: target_marker :: l1 :: rest)).
  { unfold add_target_mz. rewrite Hno, El. reflexivity. }
  assert (Hshape : join [nl] ((open_mark ++ t0) :: target_marker :: l1 :: rest)
                   = open_mark ++ (t0 ++ nl :: target_marker ++ nl :: p ++ l) ++ close_mark).
  { rewrite !join_cons2, Hp. reassoc. reflexivity. }
  assert (Hsum : sum_close (splitlines header) = 1).
  { unfold splitlines. rewrite count_splitlines. cbn [rev app].
    unfold header. rewrite count_close_open. exact Hc. }
  rewrite El in Hsum.
  assert (Hcount : count_close (join [nl] ((open_mark ++ t0) :: target_marker :: l1 :: rest)) = 1).
  { rewrite <- count_join. rewrite <- Hsum. reflexivity. }
  assert (Hplain : forallb plain (splitlines header) = true)
    by (apply splitlines_plain; reflexivity).
  rewrite El in Hplain.
  exists (open_mark ++ t0), (l1 :: rest), (t0 ++ nl :: target_marker ++ nl :: p ++ l).
  split; [reflexivity|]. split; [exact Hnew|]. split; [|split; [exact Hshape|split]].
  - apply splitlines_join.
    + cbn [forallb] in *. apply andb_true_iff in Hplain. destruct Hplain as [-> ->].
      reflexivity.
    + change (last ((open_mark ++ t0) :: target_marker :: l1 :: rest) [])
        with (last (l1 :: rest) []).
      rewrite Hrest, last_last. destruct l; discriminate.
  - rewrite <- count_close_open, <- Hshape. exact Hcount.
  - rewrite Hnew. intro Heq.
    assert (Hin : contains (str "@target")
                           (join [nl] ((open_mark ++ t0) :: target_marker :: l1 :: rest)) = true).
    { rewrite !join_cons2. apply contains_app_r. apply contains_app_r.
      apply contains_app_l. exact marker_has_target. }
    rewrite Heq, Hno in Hin. discriminate.
Qed.

(** The header stage where it works.  When the first header block has
    no [@target] directive and more than one line, the stage adds the
    one line [ * @target MZ] right after the block's first line and
    puts the block back where it stood; the new block is the first
    header block of the result, with the same delimiters and the old
    lines plus the marker line, and the report of [convert_text] starts
    with the header entry.  Without a header block, or with a directive
    in it, the stage returns the source as it is and the report has no
    header entry. *)
Theorem header_marker_inserted :
  (forall source keep start len gs,
      re_search header_block_re source = Some (start, len, gs) ->
      contains (str "@target") (firstn len (skipn start source)) = false ->
      1 < length (splitlines (firstn len (skipn start source))) ->
      exists first rest new_header,
        splitlines (firstn len (skipn start source)) = first :: rest /\
        new_header = join [nl] (first :: target_marker :: rest) /\
        splitlines new_header = first :: target_marker :: rest /\
        eval (ensure_header_has_target_mz source)
        = Some (firstn start source ++ new_header ++ skipn (start + len) source, true) /\
        re_search header_block_re
                  (firstn start source ++ new_header ++ skipn (start + len) source)
        = Some (start, length new_header, []) /\
        prefixb open_mark new_header = true /\
        (exists y, new_header = y ++ close_mark) /\
        exists out report,
          eval (convert_text source keep) = Some (out, header_change :: report)) /\
  (forall source keep,
      re_search header_block_re source = None ->
      eval (ensure_header_has_target_mz source) = Some (source, false) /\
      exists out report,
        eval (convert_text source keep) = Some (out, report) /\
        existsb (text_eqb header_change) report = false) /\
  (forall source keep start len gs,
      re_search header_block_re source = Some (start, len, gs) ->
      contains (str "@target") (firstn len (skipn start source)) = true ->
      eval (ensure_header_has_target_mz source) = Some (source, false) /\
      exists out report,
        eval (convert_text source keep) = Some (out, report) /\
        existsb (text_eqb header_change) report = false).
Proof.
  split; [|split].
  - intros source keep start len gs Hs Hno Hlen.
    destruct (header_block_found source start len gs Hs)
      as (pre & x & post & Hsrc & -> & -> & -> & Hy & Hc & Hfc & Hq).
    assert (Hhead : firstn (length (open_mark ++ x)) (skipn (length pre) source)
                    = open_mark ++ x).
    { rewrite Hsrc, skipn_app_length. apply firstn_app_length. }
    assert (Hpre : firstn (length pre) source = pre)
      by (rewrite Hsrc; apply firstn_app_length).
    assert (Hpost : skipn (length pre + length (open_mark ++ x)) source = post).
    { rewrite Hsrc, app_assoc, <- length_app. apply skipn_app_length. }
    rewrite Hhead in *. rewrite Hpre, Hpost.
    destruct (add_target_mz_block x Hy Hc Hno Hlen)
      as (first & rest & y' & Hl & Hnew & Hsplit & Hshape & Hc' & Hneq).
    exists first, rest, (join [nl] (first :: target_marker :: rest)).
    assert (Hstage : header_stage source
                     = (pre ++ join [nl] (first :: target_marker :: rest) ++ post, true)).
    { unfold header_stage. rewrite Hs. cbv zeta. rewrite Hhead, Hpre, Hpost.
      destruct (text_eqb (add_target_mz (open_mark ++ x)) (open_mark ++ x)) eqn:E.
      - apply text_eqb_eq in E. contradiction.
      - rewrite Hnew. reflexivity. }
    split; [exact Hl|]. split; [reflexivity|]. split; [exact Hsplit|].
    split; [unfold eval; rewrite ensure_header_run; cbn [fst]; rewrite Hstage; reflexivity|].
    split.
    { rewrite Hshape. rewrite (app_assoc open_mark y' close_mark).
      rewrite <- (app_assoc open_mark y' close_mark).
      apply header_block_intro; [|exact Hc'].
      rewrite app_assoc. apply (quiet_transfer x (y' ++ close_mark) post Hfc). exact Hq. }
    split; [rewrite Hshape; apply prefixb_app|].
    split; [exists (open_mark ++ y'); rewrite Hshape, <- app_assoc; reflexivity|].
    rewrite eval_convert_text. unfold convert_stages. rewrite Hstage.
    destruct (migrate_stage_total
                (pre ++ join [nl] (first :: target_marker :: rest) ++ post) [])
      as [[s2 c2] ->].
    destruct (colors_stage_total s2 keep) as [[s3 c3] ->].
    destruct (annotate_stage_total s3 []) as [[s4 c4] ->].
    exists s4, ((c2 ++ c3) ++ c4). reflexivity.
  - intros source keep Hs.
    assert (Hh : header_stage source = (source, false))
      by (unfold header_stage; rewrite Hs; reflexivity).
    split; [unfold eval; rewrite ensure_header_run; cbn [fst]; rewrite Hh; reflexivity|].
    apply report_without_header. exact Hh.
  - intros source keep start len gs Hs Hc.
    assert (Hh : header_stage source = (source, false)).
    { unfold header_stage. rewrite Hs. cbv zeta. unfold add_target_mz. rewrite Hc.
      rewrite text_eqb_refl. reflexivity. }
    split; [unfold eval; rewrite ensure_header_run; cbn [fst]; rewrite Hh; reflexivity|].
    apply report_without_header. exact Hh.
Qed.

(** ** Annotation: insertion before every occurrence *)

Lemma one_of_false (l : text) (a d : ascii) : one_of l a = false -> In d l -> d <> a.
Proof.
  unfold one_of. intros H Hin ->.
  assert (existsb (Ascii.eqb a) l = true)
    by (apply existsb_exists; exists a; split; [exact Hin | apply Ascii.eqb_refl]).
  congruence.
Qed.

Lemma occ_head (a d : ascii) (l : text) (prev : option ascii) (s : text) :
  d <> a -> occ (a :: l) prev (d :: s) = false.
Proof.
  intro H. unfold occ. cbn [prefixb].
  destruct (Ascii.eqb_spec a d) as [->|]; [congruence|].
  cbn [andb]. rewrite andb_false_r. reflexivity.
Qed.

Lemma insert_before_pass (a : ascii) (l note u rest : text) :
  (forall d, In d u -> d <> a) ->
  forall prev,
    insert_before_occurrences (a :: l) note prev (u ++ rest)
    = u ++ insert_before_occurrences (a :: l) note (last_of u prev) rest.
Proof.
  induction u as [|d u IH]; intros Hu prev.
  - reflexivity.
  - cbn [app insert_before_occurrences].
    rewrite occ_head by (apply Hu; left; reflexivity).
    cbn [app]. rewrite IH by (intros x Hx; apply Hu; right; exact Hx).
    reflexivity.
Qed.

Lemma regex_hit_word (lit : text) (f : text -> spans -> text) (prev : option ascii) (s : text) :
  lit <> [] ->
  regex_hit (word_pattern lit) f prev s =
  if occ lit prev s then Some (length lit, f lit []) else None.
Proof.
  intro Hne. unfold regex_hit. rewrite match_at_word_pattern by exact Hne.
  destruct (occ lit prev s) eqn:E; [|reflexivity].
  unfold occ in E. apply andb_true_iff in E. destruct E as [E _].
  apply andb_true_iff in E. destruct E as [_ E].
  rewrite (prefixb_firstn _ _ E). reflexivity.
Qed.

(** Strong induction on the length of a text. *)
Lemma text_length_ind (P : text -> Prop) :
  (forall s, (forall t, length t < length s -> P t) -> P s) -> forall s, P s.
Proof.
  intros H s. remember (length s) as n eqn:E. revert s E.
  induction n as [n IH] using lt_wf_ind. intros s ->.
  apply H. intros t Ht. apply (IH (length t) Ht t eq_refl).
Qed.

Lemma sub_word_inserts (lit note : text) :
  no_self_overlap lit = true ->
  forall s prev,
    fst (sub_scan (word_pattern lit) (fun m gs => note ++ group_text m gs 0) prev s 0)
    = insert_before_occurrences lit note prev s.
Proof.
  intros Hno.
  destruct lit as [|a l]; [discriminate|].
  assert (Hne : a :: l <> []) by discriminate.
  cbn [no_self_overlap] in Hno. apply negb_true_iff in Hno.
  intros s prev. rewrite sub_scan_text by (apply never_empty_word_pattern; exact Hne).
  revert prev. induction s as [s IH] using text_length_ind. intro prev.
  destruct s as [|c s]; [reflexivity|].
  destruct (occ (a :: l) prev (c :: s)) eqn:E.
  - pose proof (occ_prefix _ _ _ E) as Hs.
    set (rest := skipn (length (a :: l)) (c :: s)) in *.
    rewrite Hs.
    rewrite scan_with_hit with (rep := note ++ a :: l).
    2: exact Hne.
    2:{ rewrite regex_hit_word by exact Hne. rewrite <- Hs, E. reflexivity. }
    rewrite IH.
    2:{ apply (f_equal (@length ascii)) in Hs. rewrite length_app in Hs.
        cbn [length] in *. lia. }
    cbn [app insert_before_occurrences].
    change (a :: l ++ rest) with ((a :: l) ++ rest). rewrite <- Hs, E.
    rewrite insert_before_pass by (intros d Hd; eapply one_of_false; eassumption).
    rewrite <- app_assoc. reflexivity.
  - rewrite scan_with_miss by (rewrite regex_hit_word by exact Hne; rewrite E; reflexivity).
    cbn [insert_before_occurrences]. rewrite E. cbn [app].
    rewrite IH by (cbn [length]; lia). reflexivity.
Qed.

Lemma insert_before_none (lit note : text) :
  forall s prev, count_occurrences lit prev s = 0 -> insert_before_occurrences lit note prev s = s.
Proof.
  induction s as [|c s IH]; intros prev H; [reflexivity|].
  cbn [count_occurrences insert_before_occurrences] in *.
  destruct (occ lit prev (c :: s)); [discriminate|].
  cbn [app]. rewrite IH by exact H. reflexivity.
Qed.

Lemma count_occurrences_at (lit : text) (a t : text) :
  lit <> [] ->
  forall prev, occ lit (last_of a prev) t = true -> 1 <= count_occurrences lit prev (a ++ t).
Proof.
  intro Hne. induction a as [|d a IH]; intros prev H.
  - cbn [app last_of fold_left] in *. destruct t as [|c t].
    + rewrite occ_nil in H by exact Hne. discriminate.
    + cbn [count_occurrences]. rewrite H. lia.
  - cbn [app count_occurrences]. specialize (IH (Some d) H). lia.
Qed.

Lemma insert_before_single (lit note : text) :
  no_self_overlap lit = true ->
  forall a b prev,
    occ lit (last_of a prev) (lit ++ b) = true ->
    count_occurrences lit prev (a ++ lit ++ b) = 1 ->
    insert_before_occurrences lit note prev (a ++ lit ++ b) = a ++ note ++ lit ++ b.
Proof.
  intro Hno. assert (Hne : lit <> []) by (destruct lit; [discriminate | congruence]).
  induction a as [|d a IH]; intros b prev Ho Hc.
  - cbn [app last_of fold_left] in *.
    destruct lit as [|x l]; [congruence|].
    cbn [app count_occurrences insert_before_occurrences] in *.
    change (x :: l ++ b) with ((x :: l) ++ b) in *. rewrite Ho in *.
    rewrite insert_before_none by lia. reflexivity.
  - cbn [app count_occurrences insert_before_occurrences] in *.
    pose proof (count_occurrences_at lit a (lit ++ b) Hne (Some d) Ho) as Hge.
    destruct (occ lit prev (d :: a ++ lit ++ b)); [lia|].
    cbn [app]. rewrite IH; [reflexivity | exact Ho | lia].
Qed.

Lemma plugin_command_no_self_overlap : no_self_overlap plugin_command = true.
Proof. reflexivity. Qed.

Lemma annotate_steps (s : text) :
  fold_opt annotate_step signs_catalog (s, [])
  = Some (insert_before_occurrences plugin_command todo None s,
          if occurs plugin_command None s then [annotated_change] else []).
Proof.
  assert (Hne : plugin_command <> []) by discriminate.
  cbn [fst fold_opt signs_catalog].
  unfold annotate_step. rewrite sign_compiles. cbn [fst snd].
  unfold re_search. rewrite search_word_pattern by exact Hne.
  destruct (occurs plugin_command None s) eqn:E.
  - rewrite sub_word_inserts by exact plugin_command_no_self_overlap. reflexivity.
  - rewrite insert_before_none; [reflexivity|].
    revert E. generalize (@None ascii).
    induction s as [|c s IH]; intros prev E; [reflexivity|].
    cbn [occurs count_occurrences] in *. apply orb_false_iff in E. destruct E as [E1 E2].
    rewrite E1. cbn [Nat.add]. apply IH. exact E2.
Qed.

(** C5. The annotation stage puts the fixed annotation text in front of
    every occurrence of the plugin command hook and copies every
    character of the source, the occurrences included; it reports one
    line when there is at least one occurrence, however many there are,
    and none otherwise.  In particular a source with exactly one
    occurrence comes back with one annotation block right before it.
    The annotation is an empty line end followed by three comment
    lines, each closed by a line feed; it does not hold the hook
    itself.  A source that is one assignment to the hook comes back
    with the three comment lines before the assignment. *)
Theorem annotation_inserts_before_each_occurrence (source : text) :
  eval (annotate_plugin_command_todos source)
  = Some (insert_before_occurrences plugin_command todo None source,
          if occurs plugin_command None source then [annotated_change] else []) /\
  (forall a b,
      source = a ++ plugin_command ++ b ->
      occ plugin_command (last_of a None) (plugin_command ++ b) = true ->
      count_occurrences plugin_command None source = 1 ->
      eval (annotate_plugin_command_todos source)
      = Some (a ++ todo ++ plugin_command ++ b, [annotated_change])) /\
  splitlines todo
  = [ [];
      str "// [MZ TODO] Detected MV-style pluginCommand. In MZ, migrate to:";
      str "// PluginManager.registerCommand(pluginName, command, handler)";
      str "// and use @command/@arg annotations in the header." ] /\
  hd_error todo = Some nl /\ last_of todo None = Some nl /\
  lf_only todo = true /\
  occurs plugin_command None todo = false /\
  eval (annotate_plugin_command_todos
          (str "Game_Interpreter.prototype.pluginCommand = function(command, args) {};"))
  = Some (nl :: str "// [MZ TODO] Detected MV-style pluginCommand. In MZ, migrate to:" ++
          nl :: str "// PluginManager.registerCommand(pluginName, command, handler)" ++
          nl :: str "// and use @command/@arg annotations in the header." ++
          nl :: str "Game_Interpreter.prototype.pluginCommand = function(command, args) {};",
          [str "Annotated MV pluginCommand for manual conversion."]).
Proof.
  assert (Hrun : eval (annotate_plugin_command_todos source)
                 = Some (insert_before_occurrences plugin_command todo None source,
                         if occurs plugin_command None source then [annotated_change] else [])).
  { unfold eval. rewrite annotate_run. cbn [fst]. apply annotate_steps. }
  split; [exact Hrun|].
  split; [|repeat split; reflexivity].
  intros a b Hs Ho Hc. rewrite Hrun. subst source.
  rewrite insert_before_single by (try exact plugin_command_no_self_overlap; assumption).
  assert (Hocc : occurs plugin_command None (a ++ plugin_command ++ b) = true).
  { clear Hc Hrun. revert Ho. generalize (@None ascii).
    induction a as [|d a IH]; intros prev Ho.
    - cbn [app last_of fold_left] in *.
      change (plugin_command ++ b) with (hd "G" plugin_command :: tl plugin_command ++ b) in *.
      cbn [occurs]. rewrite Ho. reflexivity.
    - cbn [app occurs]. rewrite (IH (Some d) Ho). apply orb_true_r. }
  rewrite Hocc. reflexivity.
Qed.

Lemma annotation_inserts_before_each_occurrence_witness :
  eval (annotate_plugin_command_todos
          (str "x = 1;" ++ str "Game_Interpreter.prototype.pluginCommand" ++ str " = f;"))
  = Some (str "x = 1;" ++
          nl :: str "// [MZ TODO] Detected MV-style pluginCommand. In MZ, migrate to:" ++
          nl :: str "// PluginManager.registerCommand(pluginName, command, handler)" ++
          nl :: str "// and use @command/@arg annotations in the header." ++
          nl :: str "Game_Interpreter.prototype.pluginCommand" ++ str " = f;",
          [str "Annotated MV pluginCommand for manual conversion."]).
Proof.
  refine (proj1 (proj2 (annotation_inserts_before_each_occurrence
                          (str "x = 1;" ++ plugin_command ++ str " = f;")))
                (str "x = 1;") (str " = f;") _ _ _); reflexivity.
Defined.

(** ** What a match looks like *)

Lemma m_items_chr (a : cls) (r : list item) ma prev s k st x :
  m_items (Chr a :: r) ma prev s k st = Some x ->
  exists c s', s = c :: s' /\ cls_match a c = true /\ m_items r ma (Some c) s' (S k) st = Some x.
Proof.
  cbn [m_items]. destruct s as [|c s']; [discriminate|].
  destruct (cls_match a c) eqn:E; [|discriminate].
  intro H. exists c, s'. auto.
Qed.

Lemma m_items_star (g : bool) (a : cls) (r : list item) ma st x :
  forall s prev k,
    m_items (Star g a :: r) ma prev s k st = Some x ->
    exists u rest,
      s = u ++ rest /\ forallb (cls_match a) u = true /\
      m_items r ma (last_of u prev) rest (length u + k) st = Some x.
Proof.
  induction s as [|c s IH]; intros prev k H.
  - exists [], []. repeat split. destruct g; cbn [m_items] in H.
    + exact H.
    + cbn [last_of fold_left length Nat.add].
      destruct (m_items r ma prev [] k st); [exact H | discriminate].
  - destruct g.
    + cbn [m_items] in H. destruct (cls_match a c) eqn:E.
      * match type of H with
        | match ?t with _ => _ end = _ =>
            change t with (m_items (Star true a :: r) ma (Some c) s (S k) st) in H
        end.
        destruct (m_items (Star true a :: r) ma (Some c) s (S k) st) as [y|] eqn:Es.
        -- rewrite H in Es. apply IH in Es. destruct Es as (u & rest & -> & Hu & Hm).
           exists (c :: u), rest. cbn [forallb app length]. rewrite E, Hu.
           rewrite Nat.add_succ_r in Hm. repeat split. exact Hm.
        -- exists [], (c :: s). repeat split. exact H.
      * exists [], (c :: s). repeat split. exact H.
    + cbn [m_items] in H.
      destruct (m_items r ma prev (c :: s) k st) as [y|] eqn:Er.
      * exists [], (c :: s). rewrite <- H. repeat split. exact Er.
      * destruct (cls_match a c) eqn:E; [|discriminate].
        match type of H with
        | ?t = _ => change t with (m_items (Star false a :: r) ma (Some c) s (S k) st) in H
        end.
        apply IH in H. destruct H as (u & rest & -> & Hu & Hm).
        exists (c :: u), rest. cbn [forallb app length]. rewrite E, Hu.
        rewrite Nat.add_succ_r in Hm. repeat split. exact Hm.
Qed.

(** ** The successive matches of a substitution *)

Lemma Scanned_source (r : regex) prev s segs tail :
  Scanned r prev s segs tail -> s = render (fun m _ => m) segs tail.
Proof.
  induction 1 as [|prev gap m gs rest segs tail _ _ _ IH]; [reflexivity|].
  unfold render in *. cbn [flat_map]. rewrite IH, <- !app_assoc. reflexivity.
Qed.

Lemma sub_scan_skip (r : regex) (f : text -> spans -> text) (u rest : text) :
  forall prev,
    sub_scan r f prev (u ++ rest) (length u) = sub_scan r f (last_of u prev) rest 0.
Proof.
  induction u as [|c u IH]; intro prev; [reflexivity|].
  cbn [app length sub_scan]. rewrite IH. reflexivity.
Qed.

Lemma sub_scan_hit (r : regex) (f : text -> spans -> text) prev (m rest : text) (gs : spans) :
  m <> [] ->
  match_at r false prev (m ++ rest) = Some (length m, gs) ->
  sub_scan r f prev (m ++ rest) 0 =
  (f m gs ++ fst (sub_scan r f (last_of m prev) rest 0),
   S (snd (sub_scan r f (last_of m prev) rest 0))).
Proof.
  intros Hne Hm. destruct m as [|c m]; [congruence|].
  cbn [app sub_scan]. cbn [app] in Hm. rewrite Hm. cbn [length].
  rewrite sub_scan_skip.
  change (c :: m ++ rest) with ((c :: m) ++ rest).
  change (S (length m)) with (length (c :: m)).
  rewrite firstn_app_length. rewrite last_of_cons.
  destruct (sub_scan r f (last_of m (Some c)) rest 0). reflexivity.
Qed.

Lemma search_from_split (r : regex) (f : text -> spans -> text) :
  forall s prev i0 i k gs,
    search_from r prev s i0 = Some (i, k, gs) ->
    exists gap t,
      s = gap ++ t /\ i = i0 + length gap /\
      match_at r false (last_of gap prev) t = Some (k, gs) /\
      sub_scan r f prev s 0 =
      (gap ++ fst (sub_scan r f (last_of gap prev) t 0),
       snd (sub_scan r f (last_of gap prev) t 0)).
Proof.
  induction s as [|c s IH]; intros prev i0 i k gs H; cbn [search_from] in H.
  - destruct (match_at r false prev []) as [[k' gs']|] eqn:E; [|discriminate].
    injection H as <- <- <-. exists [], []. cbn [app length last_of fold_left].
    rewrite Nat.add_0_r. repeat split; [exact E|].
    destruct (sub_scan r f prev [] 0). reflexivity.
  - destruct (match_at r false prev (c :: s)) as [[k' gs']|] eqn:E.
    + injection H as <- <- <-. exists [], (c :: s). cbn [app length last_of fold_left].
      rewrite Nat.add_0_r. repeat split; [exact E|].
      destruct (sub_scan r f prev (c :: s) 0). reflexivity.
    + apply IH in H. destruct H as (gap & t & -> & -> & Hm & Hs).
      exists (c :: gap), t. cbn [app length last_of fold_left].
      repeat split; [lia | exact Hm |].
      cbn [sub_scan]. rewrite E. fold (last_of gap (Some c)). rewrite Hs. reflexivity.
Qed.

Lemma sub_scan_scanned (r : regex) (f : text -> spans -> text) :
  never_empty r ->
  forall s prev,
    exists segs tail,
      Scanned r prev s segs tail /\
      sub_scan r f prev s 0 = (render f segs tail, length segs).
Proof.
  intro Hne. induction s as [s IH] using text_length_ind. intro prev.
  destruct (search_from r prev s 0) as [[[i k] gs]|] eqn:Es.
  - destruct (search_from_split r f _ _ _ _ _ _ Es) as (gap & t & Hs & Hi & Hm & Hsub).
    pose proof (Hne _ _ _ _ Hm) as [Hk0 Hkt].
    assert (Ht : t = firstn k t ++ skipn k t) by (symmetry; apply firstn_skipn).
    set (m := firstn k t) in *. set (rest := skipn k t) in *.
    assert (Hlen : length m = k) by (unfold m; apply firstn_length_le; exact Hkt).
    assert (Hmne : m <> []) by (intro Hx; rewrite Hx in Hlen; simpl in Hlen; lia).
    destruct (IH rest) with (prev := last_of (gap ++ m) prev) as (segs & tail & Hsc & Hrest).
    { subst s. rewrite Ht, !length_app. lia. }
    exists ((gap, m, gs) :: segs), tail. split.
    + subst s. rewrite Ht. constructor; [|exact Hmne|exact Hsc].
      rewrite <- Ht, Hlen. simpl in Hi. subst i. exact Es.
    + rewrite Hsub. rewrite Ht in Hm |- *. rewrite <- Hlen in Hm.
      rewrite (sub_scan_hit r f _ m rest gs Hmne Hm).
      rewrite <- last_of_app, Hrest. cbn [fst snd length].
      unfold render. cbn [flat_map]. rewrite <- !app_assoc. reflexivity.
  - exists [], s. split; [constructor; exact Es|].
    rewrite (sub_scan_nomatch _ _ _ _ _ Es). unfold render. reflexivity.
Qed.

(** ** Call-pattern substitution *)

Lemma color_catalog_entries :
  color_catalog = map (fun p => color_entry (fst p) (snd p)) color_names.
Proof. reflexivity. Qed.

Lemma color_names_compile :
  Forall (fun p => compile_entry (color_entry (fst p) (snd p))
                   = Some (color_regex (fst p) (snd p), color_template (fst p) (snd p)))
         color_names.
Proof. repeat constructor. Qed.

Lemma cls_lit_eq (d c : ascii) : cls_match (CLit d) c = true -> c = d.
Proof. cbn [cls_match]. apply Ascii.eqb_eq. Qed.

Lemma group_text_span (pre arg post : text) :
  group_text (pre ++ arg ++ post) [(1, (length pre, length pre + length arg))] 1 = arg.
Proof.
  cbn [group_text lookup Nat.eqb].
  rewrite skipn_app_length.
  replace (length pre + length arg - length pre) with (length arg) by lia.
  apply firstn_app_length.
Qed.

Lemma color_match_shape (name : text) (has_arg : bool) (prev : option ascii)
      (s : text) (k : nat) (gs : spans) :
  match_at (color_regex name has_arg) false prev s = Some (k, gs) ->
  exists ws1 ws2 arg ws3 rest,
    s = call_text name ws1 ws2 arg ws3 ++ rest /\
    k = length (call_text name ws1 ws2 arg ws3) /\
    forallb is_space ws1 = true /\ forallb is_space ws2 = true /\
    forallb is_space ws3 = true /\
    arg = call_arg has_arg (call_text name ws1 ws2 arg ws3) gs.
Proof.
  unfold match_at, color_regex, call_text.
  generalize (str "this." ++ name). intro L.
  cbn [items m_items].
  destruct (at_boundary prev s); [|discriminate].
  rewrite m_items_lit. destruct (prefixb L s) eqn:Ep; [|discriminate].
  apply prefixb_true in Ep.
  generalize dependent (skipn (length L) s). intros s1 Ep.
  generalize (last_of L prev). intros p1.
  cbn [app].
  destruct (m_items _ false p1 s1 (length L + 0) cap0) as [[k' st]|] eqn:E; [|discriminate].
  intro H. injection H as -> <-.
  apply m_items_star in E. destruct E as (ws1 & s2 & -> & Hw1 & E).
  apply m_items_chr in E. destruct E as (c1 & s3 & -> & Hc1 & E).
  apply cls_lit_eq in Hc1. subst c1.
  apply m_items_star in E. destruct E as (ws2 & s4 & -> & Hw2 & E).
  destruct has_arg; cbn [app] in E.
  - cbn [m_items] in E.
    match type of E with
    | ?t = _ => match t with
                | context [cap_open 1 ?kb cap0] =>
                    change t with (m_items (Star false CDot :: Close 1 ::
                                            [Star true CSpace; Chr (CLit ")")])
                                           false (last_of ws2 (Some "(")) s4 kb
                                           (cap_open 1 kb cap0)) in E
                end
    end.
    apply m_items_star in E. destruct E as (arg & s5 & -> & _ & E).
    cbn [m_items] in E.
    match type of E with
    | ?t = _ => match t with
                | context [cap_close 1 ?ke ?st0] =>
                    change t with (m_items [Star true CSpace; Chr (CLit ")")]
                                           false (last_of arg (last_of ws2 (Some "("))) s5 ke
                                           (cap_close 1 ke st0)) in E
                end
    end.
    apply m_items_star in E. destruct E as (ws3 & s6 & -> & Hw3 & E).
    apply m_items_chr in E. destruct E as (c2 & rest & -> & Hc2 & E).
    apply cls_lit_eq in Hc2. subst c2.
    cbn [m_items andb] in E. injection E as <- <-.
    exists ws1, ws2, arg, ws3, rest.
    assert (Hcall : L ++ ws1 ++ "(" :: ws2 ++ arg ++ ws3 ++ [")"]
                    = (L ++ ws1 ++ "(" :: ws2) ++ arg ++ (ws3 ++ [")"])).
    { reassoc. reflexivity. }
    split; [rewrite Ep; reassoc; reflexivity|].
    split; [rewrite Hcall; lens; lia|].
    repeat split; try assumption.
    rewrite Hcall. cbn [call_arg cap_open cap_close cap0 fst snd lookup Nat.eqb].
    replace (length ws2 + S (length ws1 + (length L + 0))) with (length (L ++ ws1 ++ "(" :: ws2))
      by (lens; lia).
    rewrite (Nat.add_comm (length arg)). symmetry. apply group_text_span.
  - apply m_items_chr in E. destruct E as (c2 & rest & -> & Hc2 & E).
    apply cls_lit_eq in Hc2. subst c2.
    cbn [m_items andb] in E. injection E as <- <-.
    exists ws1, ws2, [], [], rest.
    split; [rewrite Ep; reassoc; reflexivity|].
    split; [cbn [app]; lens; lia|].
    repeat split; assumption.
Qed.

Lemma never_empty_color (name : text) (has_arg : bool) : never_empty (color_regex name has_arg).
Proof.
  intros prev s k gs H. apply color_match_shape in H.
  destruct H as (ws1 & ws2 & arg & ws3 & rest & -> & -> & _).
  unfold call_text. lens. lia.
Qed.

Lemma expand_app (a b : list tpiece) (m : text) (gs : spans) :
  expand (a ++ b) m gs = expand a m gs ++ expand b m gs.
Proof. unfold expand. apply flat_map_app. Qed.

Lemma expand_color (name : text) (has_arg : bool) (m : text) (gs : spans) :
  expand (color_template name has_arg) m gs = manager_call name (call_arg has_arg m gs).
Proof.
  unfold color_template, manager_call, call_arg.
  rewrite expand_app, expand_literal.
  destruct has_arg; unfold expand; cbn [flat_map app]; reassoc;
    rewrite ?app_nil_r; reflexivity.
Qed.

Lemma app_eq_length {A} (a b c d : list A) :
  a ++ b = c ++ d -> length a = length c -> a = c /\ b = d.
Proof.
  revert c. induction a as [|x a IH]; intros [|y c] H Hl; simpl in *; try discriminate.
  - auto.
  - injection H as -> H. destruct (IH c H) as [-> ->]; [lia | auto].
Qed.

Lemma Scanned_calls (name : text) (has_arg : bool) prev s segs tail :
  Scanned (color_regex name has_arg) prev s segs tail ->
  Forall (is_call name has_arg) segs.
Proof.
  induction 1 as [|prev gap m gs rest segs tail Hs Hne _ IH]; constructor; [|exact IH].
  destruct (search_from_split _ (fun m _ => m) _ _ _ _ _ _ Hs)
    as (gap' & t & Heq & Hlen & Hm & _).
  cbn [Nat.add] in Hlen. destruct (app_eq_length _ _ _ _ Heq Hlen) as [<- <-].
  apply color_match_shape in Hm.
  destruct Hm as (ws1 & ws2 & arg & ws3 & rest' & Heq' & Hk & H1 & H2 & H3 & Harg).
  destruct (app_eq_length _ _ _ _ Heq' Hk) as [-> _].
  cbn [is_call]. exists ws1, ws2, ws3. rewrite <- Harg. auto.
Qed.

Lemma Scanned_unique (r : regex) prev s segs tail :
  Scanned r prev s segs tail ->
  forall segs' tail', Scanned r prev s segs' tail' -> segs' = segs /\ tail' = tail.
Proof.
  induction 1 as [prev s Hnone | prev gap m gs rest segs tail Hs Hne Hsc IH];
    intros segs' tail' H'.
  - inversion H' as [p s' Hnone' | p gap' m' gs' rest' segs'' tail'' Hs' Hne' Hsc' Hp Heq].
    + auto.
    + rewrite <- Heq in Hnone. rewrite Hnone in Hs'. discriminate Hs'.
  - remember (gap ++ m ++ rest) as s eqn:Es.
    inversion H' as [p s' Hnone' | p gap' m' gs' rest' segs'' tail'' Hs' Hne' Hsc' Hp Heq].
    + subst. rewrite Hs in Hnone'. discriminate Hnone'.
    + subst s. rewrite Heq in Hs'. rewrite Hs in Hs'.
      injection Hs' as Hg Hm <-.
      destruct (app_eq_length _ _ _ _ Heq (eq_sym Hg)) as [-> Heq2].
      destruct (app_eq_length _ _ _ _ Heq2 (eq_sym Hm)) as [-> ->].
      destruct (IH _ _ Hsc') as [-> ->]. auto.
Qed.

Lemma substitute_step_entry (name : text) (has_arg : bool) (acc : text * list text) :
  In (name, has_arg) color_names ->
  exists segs tail,
    Scanned (color_regex name has_arg) None (fst acc) segs tail /\
    Forall (is_call name has_arg) segs /\
    substitute_step (color_entry name has_arg) acc
    = Some (entry_result name has_arg acc segs tail).
Proof.
  intro Hin. pose proof color_names_compile as Hc. rewrite Forall_forall in Hc.
  specialize (Hc _ Hin). cbn [fst snd] in Hc.
  destruct (sub_scan_scanned (color_regex name has_arg)
                             (expand (color_template name has_arg))
                             (never_empty_color name has_arg) (fst acc) None)
    as (segs & tail & Hsc & Hsub).
  exists segs, tail. split; [exact Hsc|]. split; [eapply Scanned_calls; exact Hsc|].
  unfold substitute_step. rewrite Hc, Hsub.
  destruct segs as [|sg segs].
  - reflexivity.
  - cbn [length Nat.ltb Nat.leb entry_result]. f_equal. f_equal.
    unfold render. f_equal. apply flat_map_ext. intros [[gap m] gs].
    rewrite expand_color. reflexivity.
Qed.

Lemma substitute_steps_applied (l : list (text * bool)) :
  (forall p, In p l -> In p color_names) ->
  forall acc,
    exists acc',
      fold_opt substitute_step (map (fun p => color_entry (fst p) (snd p)) l) acc = Some acc' /\
      Applied l acc acc'.
Proof.
  induction l as [|[name has_arg] l IH]; intros Hl acc.
  - exists acc. split; [reflexivity | apply Applied_nil].
  - destruct (substitute_step_entry name has_arg acc (Hl _ (or_introl eq_refl)))
      as (segs & tail & Hsc & Hcalls & Hstep).
    destruct (IH (fun p Hp => Hl p (or_intror Hp)) (entry_result name has_arg acc segs tail))
      as (acc' & Hfold & Happ).
    exists acc'. cbn [map fold_opt fst snd]. rewrite Hstep. split; [exact Hfold|].
    eapply Applied_cons; eassumption.
Qed.

Lemma Applied_unique (l : list (text * bool)) acc r1 :
  Applied l acc r1 -> forall r2, Applied l acc r2 -> r2 = r1.
Proof.
  induction 1 as [acc | name has_arg rest acc segs tail acc' Hsc _ _ IH]; intros r2 H2.
  - inversion H2. reflexivity.
  - inversion H2 as [| n h r a segs' tail' a' Hsc' _ Happ']; subst.
    destruct (Scanned_unique _ _ _ _ _ Hsc _ _ Hsc') as [-> ->].
    apply IH. exact Happ'.
Qed.

(** C1, as amended.  Each entry of the catalogue is applied to the text
    the entries before it have produced.  Scanning that text for the
    entry's pattern finds N successive matches, each a call of the
    entry's helper on [this]; the entry returns the text with each of
    the N calls replaced by the [ColorManager] call with the captured
    argument as it stood, and one report line
    [<pattern> -> <replacement> (Nx)]; with N = 0 it returns the text
    and the report as they were.  The stage returns what the thirteen
    entries give, applied in the order of the catalogue, the first to
    the source with no changes, and nothing else.
    [this.textColor(1)] becomes [ColorManager.textColor(1)], reported
    with [(1x)]. *)
Theorem color_entry_substitution :
  color_catalog = map (fun p => color_entry (fst p) (snd p)) color_names /\
  Forall (fun p =>
            forall source changes,
            exists segs tail,
              Scanned (color_regex (fst p) (snd p)) None source segs tail /\
              Forall (is_call (fst p) (snd p)) segs /\
              eval (color_step (color_entry (fst p) (snd p)) (source, changes))
              = Some (match segs with
                      | [] => (source, changes)
                      | _ :: _ =>
                          (render (fun m gs => manager_call (fst p) (call_arg (snd p) m gs))
                                  segs tail,
                           changes ++ [color_change (fst (color_entry (fst p) (snd p)))
                                                    (snd (color_entry (fst p) (snd p)))
                                                    (length segs)])
                      end))
         color_names /\
  (forall source out changes,
      eval (replace_colors source false) = Some (out, changes) <->
      Applied color_names (source, []) (out, changes)) /\
  (forall source, exists out changes,
        eval (replace_colors source false) = Some (out, changes)) /\
  eval (replace_colors (str "this.textColor(1)") false)
  = Some (str "ColorManager.textColor(1)",
          [text_color_pattern ++ str " -> " ++ text_color_template ++ str " (1x)"]).
Proof.
  assert (Hstage : forall source, exists out changes,
               eval (replace_colors source false) = Some (out, changes) /\
               Applied color_names (source, []) (out, changes)).
  { intro source. unfold eval. rewrite replace_colors_run. cbn [fst colors_stage].
    rewrite color_catalog_entries.
    destruct (substitute_steps_applied color_names (fun p Hp => Hp) (source, []))
      as ([out changes] & Hfold & Happ).
    exists out, changes. split; assumption. }
  split; [reflexivity|]. split; [|split; [|split; [|reflexivity]]].
  - rewrite Forall_forall. intros [name has_arg] Hin source changes. cbn [fst snd].
    destruct (substitute_step_entry name has_arg (source, changes) Hin)
      as (segs & tail & Hsc & Hcalls & Hstep).
    exists segs, tail. split; [exact Hsc|]. split; [exact Hcalls|].
    unfold eval. rewrite color_step_run. cbn [fst]. rewrite Hstep.
    destruct segs; reflexivity.
  - intros source out changes.
    destruct (Hstage source) as (out' & changes' & Hrun & Happ). split.
    + intro H. rewrite Hrun in H. injection H as <- <-. exact Happ.
    + intro H. rewrite Hrun. f_equal. symmetry. exact (Applied_unique _ _ _ Happ _ H).
  - intro source. destruct (Hstage source) as (out & changes & Hrun & _).
    exists out, changes. exact Hrun.
Qed.

(** C1 as stated, read on the input of the whole stage, fails twice.
    First: the [hpColor] call of [nested_call] has the argument
    [this.textColor(1], but the stage's output holds no
    [ColorManager.hpColor(this.textColor(1)], since the later [textColor]
    entry rewrites the argument.  Second: the [textColor] pattern
    matches nowhere in [broken_line_call], but the stage reports it
    with [(1x)], since the earlier [hpColor] entry removes the line
    break that kept it from matching. *)
Lemma stage_level_counterexample :
  ~ (forall source name has_arg segs tail,
        In (name, has_arg) color_names ->
        Scanned (color_regex name has_arg) None source segs tail ->
        exists out changes,
          eval (replace_colors source false) = Some (out, changes) /\
          Forall (fun sg : seg =>
                    let '(_, m, gs) := sg in
                    contains (manager_call name (call_arg has_arg m gs)) out = true) segs)
  /\
  ~ (forall source name has_arg segs tail,
        In (name, has_arg) color_names ->
        Scanned (color_regex name has_arg) None source segs tail ->
        exists out changes,
          eval (replace_colors source false) = Some (out, changes) /\
          (segs = [] ->
           forall n, ~ In (color_change (fst (color_entry name has_arg))
                                        (snd (color_entry name has_arg)) n) changes)).
Proof.
  split; intro H.
  - destruct (H nested_call (str "hpColor") true
                [([], str "this.hpColor(this.textColor(1)", [(1, (13, 29))])] (str ")"))
      as (out & changes & Hrun & Hall).
    + unfold color_names. cbn [map fst snd]. do 4 right. left. reflexivity.
    + apply (Scanned_match _ None [] (str "this.hpColor(this.textColor(1)")
                           [(1, (13, 29))] (str ")") [] (str ")")).
      * reflexivity.
      * discriminate.
      * apply Scanned_done. reflexivity.
    + vm_compute in Hrun. injection Hrun as <- _.
      apply Forall_inv in Hall. vm_compute in Hall. discriminate.
  - destruct (H broken_line_call (str "textColor") true [] broken_line_call)
      as (out & changes & Hrun & Hnone).
    + unfold color_names. cbn [map fst snd]. do 11 right. left. reflexivity.
    + apply Scanned_done. reflexivity.
    + vm_compute in Hrun. injection Hrun as _ <-.
      apply (Hnone eq_refl 1). right. left. reflexivity.
Qed.

(** ** Symbol migration *)

Lemma methods_ok : forallb method_ok methods_catalog = true.
Proof. reflexivity. Qed.

Lemma methods_distinct : distinct methods_catalog = true.
Proof. reflexivity. Qed.

Lemma mem_In (m : text) (M : list text) : mem m M = true <-> In m M.
Proof.
  unfold mem. rewrite existsb_exists. split.
  - intros (x & Hin & Hx). apply text_eqb_eq in Hx. subst x. exact Hin.
  - intro Hin. exists m. split; [exact Hin | apply text_eqb_refl].
Qed.

Lemma mem_app (m : text) (M N : list text) : mem m (M ++ N) = mem m M || mem m N.
Proof. unfold mem. apply existsb_app. Qed.

(** *** Word boundaries around a reference *)

Lemma last_of_word (m : text) (p : option ascii) :
  m <> [] -> forallb is_word m = true -> word_opt (last_of m p) = true.
Proof.
  revert p. induction m as [|c m IH]; intros p Hne Hw; [congruence|].
  cbn [forallb] in Hw. apply andb_true_iff in Hw. destruct Hw as [Hc Hw].
  rewrite last_of_cons. destruct m as [|d m].
  - exact Hc.
  - apply IH; [discriminate | exact Hw].
Qed.

Lemma method_ok_inv (m : text) :
  method_ok m = true ->
  m <> [] /\ forallb is_word m = true /\ (forall d, In d m -> d <> "W").
Proof.
  unfold method_ok. destruct m as [|c m]; [discriminate|].
  intro H. apply andb_true_iff in H. destruct H as [Hw Hn].
  apply negb_true_iff in Hn. repeat split; [discriminate | exact Hw |].
  intros d Hd. eapply one_of_false; eassumption.
Qed.

Lemma old_ref_shape (m : text) : old_owner ++ m = "W" :: old_tail ++ m.
Proof. reflexivity. Qed.

Lemma new_ref_shape (m : text) : new_owner ++ m = "W" :: new_tail ++ m.
Proof. reflexivity. Qed.

Lemma tails_no_W : one_of old_tail "W" = false /\ one_of new_tail "W" = false.
Proof. split; reflexivity. Qed.

Lemma old_tail_no_W (m : text) :
  method_ok m = true -> forall d, In d (old_tail ++ m) -> d <> "W".
Proof.
  intros Hm d Hd. apply in_app_or in Hd. destruct Hd as [Hd|Hd].
  - eapply one_of_false; [exact (proj1 tails_no_W) | exact Hd].
  - apply method_ok_inv in Hm. apply Hm. exact Hd.
Qed.

Lemma new_tail_no_W (m : text) :
  method_ok m = true -> forall d, In d (new_tail ++ m) -> d <> "W".
Proof.
  intros Hm d Hd. apply in_app_or in Hd. destruct Hd as [Hd|Hd].
  - eapply one_of_false; [exact (proj2 tails_no_W) | exact Hd].
  - apply method_ok_inv in Hm. apply Hm. exact Hd.
Qed.

Lemma ref_last_word (owner m : text) (p : option ascii) :
  method_ok m = true -> word_opt (last_of (owner ++ m) p) = true.
Proof.
  intro Hm. apply method_ok_inv in Hm. destruct Hm as (Hne & Hw & _).
  rewrite last_of_app. apply last_of_word; assumption.
Qed.

Lemma ref_last_same (m : text) (p : option ascii) :
  method_ok m = true -> last_of (new_owner ++ m) p = last_of (old_owner ++ m) p.
Proof.
  intro Hm. apply method_ok_inv in Hm. destruct Hm as (Hne & _ & _).
  rewrite !last_of_app. destruct m as [|c m]; [congruence|]. reflexivity.
Qed.

(** An occurrence of a reference, spelled out. *)
Lemma occ_ref_iff (m : text) (prev : option ascii) (s : text) :
  method_ok m = true ->
  occ (old_owner ++ m) prev s = true <->
  word_opt prev = false /\
  exists rest, s = (old_owner ++ m) ++ rest /\ word_opt (hd_error rest) = false.
Proof.
  intro Hm. unfold occ. split.
  - intro H. apply andb_true_iff in H. destruct H as [H H3].
    apply andb_true_iff in H. destruct H as [H1 H2].
    pose proof (prefixb_true _ _ H2) as Hs.
    unfold at_boundary in H3. rewrite (ref_last_word old_owner m prev Hm) in H3.
    split.
    + rewrite Hs in H1. unfold at_boundary in H1. rewrite old_ref_shape in H1.
      cbn [app hd_error word_opt] in H1.
      destruct (word_opt prev); [discriminate H1 | reflexivity].
    + exists (skipn (length (old_owner ++ m)) s). split; [exact Hs|].
      destruct (word_opt (hd_error _)); [discriminate H3 | reflexivity].
  - intros (Hp & rest & -> & Hr).
    rewrite prefixb_app, skipn_app_length. unfold at_boundary.
    rewrite (ref_last_word old_owner m prev Hm), Hp, Hr.
    rewrite old_ref_shape. reflexivity.
Qed.

Lemma word_split_unique (m1 m2 r1 r2 : text) :
  forallb is_word m1 = true -> forallb is_word m2 = true ->
  word_opt (hd_error r1) = false -> word_opt (hd_error r2) = false ->
  m1 ++ r1 = m2 ++ r2 -> m1 = m2.
Proof.
  revert m2. induction m1 as [|c m1 IH]; intros [|d m2] H1 H2 Hr1 Hr2 H;
    cbn [app forallb] in *.
  - reflexivity.
  - subst r1. cbn [hd_error word_opt] in Hr1.
    apply andb_true_iff in H2. destruct H2 as [H2 _]. congruence.
  - subst r2. cbn [hd_error word_opt] in Hr2.
    apply andb_true_iff in H1. destruct H1 as [H1 _]. congruence.
  - injection H as -> H. apply andb_true_iff in H1. apply andb_true_iff in H2.
    f_equal. apply (IH m2); tauto.
Qed.

(** Two catalogued references cannot stand at the same place. *)
Lemma occ_exclusive (m1 m2 : text) (prev : option ascii) (s : text) :
  method_ok m1 = true -> method_ok m2 = true ->
  occ (old_owner ++ m1) prev s = true -> occ (old_owner ++ m2) prev s = true ->
  m1 = m2.
Proof.
  intros Hm1 Hm2 H1 H2.
  apply occ_ref_iff in H1; [|exact Hm1]. apply occ_ref_iff in H2; [|exact Hm2].
  destruct H1 as (_ & r1 & Hs1 & Hr1). destruct H2 as (_ & r2 & Hs2 & Hr2).
  rewrite Hs1 in Hs2. rewrite <- !app_assoc in Hs2. apply app_inv_head in Hs2.
  apply method_ok_inv in Hm1. apply method_ok_inv in Hm2.
  apply (word_split_unique m1 m2 r1 r2);
    [apply Hm1 | apply Hm2 | exact Hr1 | exact Hr2 | exact Hs2].
Qed.

(** *** One pass of [migrate] *)

Lemma all_ok_In (M : list text) (m : text) : all_ok M -> In m M -> method_ok m = true.
Proof. unfold all_ok. rewrite forallb_forall. auto. Qed.

Lemma all_ok_app (M N : list text) : all_ok M -> all_ok N -> all_ok (M ++ N).
Proof. unfold all_ok. rewrite forallb_app. intros -> ->. reflexivity. Qed.

Lemma hit_of_Some (M : list text) prev s m :
  hit_of M prev s = Some m -> In m M /\ occ (old_owner ++ m) prev s = true.
Proof. unfold hit_of. intro H. apply find_some in H. exact H. Qed.

Lemma hit_of_None (M : list text) prev s m :
  hit_of M prev s = None -> In m M -> occ (old_owner ++ m) prev s = false.
Proof. unfold hit_of. intros H Hin. exact (find_none _ _ H m Hin). Qed.

Lemma hit_of_head (M : list text) prev (d : ascii) (s : text) :
  d <> "W" -> hit_of M prev (d :: s) = None.
Proof.
  intro Hd. unfold hit_of. induction M as [|m M IH]; [reflexivity|].
  cbn [find]. rewrite old_ref_shape, occ_head by exact Hd. exact IH.
Qed.

Lemma migrate_miss (M : list text) prev (c : ascii) (s : text) :
  hit_of M prev (c :: s) = None ->
  migrate M prev (c :: s) = c :: migrate M (Some c) s.
Proof.
  intro H. unfold migrate. apply scan_with_miss. unfold migrate_hit. rewrite H. reflexivity.
Qed.

Lemma migrate_at (M : list text) prev (m rest : text) :
  hit_of M prev ((old_owner ++ m) ++ rest) = Some m ->
  migrate M prev ((old_owner ++ m) ++ rest)
  = (new_owner ++ m) ++ migrate M (last_of (old_owner ++ m) prev) rest.
Proof.
  intro H. unfold migrate. apply scan_with_hit.
  - rewrite old_ref_shape. discriminate.
  - unfold migrate_hit. rewrite H. reflexivity.
Qed.

Lemma migrate_pass (M : list text) (u rest : text) :
  (forall d, In d u -> d <> "W") ->
  forall prev, migrate M prev (u ++ rest) = u ++ migrate M (last_of u prev) rest.
Proof.
  induction u as [|d u IH]; intros Hu prev; [reflexivity|].
  cbn [app]. rewrite migrate_miss by (apply hit_of_head; apply Hu; left; reflexivity).
  rewrite IH by (intros x Hx; apply Hu; right; exact Hx). reflexivity.
Qed.

(** The cases of one step. *)
Lemma migrate_cases (M : list text) prev (s : text) :
  all_ok M ->
  (s = [] /\ migrate M prev s = []) \/
  (exists m rest,
      In m M /\ method_ok m = true /\ occ (old_owner ++ m) prev s = true /\
      s = (old_owner ++ m) ++ rest /\
      migrate M prev s = (new_owner ++ m) ++ migrate M (last_of (old_owner ++ m) prev) rest) \/
  (exists c s',
      s = c :: s' /\ hit_of M prev s = None /\
      migrate M prev s = c :: migrate M (Some c) s').
Proof.
  intro HM. destruct s as [|c s']; [left; split; reflexivity|]. right.
  destruct (hit_of M prev (c :: s')) as [m|] eqn:E.
  - left. destruct (hit_of_Some _ _ _ _ E) as [Hin Ho].
    pose proof (occ_prefix _ _ _ Ho) as Hs.
    exists m, (skipn (length (old_owner ++ m)) (c :: s')).
    split; [exact Hin|]. split; [eapply all_ok_In; eassumption|].
    split; [exact Ho|]. split; [exact Hs|].
    rewrite Hs at 1. apply migrate_at. rewrite <- Hs. exact E.
  - right. exists c, s'. split; [reflexivity|]. split; [reflexivity | apply migrate_miss; exact E].
Qed.

Lemma migrate_head (M : list text) prev (s : text) :
  all_ok M -> hd_error (migrate M prev s) = hd_error s.
Proof.
  intro HM. destruct (migrate_cases M prev s HM)
    as [[-> ->] | [(m & rest & _ & _ & _ & -> & ->) | (c & s' & -> & _ & ->)]];
    try reflexivity.
Qed.

Lemma migrate_prefix (M : list text) (u : text) :
  all_ok M -> (forall d, In d u -> d <> "W") ->
  forall s prev,
    prefixb u (migrate M prev s) = prefixb u s /\
    (prefixb u s = true ->
     skipn (length u) (migrate M prev s) = migrate M (last_of u prev) (skipn (length u) s)).
Proof.
  intro HM. induction u as [|a u IH]; intros Hu s prev.
  - split; reflexivity.
  - assert (Ha : a <> "W") by (apply Hu; left; reflexivity).
    assert (Hu' : forall d, In d u -> d <> "W") by (intros d Hd; apply Hu; right; exact Hd).
    destruct (migrate_cases M prev s HM)
      as [[-> ->] | [(m & rest & _ & _ & _ & -> & ->) | (c & s' & -> & _ & ->)]].
    + split; [reflexivity | discriminate].
    + rewrite new_ref_shape, old_ref_shape. cbn [app prefixb].
      destruct (Ascii.eqb_spec a "W"); [contradiction|]. split; [reflexivity | discriminate].
    + cbn [prefixb length skipn]. destruct (IH Hu' s' (Some c)) as [H1 H2].
      destruct (Ascii.eqb_spec a c) as [->|]; cbn [andb].
      * split; [exact H1 | exact H2].
      * split; [reflexivity | discriminate].
Qed.

Lemma occ_old_in_new (m' m1 Z : text) prev :
  occ (old_owner ++ m') prev ((new_owner ++ m1) ++ Z) = false.
Proof.
  unfold occ.
  assert (H : prefixb (old_owner ++ m') ((new_owner ++ m1) ++ Z) = false) by reflexivity.
  rewrite H, andb_false_r. reflexivity.
Qed.

(** An occurrence after the pass is an occurrence before it, of a
    method the pass does not migrate. *)
Lemma occ_migrate (M : list text) (m' : text) prev (s : text) :
  all_ok M -> method_ok m' = true ->
  occ (old_owner ++ m') prev (migrate M prev s)
  = occ (old_owner ++ m') prev s && negb (mem m' M).
Proof.
  intros HM Hm'.
  destruct (migrate_cases M prev s HM)
    as [[-> ->] | [(m & rest & Hin & Hm & Ho & Hs & ->) | (c & s' & -> & Hnone & ->)]].
  - rewrite occ_nil by (rewrite old_ref_shape; discriminate). reflexivity.
  - rewrite occ_old_in_new. symmetry.
    destruct (mem m' M) eqn:Emem; [apply andb_false_r|]. rewrite andb_true_r.
    apply not_true_is_false. intro Ho'.
    assert (m' = m) by (eapply occ_exclusive; eassumption). subst m'.
    apply mem_In in Hin. congruence.
  - assert (HA : occ (old_owner ++ m') prev (c :: migrate M (Some c) s')
                 = occ (old_owner ++ m') prev (c :: s')).
    { unfold occ, at_boundary. rewrite old_ref_shape. cbn [hd_error prefixb length skipn].
      destruct (migrate_prefix M (old_tail ++ m') HM (old_tail_no_W m' Hm') s' (Some c))
        as [H1 H2].
      rewrite H1. destruct (prefixb (old_tail ++ m') s') eqn:Ep.
      - rewrite (H2 eq_refl), migrate_head by exact HM. reflexivity.
      - rewrite !andb_false_r. reflexivity. }
    rewrite HA. destruct (occ (old_owner ++ m') prev (c :: s')) eqn:Eo; [|reflexivity].
    cbn [andb]. symmetry. apply negb_true_iff. apply not_true_is_false. intro Hmem.
    apply mem_In in Hmem. rewrite (hit_of_None _ _ _ _ Hnone Hmem) in Eo. discriminate.
Qed.

Lemma occurs_pass (a : ascii) (l u rest : text) :
  (forall d, In d u -> d <> a) ->
  forall prev, occurs (a :: l) prev (u ++ rest) = occurs (a :: l) (last_of u prev) rest.
Proof.
  induction u as [|d u IH]; intros Hu prev; [reflexivity|].
  cbn [app occurs]. rewrite occ_head by (apply Hu; left; reflexivity).
  cbn [orb]. apply IH. intros x Hx. apply Hu. right. exact Hx.
Qed.

Lemma occurs_skip_old (m' m Y : text) prev :
  method_ok m = true ->
  occurs (old_owner ++ m') prev ((old_owner ++ m) ++ Y)
  = occ (old_owner ++ m') prev ((old_owner ++ m) ++ Y)
    || occurs (old_owner ++ m') (last_of (old_owner ++ m) prev) Y.
Proof.
  intro Hm. rewrite (old_ref_shape m). cbn [app occurs].
  rewrite (old_ref_shape m') at 2.
  rewrite occurs_pass by (apply (old_tail_no_W m Hm)). reflexivity.
Qed.

Lemma occurs_skip_new (m' m Y : text) prev :
  method_ok m = true ->
  occurs (old_owner ++ m') prev ((new_owner ++ m) ++ Y)
  = occurs (old_owner ++ m') (last_of (old_owner ++ m) prev) Y.
Proof.
  intro Hm. rewrite <- (ref_last_same m prev Hm).
  pose proof (occ_old_in_new m' m Y prev) as Ho.
  rewrite (new_ref_shape m) in *. cbn [app occurs] in *. rewrite Ho. cbn [orb].
  rewrite (old_ref_shape m').
  rewrite occurs_pass by (apply (new_tail_no_W m Hm)). reflexivity.
Qed.

(** A reference occurs after the pass exactly when it occurred before
    and its method is not one the pass migrates. *)
Lemma occurs_migrate (M : list text) (m' : text) :
  all_ok M -> method_ok m' = true ->
  forall s prev,
    occurs (old_owner ++ m') prev (migrate M prev s)
    = occurs (old_owner ++ m') prev s && negb (mem m' M).
Proof.
  intros HM Hm'. induction s as [s IH] using text_length_ind. intro prev.
  pose proof (occ_migrate M m' prev s HM Hm') as HW.
  destruct (migrate_cases M prev s HM)
    as [[-> ->] | [(m & rest & Hin & Hm & Ho & Hs & Hmig) | (c & s' & -> & Hnone & Hmig)]].
  - reflexivity.
  - rewrite Hmig in *. rewrite occ_old_in_new in HW.
    rewrite occurs_skip_new by exact Hm.
    rewrite IH by (rewrite Hs, length_app, old_ref_shape; cbn [length]; lia).
    rewrite Hs at 1. rewrite occurs_skip_old by exact Hm. rewrite <- Hs.
    destruct (negb (mem m' M)); rewrite ?andb_true_r, ?andb_false_r in *;
      [rewrite <- HW|]; reflexivity.
  - rewrite Hmig in *. cbn [occurs]. rewrite HW, IH by (cbn [length]; lia).
    destruct (negb (mem m' M)); rewrite ?andb_true_r, ?andb_false_r; reflexivity.
Qed.

(** *** Entry after entry is one pass over all of them *)

Lemma scan_with_ext (f g : option ascii -> text -> option (nat * text)) :
  (forall prev s, f prev s = g prev s) ->
  forall s prev skip, scan_with f prev s skip = scan_with g prev s skip.
Proof.
  intro H. induction s as [|c s IH]; intros prev skip; [reflexivity|].
  cbn [scan_with]. destruct skip; [|apply IH].
  rewrite H. destruct (g prev (c :: s)) as [[len rep]|]; rewrite IH; reflexivity.
Qed.

Lemma hit_of_one (m : text) prev s :
  hit_of [m] prev s = if occ (old_owner ++ m) prev s then Some m else None.
Proof. reflexivity. Qed.

Lemma hit_of_app (M N : list text) prev s :
  hit_of (M ++ N) prev s =
  match hit_of M prev s with Some x => Some x | None => hit_of N prev s end.
Proof.
  unfold hit_of. induction M as [|m M IH]; [reflexivity|].
  cbn [app find]. destruct (occ (old_owner ++ m) prev s); [reflexivity | exact IH].
Qed.

Lemma hit_of_occ (M : list text) (m : text) prev s :
  all_ok M -> In m M -> occ (old_owner ++ m) prev s = true -> hit_of M prev s = Some m.
Proof.
  intros HM Hin Ho. destruct (hit_of M prev s) as [m2|] eqn:E.
  - destruct (hit_of_Some _ _ _ _ E) as [Hin2 Ho2]. f_equal.
    eapply occ_exclusive; try eassumption; eapply all_ok_In; eassumption.
  - rewrite (hit_of_None _ _ _ _ E Hin) in Ho. discriminate.
Qed.

Lemma sub_is_migrate (m : text) (s : text) prev :
  fst (sub_scan (word_pattern (old_owner ++ m)) (fun _ _ => new_owner ++ m) prev s 0)
  = migrate [m] prev s.
Proof.
  assert (Hne : old_owner ++ m <> []) by (rewrite old_ref_shape; discriminate).
  rewrite sub_scan_text by (apply never_empty_word_pattern; exact Hne).
  unfold migrate. apply scan_with_ext. intros p t.
  rewrite regex_hit_word by exact Hne. unfold migrate_hit. rewrite hit_of_one.
  destruct (occ (old_owner ++ m) p t); reflexivity.
Qed.

Lemma migrate_empty (s : text) prev : migrate [] prev s = s.
Proof.
  revert prev. induction s as [|c s IH]; intro prev; [reflexivity|].
  rewrite migrate_miss by reflexivity. rewrite IH. reflexivity.
Qed.

Lemma migrate_none (m : text) :
  forall s prev, occurs (old_owner ++ m) prev s = false -> migrate [m] prev s = s.
Proof.
  induction s as [|c s IH]; intros prev H; [reflexivity|].
  cbn [occurs] in H. apply orb_false_iff in H. destruct H as [H1 H2].
  rewrite migrate_miss by (rewrite hit_of_one, H1; reflexivity).
  rewrite IH by exact H2. reflexivity.
Qed.

Lemma migrate_skip_ref (M : list text) (m : text) prev (s : text) :
  all_ok M -> method_ok m = true ->
  hit_of M prev s = None -> occ (old_owner ++ m) prev s = true ->
  skipn (length (old_owner ++ m)) (migrate M prev s)
  = migrate M (last_of (old_owner ++ m) prev) (skipn (length (old_owner ++ m)) s).
Proof.
  intros HM Hm Hnone Ho. pose proof (occ_prefix _ _ _ Ho) as Hs.
  destruct s as [|c s']; [rewrite old_ref_shape in Hs; discriminate|].
  rewrite migrate_miss by exact Hnone.
  rewrite old_ref_shape in *. cbn [app length skipn] in *.
  injection Hs as -> Hs.
  destruct (migrate_prefix M (old_tail ++ m) HM (old_tail_no_W m Hm) s' (Some "W"))
    as [_ H2].
  apply H2. rewrite Hs. apply prefixb_app.
Qed.

Lemma migrate_over_new (m m1 Y : text) prev :
  method_ok m1 = true ->
  migrate [m] prev ((new_owner ++ m1) ++ Y)
  = (new_owner ++ m1) ++ migrate [m] (last_of (old_owner ++ m1) prev) Y.
Proof.
  intro Hm1. rewrite <- (ref_last_same m1 prev Hm1).
  pose proof (occ_old_in_new m m1 Y prev) as Hx.
  rewrite (new_ref_shape m1) in *. cbn [app] in *.
  rewrite migrate_miss by (rewrite hit_of_one, Hx; reflexivity).
  rewrite migrate_pass by (apply (new_tail_no_W m1 Hm1)). reflexivity.
Qed.

Lemma migrate_compose (M : list text) (m : text) :
  all_ok M -> method_ok m = true -> mem m M = false ->
  forall s prev, migrate [m] prev (migrate M prev s) = migrate (M ++ [m]) prev s.
Proof.
  intros HM Hm Hmem.
  assert (HMm : all_ok (M ++ [m])).
  { apply all_ok_app; [exact HM|]. unfold all_ok. cbn [forallb]. rewrite Hm. reflexivity. }
  induction s as [s IH] using text_length_ind. intro prev.
  pose proof (occ_migrate M m prev s HM Hm) as HW. rewrite Hmem, andb_true_r in HW.
  destruct (migrate_cases M prev s HM)
    as [[-> ->] | [(m1 & rest & Hin & Hm1 & Ho & Hs & Hmig) | (c & s' & -> & Hnone & Hmig)]].
  - reflexivity.
  - rewrite Hmig. rewrite Hs at 1.
    rewrite (migrate_at (M ++ [m])).
    2:{ rewrite <- Hs. apply hit_of_occ; [exact HMm | apply in_or_app; left; exact Hin | exact Ho]. }
    rewrite <- IH by (rewrite Hs, length_app, old_ref_shape; cbn [length]; lia).
    apply migrate_over_new. exact Hm1.
  - destruct (occ (old_owner ++ m) prev (c :: s')) eqn:Eo.
    + pose proof (occ_prefix _ _ _ Eo) as Hs.
      pose proof (occ_prefix _ _ _ HW) as HsT.
      rewrite HsT. rewrite (migrate_at [m]).
      2:{ rewrite <- HsT. rewrite hit_of_one, HW. reflexivity. }
      rewrite migrate_skip_ref by assumption.
      rewrite IH.
      2:{ apply (f_equal (@length ascii)) in Hs. rewrite length_app, old_ref_shape in Hs.
          rewrite old_ref_shape. cbn [length] in *. lia. }
      rewrite Hs at 2. rewrite (migrate_at (M ++ [m])); [reflexivity|].
      rewrite <- Hs. apply hit_of_occ; [exact HMm | apply in_or_app; right; left; reflexivity | exact Eo].
    + rewrite Hmig in *. rewrite migrate_miss by (rewrite hit_of_one, HW; reflexivity).
      rewrite IH by (cbn [length]; lia).
      rewrite (migrate_miss (M ++ [m])); [reflexivity|].
      rewrite hit_of_app, Hnone, hit_of_one, Eo. reflexivity.
Qed.

Lemma distinct_cons (m : text) (l : list text) (x : text) :
  distinct (m :: l) = true -> In x l -> text_eqb x m = false.
Proof.
  cbn [distinct]. intros H Hin. apply andb_true_iff in H. destruct H as [H _].
  apply negb_true_iff in H. apply not_true_is_false. intro Hx.
  apply text_eqb_eq in Hx. subst x. apply mem_In in Hin. congruence.
Qed.

(** Stage 2 from any point of its loop: the methods [M] are done, the
    methods [rest] are still to come. *)
Lemma migrate_steps (s : text) :
  forall rest M ch,
    all_ok M -> all_ok rest -> distinct rest = true ->
    (forall m, In m rest -> mem m M = false) ->
    fold_opt migrate_step rest (migrate M None s, ch)
    = Some (migrate (M ++ rest) None s,
            ch ++ map window_base_change
                      (filter (fun m => occurs (old_owner ++ m) None s) rest)).
Proof.
  induction rest as [|m rest IH]; intros M ch HM Hrest Hd Hfresh.
  - cbn [fold_opt filter map]. rewrite !app_nil_r. reflexivity.
  - assert (Hm : method_ok m = true) by (apply (all_ok_In (m :: rest)); [exact Hrest | left; reflexivity]).
    assert (Hmem : mem m M = false) by (apply Hfresh; left; reflexivity).
    assert (Hrest' : all_ok rest).
    { unfold all_ok in *. cbn [forallb] in Hrest. apply andb_true_iff in Hrest. tauto. }
    assert (HMm : all_ok (M ++ [m])).
    { apply all_ok_app; [exact HM|]. unfold all_ok. cbn [forallb]. rewrite Hm. reflexivity. }
    assert (Hd' : distinct rest = true).
    { cbn [distinct] in Hd. apply andb_true_iff in Hd. tauto. }
    assert (Hfresh' : forall x, In x rest -> mem x (M ++ [m]) = false).
    { intros x Hx. rewrite mem_app, (Hfresh x (or_intror Hx)). unfold mem. cbn [existsb orb].
      rewrite (distinct_cons m rest x Hd Hx). reflexivity. }
    cbn [fold_opt]. unfold migrate_step at 1. unfold re_search.
    rewrite search_word_pattern by (rewrite old_ref_shape; discriminate).
    rewrite occurs_migrate by assumption. rewrite Hmem, andb_true_r.
    rewrite sub_is_migrate, migrate_compose by assumption.
    cbn [filter].
    destruct (occurs (old_owner ++ m) None s) eqn:Eo.
    + rewrite IH by assumption. cbn [map]. rewrite <- !app_assoc. reflexivity.
    + assert (Hsame : migrate M None s = migrate (M ++ [m]) None s).
      { rewrite <- (migrate_compose M m HM Hm Hmem). symmetry. apply migrate_none.
        rewrite occurs_migrate by assumption. rewrite Eo. reflexivity. }
      rewrite Hsame, IH by assumption. rewrite <- !app_assoc. reflexivity.
Qed.

(** ** References survive the later stages only where they stood

    A catalogued old reference that occurs after the call-pattern
    substitution or the annotation stage occurred before it. *)

Lemma occurs_app_r (lit : text) (a b : text) :
  forall prev, occurs lit (last_of a prev) b = true -> occurs lit prev (a ++ b) = true.
Proof.
  induction a as [|d a IH]; intros prev H; [exact H|].
  cbn [app occurs]. rewrite (IH (Some d) H). apply orb_true_r.
Qed.

Lemma occurs_prev_class (a0 : ascii) (l : text) (p p' : option ascii) (s : text) :
  word_opt p = word_opt p' -> occurs (a0 :: l) p s = occurs (a0 :: l) p' s.
Proof.
  intro H. destruct s as [|c s]; [reflexivity|].
  cbn [occurs]. f_equal. unfold occ, at_boundary. rewrite H, !last_of_cons. reflexivity.
Qed.

(** A reference cannot run over a character it does not hold. *)
Lemma prefix_stop (c0 c0' : ascii) (b b' : text) :
  forall lit x,
    (forall d, In d lit -> d <> c0 /\ d <> c0') ->
    word_opt (Some c0) = word_opt (Some c0') ->
    prefixb lit (x ++ c0 :: b) = prefixb lit (x ++ c0' :: b') /\
    (prefixb lit (x ++ c0 :: b) = true ->
     word_opt (hd_error (skipn (length lit) (x ++ c0 :: b)))
     = word_opt (hd_error (skipn (length lit) (x ++ c0' :: b')))).
Proof.
  induction lit as [|e lit IH]; intros x Hl Hc.
  - split; [reflexivity|]. intros _. destruct x; [exact Hc | reflexivity].
  - destruct x as [|d x].
    + destruct (Hl e (or_introl eq_refl)) as [H1 H2]. cbn [app prefixb].
      destruct (Ascii.eqb_spec e c0); [contradiction|].
      destruct (Ascii.eqb_spec e c0'); [contradiction|].
      split; [reflexivity | discriminate].
    + cbn [app prefixb length skipn].
      destruct (IH x (fun d' Hd => Hl d' (or_intror Hd)) Hc) as [H1 H2].
      rewrite H1. split; [reflexivity|].
      intro H. apply andb_true_iff in H. destruct H as [_ H]. rewrite <- H1 in H. exact (H2 H).
Qed.

Lemma occ_stop (lit : text) (c0 c0' : ascii) (b b' : text) prev (x : text) :
  (forall d, In d lit -> d <> c0 /\ d <> c0') ->
  word_opt (Some c0) = word_opt (Some c0') ->
  occ lit prev (x ++ c0 :: b) = occ lit prev (x ++ c0' :: b').
Proof.
  intros Hl Hc. unfold occ, at_boundary.
  destruct (prefix_stop c0 c0' b b' lit x Hl Hc) as [H1 H2]. rewrite <- H1.
  assert (Hh : word_opt (hd_error (x ++ c0 :: b)) = word_opt (hd_error (x ++ c0' :: b')))
    by (destruct x; [exact Hc | reflexivity]).
  rewrite Hh. destruct (prefixb lit (x ++ c0 :: b)) eqn:E.
  - rewrite (H2 eq_refl). reflexivity.
  - rewrite !andb_false_r. reflexivity.
Qed.

Lemma occurs_stop (a0 : ascii) (l : text) (c0 c0' : ascii) (b : text) :
  (forall d, In d (a0 :: l) -> d <> c0 /\ d <> c0') ->
  word_opt (Some c0) = word_opt (Some c0') ->
  forall a prev,
    occurs (a0 :: l) prev (a ++ c0 :: b)
    = occurs (a0 :: l) prev (a ++ [c0']) || occurs (a0 :: l) (Some c0) b.
Proof.
  intros Hl Hc.
  assert (Hc0 : c0 <> a0) by (intro; subst; destruct (Hl a0 (or_introl eq_refl)); congruence).
  assert (Hc0' : c0' <> a0) by (intro; subst; destruct (Hl a0 (or_introl eq_refl)); congruence).
  induction a as [|d a IH]; intro prev.
  - cbn [app occurs]. rewrite !occ_head by assumption. reflexivity.
  - cbn [app occurs]. rewrite IH.
    change (d :: a ++ c0 :: b) with ((d :: a) ++ c0 :: b).
    change (d :: a ++ [c0']) with ((d :: a) ++ [c0']).
    rewrite (occ_stop (a0 :: l) c0 c0' b [] prev (d :: a) Hl Hc).
    rewrite orb_assoc. reflexivity.
Qed.

(** *** The annotation stage *)

Lemma occ_after_word (g0 : ascii) (G : text) (p : option ascii) (s : text) :
  is_word g0 = true -> word_opt p = true -> occ (g0 :: G) p s = false.
Proof.
  intros Hg Hp. unfold occ.
  destruct s as [|c s]; [cbn [prefixb]; rewrite andb_false_r; reflexivity|].
  cbn [prefixb]. destruct (Ascii.eqb_spec g0 c) as [<-|]; [|rewrite andb_false_r; reflexivity].
  unfold at_boundary at 1. cbn [hd_error word_opt]. rewrite Hp, Hg. reflexivity.
Qed.

Lemma insert_prefix_back (lit note' : text) (n0 : ascii) :
  forall u s prev,
    (forall d, In d u -> d <> n0) ->
    prefixb u (insert_before_occurrences lit (n0 :: note') prev s) = true ->
    prefixb u s = true /\
    skipn (length u) (insert_before_occurrences lit (n0 :: note') prev s)
    = insert_before_occurrences lit (n0 :: note') (last_of u prev) (skipn (length u) s).
Proof.
  induction u as [|a u IH]; intros s prev Hu H; [split; reflexivity|].
  destruct s as [|c s]; [discriminate H|].
  cbn [insert_before_occurrences] in *.
  destruct (occ lit prev (c :: s)).
  - cbn [app prefixb] in H. apply andb_true_iff in H. destruct H as [H _].
    apply Ascii.eqb_eq in H. exfalso. apply (Hu a (or_introl eq_refl)). exact H.
  - cbn [app prefixb length skipn] in *. apply andb_true_iff in H. destruct H as [Ha H].
    rewrite Ha. apply Ascii.eqb_eq in Ha. subst c.
    apply IH; [intros d Hd; apply Hu; right; exact Hd | exact H].
Qed.

Lemma insert_head (lit note : text) prev (s : text) :
  occ lit prev s = false ->
  hd_error (insert_before_occurrences lit note prev s) = hd_error s.
Proof.
  intro H. destruct s as [|c s]; [reflexivity|].
  cbn [insert_before_occurrences]. rewrite H. reflexivity.
Qed.
Lemma fold_opt_inv {A S} (step : A -> S -> option S) (P : S -> Prop) (l : list A) :
  (forall x t t', In x l -> P t -> step x t = Some t' -> P t') ->
  forall s s', P s -> fold_opt step l s = Some s' -> P s'.
Proof.
  induction l as [|x l IH]; intros Hstep s s' Hs H; simpl in H.
  - injection H as <-. exact Hs.
  - destruct (step x s) as [t|] eqn:E; [|discriminate].
    apply (IH (fun y u u' Hy => Hstep y u u' (or_intror Hy)) t s'); [|exact H].
    apply (Hstep x s t); [left; reflexivity | exact Hs | exact E].
Qed.


Lemma occ_insert_back (a0 g0 n0 : ascii) (l G note' : text) :
  (forall d, In d (a0 :: l) -> d <> n0) ->
  (forall p, word_opt (last_of (a0 :: l) p) = true) ->
  is_word g0 = true ->
  forall prev s,
    occ (a0 :: l) prev (insert_before_occurrences (g0 :: G) (n0 :: note') prev s) = true ->
    occ (a0 :: l) prev s = true.
Proof.
  intros Hn Hlast Hg prev s H. unfold occ in *.
  apply andb_true_iff in H. destruct H as [H Ht].
  apply andb_true_iff in H. destruct H as [Hb Hp].
  destruct (insert_prefix_back (g0 :: G) note' n0 (a0 :: l) s prev Hn Hp) as [Hp' Hsk].
  rewrite Hp'. rewrite Hsk in Ht.
  assert (Hh : at_boundary prev s = true).
  { pose proof (prefixb_true _ _ Hp) as E1. pose proof (prefixb_true _ _ Hp') as E2.
    unfold at_boundary in *. rewrite E1 in Hb. rewrite E2. exact Hb. }
  rewrite Hh. cbn [andb].
  unfold at_boundary in *.
  rewrite insert_head in Ht by (apply occ_after_word; [exact Hg | apply Hlast]).
  exact Ht.
Qed.

Lemma occurs_insert_back (a0 g0 n0 : ascii) (l G note' : text) :
  (forall d, In d (a0 :: l) -> d <> n0) ->
  (forall p, word_opt (last_of (a0 :: l) p) = true) ->
  is_word g0 = true -> g0 <> a0 ->
  (forall d, In d (n0 :: note') -> d <> a0) ->
  forall s prev,
    occurs (a0 :: l) prev (insert_before_occurrences (g0 :: G) (n0 :: note') prev s) = true ->
    occurs (a0 :: l) prev s = true.
Proof.
  intros Hn Hlast Hg Hga Hnote.
  induction s as [|c s IH]; intros prev H; [discriminate H|].
  cbn [occurs]. apply orb_true_iff.
  destruct (occ (g0 :: G) prev (c :: s)) eqn:Eg.
  - right. apply IH.
    cbn [insert_before_occurrences] in H. rewrite Eg in H.
    rewrite (occurs_pass a0 l (n0 :: note') _ Hnote) in H.
    cbn [occurs] in H.
    assert (Hc : c = g0).
    { unfold occ in Eg. cbn [prefixb] in Eg.
      destruct (Ascii.eqb_spec g0 c); [congruence|].
      rewrite andb_false_r in Eg. discriminate. }
    subst c. rewrite occ_head in H by exact Hga. exact H.
  - pose proof (occ_insert_back a0 g0 n0 l G note' Hn Hlast Hg prev (c :: s)) as Hocc.
    cbn [insert_before_occurrences] in H, Hocc. rewrite Eg in H, Hocc.
    cbn [app occurs] in H, Hocc. apply orb_true_iff in H. destruct H as [H|H].
    + left. exact (Hocc H).
    + right. exact (IH _ H).
Qed.

(** *** The call-pattern substitution *)

Lemma word_not_space (c : ascii) : is_word c = true -> is_space c = false.
Proof. destruct c as [[] [] [] [] [] [] [] []]; (reflexivity || discriminate). Qed.

Lemma ref_char_stop (lit : text) (c0 : ascii) :
  forallb ref_char lit = true -> ref_char c0 = false -> forall d, In d lit -> d <> c0.
Proof.
  intros Hl Hc d Hd ->. rewrite forallb_forall in Hl. rewrite (Hl _ Hd) in Hc. discriminate.
Qed.

Lemma space_not_ref (c : ascii) : is_space c = true -> ref_char c = false.
Proof.
  intro H. unfold ref_char. apply orb_false_iff. split.
  - destruct (is_word c) eqn:E; [|reflexivity]. rewrite (word_not_space c E) in H. discriminate.
  - destruct (Ascii.eqb_spec c "."); [subst; discriminate H | reflexivity].
Qed.

Lemma color_match_boundary (name : text) (has_arg : bool) prev (s : text) (k : nat) (gs : spans) :
  match_at (color_regex name has_arg) false prev s = Some (k, gs) -> word_opt prev = false.
Proof.
  intro H. pose proof (color_match_shape _ _ _ _ _ _ H) as (ws1 & ws2 & arg & ws3 & rest & Hs & _).
  unfold match_at, color_regex in H. cbn [items m_items] in H.
  destruct (at_boundary prev s) eqn:Eb; [|discriminate].
  rewrite Hs in Eb. unfold at_boundary, call_text in Eb. cbn in Eb.
  destruct (word_opt prev); [discriminate | reflexivity].
Qed.

Lemma last_of_snoc (u : text) (c : ascii) (p : option ascii) : last_of (u ++ [c]) p = Some c.
Proof. rewrite last_of_app. reflexivity. Qed.

Lemma call_text_last (name ws1 ws2 arg ws3 : text) (p : option ascii) :
  last_of (call_text name ws1 ws2 arg ws3) p = Some ")"%char.
Proof.
  unfold call_text.
  replace ((str "this." ++ name) ++ ws1 ++ "(" :: ws2 ++ arg ++ ws3 ++ [")"])
    with (((str "this." ++ name) ++ ws1 ++ "(" :: ws2 ++ arg ++ ws3) ++ [")"])
    by (reassoc; reflexivity).
  apply last_of_snoc.
Qed.

(** The cases of one step of the pass. *)
Lemma color_scan_cases (name : text) (has_arg : bool) prev (s : text) :
  (s = [] /\ color_scan name has_arg prev s = []) \/
  (exists ws1 ws2 arg ws3 rest,
      s = call_text name ws1 ws2 arg ws3 ++ rest /\ word_opt prev = false /\
      forallb is_space ws1 = true /\ forallb is_space ws2 = true /\
      forallb is_space ws3 = true /\
      color_scan name has_arg prev s
      = manager_call name arg ++ color_scan name has_arg (Some ")"%char) rest) \/
  (exists c s',
      s = c :: s' /\
      color_scan name has_arg prev s = c :: color_scan name has_arg (Some c) s').
Proof.
  destruct s as [|c s']; [left; split; reflexivity|]. right.
  destruct (match_at (color_regex name has_arg) false prev (c :: s')) as [[k gs]|] eqn:E.
  - left. pose proof (color_match_boundary _ _ _ _ _ _ E) as Hb.
    pose proof (color_match_shape _ _ _ _ _ _ E)
      as (ws1 & ws2 & arg & ws3 & rest & Hs & Hk & H1 & H2 & H3 & Harg).
    exists ws1, ws2, arg, ws3, rest. repeat (split; [assumption|]).
    unfold color_scan. rewrite Hs.
    rewrite (scan_with_hit _ prev (call_text name ws1 ws2 arg ws3) rest (manager_call name arg)).
    + rewrite call_text_last. reflexivity.
    + unfold call_text. simpl. discriminate.
    + unfold regex_hit. rewrite <- Hs, E, Hk. rewrite Hs at 1.
      rewrite firstn_app_length, expand_color, <- Harg. reflexivity.
  - right. exists c, s'. split; [reflexivity|].
    unfold color_scan. apply scan_with_miss. unfold regex_hit. rewrite E. reflexivity.
Qed.

Lemma color_scan_head (name : text) (has_arg : bool) prev (s : text) :
  word_opt (hd_error (color_scan name has_arg prev s)) = word_opt (hd_error s).
Proof.
  destruct (color_scan_cases name has_arg prev s)
    as [[-> ->] | [(ws1 & ws2 & arg & ws3 & rest & -> & _ & _ & _ & _ & ->)
                  | (c & s' & -> & ->)]]; reflexivity.
Qed.

Lemma color_scan_prefix_back (name : text) (has_arg : bool) :
  forall u s prev,
    no_C_after_break prev u = true ->
    prefixb u (color_scan name has_arg prev s) = true ->
    prefixb u s = true /\
    skipn (length u) (color_scan name has_arg prev s)
    = color_scan name has_arg (last_of u prev) (skipn (length u) s).
Proof.
  induction u as [|a u IH]; intros s prev Hu H; [split; reflexivity|].
  cbn [no_C_after_break] in Hu. apply andb_true_iff in Hu. destruct Hu as [Ha Hu].
  destruct (color_scan_cases name has_arg prev s)
    as [[-> E] | [(ws1 & ws2 & arg & ws3 & rest & -> & Hb & _ & _ & _ & E)
                 | (c & s' & -> & E)]];
    rewrite E in *.
  - discriminate H.
  - exfalso. unfold manager_call in H. cbn [str app prefixb] in H.
    apply andb_true_iff in H. destruct H as [H _]. apply Ascii.eqb_eq in H. subst a.
    rewrite Hb in Ha. discriminate Ha.
  - cbn [prefixb length skipn] in *. apply andb_true_iff in H. destruct H as [Hc H].
    rewrite Hc. apply Ascii.eqb_eq in Hc. subst c. apply IH; assumption.
Qed.

Lemma occ_color_scan_back (name : text) (has_arg : bool) (a0 : ascii) (l : text) prev (s : text) :
  no_C_after_break prev (a0 :: l) = true ->
  occ (a0 :: l) prev (color_scan name has_arg prev s) = true ->
  occ (a0 :: l) prev s = true.
Proof.
  intros Hc H. unfold occ in *.
  apply andb_true_iff in H. destruct H as [H Ht].
  apply andb_true_iff in H. destruct H as [Hb Hp].
  destruct (color_scan_prefix_back name has_arg (a0 :: l) s prev Hc Hp) as [Hp' Hsk].
  rewrite Hp'. rewrite Hsk in Ht. unfold at_boundary in *.
  rewrite color_scan_head in Hb, Ht. rewrite Hb, Ht. reflexivity.
Qed.

Lemma last_of_spaces (ws : text) :
  forallb is_space ws = true ->
  forall p, word_opt p = false -> word_opt (last_of ws p) = false.
Proof.
  induction ws as [|w ws IH]; intros H p Hp; [exact Hp|].
  cbn [forallb] in H. apply andb_true_iff in H. destruct H as [Hw H].
  rewrite last_of_cons. apply IH; [exact H|]. cbn [word_opt].
  destruct (is_word w) eqn:E; [|reflexivity].
  rewrite (word_not_space w E) in Hw. discriminate.
Qed.

Lemma spaces_stop (lit ws : text) :
  forallb ref_char lit = true -> forallb is_space ws = true ->
  forall d c, In d lit -> In c ws -> d <> c.
Proof.
  intros Hl Hw d c Hd Hc. rewrite forallb_forall in Hw.
  apply (ref_char_stop lit c Hl); [apply space_not_ref; apply Hw; exact Hc | exact Hd].
Qed.

Lemma occurs_color_scan_back (name : text) (has_arg : bool) (a0 : ascii) (l : text) :
  (forall d, In d (str "ColorManager." ++ name ++ ["("]) -> d <> a0) ->
  (forall d, In d (str "this." ++ name) -> d <> a0) ->
  forallb ref_char (a0 :: l) = true ->
  (forall p, no_C_after_break p (a0 :: l) = true) ->
  forall s prev,
    occurs (a0 :: l) prev (color_scan name has_arg prev s) = true ->
    occurs (a0 :: l) prev s = true.
Proof.
  intros HX HXin Href HC.
  assert (Hcl : forall d, In d (a0 :: l) -> d <> ")")
    by (apply ref_char_stop; [exact Href | reflexivity]).
  assert (Hop : forall d, In d (a0 :: l) -> d <> "(")
    by (apply ref_char_stop; [exact Href | reflexivity]).
  assert (Hsp : forall ws, forallb is_space ws = true -> forall c, In c ws -> c <> a0).
  { intros ws Hw c Hc E. subst c.
    exact (spaces_stop _ _ Href Hw a0 a0 (or_introl eq_refl) Hc eq_refl). }
  induction s as [s IH] using text_length_ind. intros prev H.
  destruct (color_scan_cases name has_arg prev s)
    as [[-> E] | [(ws1 & ws2 & arg & ws3 & rest & -> & Hb & H1 & H2 & H3 & E)
                 | (c & s' & -> & E)]].
  - rewrite E in H. discriminate H.
  - rewrite E in H. clear E.
    (* the closing side of the input call: blanks, then the bracket *)
    assert (Hend : exists c0 b, ws3 ++ [")"] = c0 :: b /\ ref_char c0 = false /\
                                word_opt (Some c0) = false /\
                                (forall d, In d b -> d <> a0) /\
                                last_of b (Some c0) = Some ")").
    { destruct ws3 as [|w ws3].
      - exists ")", []. repeat split; try reflexivity. intros d [].
      - exists w, (ws3 ++ [")"]). cbn [forallb] in H3. apply andb_true_iff in H3.
        destruct H3 as [Hw H3]. split; [reflexivity|].
        split; [apply space_not_ref; exact Hw|].
        split; [cbn [word_opt]; destruct (is_word w) eqn:Ew; [|reflexivity];
                rewrite (word_not_space w Ew) in Hw; discriminate|].
        split; [|apply last_of_snoc].
        intros d Hd. apply in_app_or in Hd. destruct Hd as [Hd|[<-|[]]].
        + exact (Hsp ws3 H3 d Hd).
        + intro Ex. apply (Hcl a0 (or_introl eq_refl)). symmetry. exact Ex. }
    destruct Hend as (c0 & b & Hend & Hc0 & Hw0 & Hbfree & Hblast).
    assert (Hstop0 : forall d, In d (a0 :: l) -> d <> c0) by (apply ref_char_stop; assumption).
    unfold manager_call in H.
    replace (str "ColorManager." ++ name ++ "(" :: arg ++ [")"] ++ color_scan name has_arg (Some ")") rest)
      with ((str "ColorManager." ++ name ++ ["("]) ++ arg ++ ")" :: color_scan name has_arg (Some ")") rest)
      in H by (reassoc; reflexivity).
    replace ((str "ColorManager." ++ name ++ "(" :: arg ++ [")"]) ++ color_scan name has_arg (Some ")") rest)
      with ((str "ColorManager." ++ name ++ ["("]) ++ arg ++ ")" :: color_scan name has_arg (Some ")") rest)
      in H by (reassoc; reflexivity).
    rewrite (occurs_pass a0 l _ _ HX) in H.
    rewrite (occurs_stop a0 l ")" c0 _ (fun d Hd => conj (Hcl d Hd) (Hstop0 d Hd))
                         (eq_sym Hw0)) in H.
    unfold call_text.
    replace (((str "this." ++ name) ++ ws1 ++ "(" :: ws2 ++ arg ++ ws3 ++ [")"]) ++ rest)
      with (((str "this." ++ name) ++ ws1 ++ "(" :: ws2) ++ arg ++ (ws3 ++ [")"]) ++ rest)
      by (reassoc; reflexivity).
    rewrite Hend. cbn [app].
    rewrite (occurs_pass a0 l ((str "this." ++ name) ++ ws1 ++ "(" :: ws2)).
    2:{ intros d Hd. apply in_app_or in Hd. destruct Hd as [Hd|Hd]; [exact (HXin d Hd)|].
        apply in_app_or in Hd. destruct Hd as [Hd|[<-|Hd]].
        - exact (Hsp ws1 H1 d Hd).
        - intro Ex. apply (Hop a0 (or_introl eq_refl)). symmetry. exact Ex.
        - exact (Hsp ws2 H2 d Hd). }
    rewrite (occurs_stop a0 l c0 c0 _ (fun d Hd => conj (Hstop0 d Hd) (Hstop0 d Hd)) eq_refl).
    apply orb_true_iff in H. apply orb_true_iff. destruct H as [H|H].
    + left.
      rewrite (occurs_prev_class a0 l _ (last_of (str "ColorManager." ++ name ++ ["("]) prev));
        [exact H|].
      assert (Hin : word_opt (last_of ((str "this." ++ name) ++ ws1 ++ "(" :: ws2) prev) = false).
      { rewrite 2 last_of_app. rewrite last_of_cons. apply last_of_spaces; [exact H2 | reflexivity]. }
      assert (Hout : word_opt (last_of (str "ColorManager." ++ name ++ ["("]) prev) = false).
      { rewrite 2 last_of_app. reflexivity. }
      rewrite Hin, Hout. reflexivity.
    + right. rewrite (occurs_pass a0 l b _ Hbfree), Hblast.
      apply IH; [|exact H]. unfold call_text. lens. lia.
  - pose proof (occ_color_scan_back name has_arg a0 l prev (c :: s') (HC prev)) as Hocc.
    rewrite E in H, Hocc. cbn [occurs] in H |- *.
    apply orb_true_iff in H. apply orb_true_iff. destruct H as [H|H].
    + left. exact (Hocc H).
    + right. apply IH; [simpl; lia | exact H].
Qed.

(** What the later stages need of a catalogued reference and of the
    names of the call patterns. *)
Lemma methods_refs :
  Forall (fun m => method_ok m = true /\
                   forallb ref_char (old_owner ++ m) = true /\
                   forall p, no_C_after_break p (old_owner ++ m) = true)
         methods_catalog.
Proof. repeat (constructor; [repeat split; intros; reflexivity|]). constructor. Qed.

Lemma color_names_free :
  Forall (fun p => one_of (str "ColorManager." ++ fst p ++ ["("]) "W" = false /\
                   one_of (str "this." ++ fst p) "W" = false)
         color_names.
Proof. repeat constructor. Qed.

Lemma colors_stage_keeps_absent (m : text) (s : text) (keep : bool) (s3 : text) (c3 : list text) :
  In m methods_catalog ->
  colors_stage s keep = Some (s3, c3) ->
  occurs (old_owner ++ m) None s3 = true -> occurs (old_owner ++ m) None s = true.
Proof.
  intros Hm Hrun. unfold colors_stage in Hrun.
  destruct keep; [injection Hrun as <- _; auto|].
  pose proof methods_refs as Hr. rewrite Forall_forall in Hr.
  destruct (Hr m Hm) as (Hok & Href & HC).
  apply (fold_opt_inv substitute_step
           (fun acc => occurs (old_owner ++ m) None (fst acc) = true ->
                       occurs (old_owner ++ m) None s = true)
           color_catalog) with (s := (s, [])) (s' := (s3, c3)); [|auto|exact Hrun].
  intros e acc acc' Hin Hacc Hstep.
  rewrite color_catalog_entries in Hin. apply in_map_iff in Hin.
  destruct Hin as ([name has_arg] & <- & Hin). cbn [fst snd] in Hstep.
  pose proof color_names_compile as Hc. rewrite Forall_forall in Hc.
  pose proof color_names_free as Hf. rewrite Forall_forall in Hf.
  specialize (Hc _ Hin). destruct (Hf _ Hin) as [Hf1 Hf2]. cbn [fst snd] in Hc, Hf1, Hf2.
  unfold substitute_step in Hstep. rewrite Hc in Hstep.
  pose proof (sub_scan_text (color_regex name has_arg) (expand (color_template name has_arg))
                            (never_empty_color name has_arg) (fst acc) None 0) as Hsub.
  destruct (sub_scan _ _ None (fst acc) 0) as [out n]. cbn [fst] in Hsub.
  destruct (Nat.ltb 0 n); injection Hstep as <-; [|exact Hacc].
  cbn [fst]. intro H. apply Hacc. rewrite Hsub in H.
  rewrite old_ref_shape in *.
  apply (occurs_color_scan_back name has_arg "W" (old_tail ++ m)).
  - intros d Hd. exact (one_of_false _ _ d Hf1 Hd).
  - intros d Hd. exact (one_of_false _ _ d Hf2 Hd).
  - exact Href.
  - exact HC.
  - exact H.
Qed.

Lemma annotation_keeps_absent (m : text) (s : text) :
  In m methods_catalog ->
  occurs (old_owner ++ m) None (insert_before_occurrences plugin_command todo None s) = true ->
  occurs (old_owner ++ m) None s = true.
Proof.
  intros Hm H.
  pose proof methods_refs as Hr. rewrite Forall_forall in Hr.
  destruct (Hr m Hm) as (Hok & Href & _).
  rewrite old_ref_shape in *.
  apply (occurs_insert_back "W" "G" nl (old_tail ++ m) (tl plugin_command) (tl todo)).
  - apply ref_char_stop; [exact Href | reflexivity].
  - intro p. rewrite <- old_ref_shape. apply ref_last_word. exact Hok.
  - reflexivity.
  - discriminate.
  - intros d Hd. eapply (one_of_false todo); [reflexivity | exact Hd].
  - exact H.
Qed.

(** No catalogued old reference stands in the engine's output. *)
Lemma convert_stages_no_old_occurs (source : text) (keep : bool) (out : text)
      (report : list text) (m : text) :
  convert_stages source keep = Some (out, report) ->
  In m methods_catalog -> occurs (old_owner ++ m) None out = false.
Proof.
  unfold convert_stages. destruct (header_stage source) as [s1 changed].
  rewrite <- (migrate_empty s1 None) at 1.
  rewrite (migrate_steps s1 methods_catalog [] []);
    [| reflexivity | exact methods_ok | exact methods_distinct | reflexivity].
  cbn [app].
  destruct (colors_stage (migrate methods_catalog None s1) keep) as [[s3 c3]|] eqn:E3;
    [|discriminate].
  rewrite annotate_steps. intros H Hin. injection H as <- _.
  apply not_true_is_false. intro H.
  apply (annotation_keeps_absent m s3 Hin) in H.
  apply (colors_stage_keeps_absent m _ keep s3 c3 Hin E3) in H.
  rewrite (occurs_migrate methods_catalog m methods_ok
                          (all_ok_In methods_catalog m methods_ok Hin)) in H.
  apply mem_In in Hin. rewrite Hin in H. rewrite andb_false_r in H. discriminate.
Qed.

Lemma convert_stages_no_old_ref (source : text) (keep : bool) (out : text) (report : list text) :
  convert_stages source keep = Some (out, report) ->
  forallb (fun m => negb (pattern_occurs (window_base_pattern m) out)) methods_catalog = true.
Proof.
  intro E. apply forallb_forall. intros m Hin. apply negb_true_iff.
  unfold pattern_occurs.
  pose proof methods_compile as Hc. rewrite Forall_forall in Hc.
  destruct (Hc m Hin) as [-> _]. unfold re_search.
  rewrite search_word_pattern by (rewrite old_ref_shape; discriminate).
  exact (convert_stages_no_old_occurs source keep out report m E Hin).
Qed.

(** C2. The symbol migration stage replaces, in one pass, every old
    qualified reference to a catalogued method that stands between word
    boundaries by the new qualified reference, and reports each method
    that occurred in its input once, in catalogue order; afterwards no
    catalogued old reference occurs between word boundaries, neither in
    the stage's output nor, the later stages bringing none back, in the
    output of the whole conversion, with either setting of the skip
    flag.  [Window_Base.prototype.drawActorHp = function(){}] becomes
    [Window_StatusBase.prototype.drawActorHp = function(){}], with the
    line naming the two references, by the stage and by the conversion. *)
Theorem symbol_migration_replaces_all (source : text) :
  eval (replace_window_base_methods source)
  = Some (migrate methods_catalog None source,
          map window_base_change
              (filter (fun m => occurs (old_owner ++ m) None source) methods_catalog)) /\
  forallb (fun m => negb (pattern_occurs (window_base_pattern m)
                                         (migrate methods_catalog None source)))
          methods_catalog = true /\
  (forall keep,
      exists out report,
        eval (convert_text source keep) = Some (out, report) /\
        forallb (fun m => negb (pattern_occurs (window_base_pattern m) out))
                methods_catalog = true) /\
  eval (replace_window_base_methods draw_actor_hp_source)
  = Some (str "Window_StatusBase.prototype.drawActorHp = function(){}",
          [str "Window_Base.prototype.drawActorHp -> Window_StatusBase.prototype.drawActorHp"]) /\
  eval (convert_text draw_actor_hp_source false)
  = Some (str "Window_StatusBase.prototype.drawActorHp = function(){}",
          [str "Window_Base.prototype.drawActorHp -> Window_StatusBase.prototype.drawActorHp"]).
Proof.
  split; [|split; [|split; [|split; reflexivity]]].
  - unfold eval. rewrite replace_window_base_methods_run. cbn [fst].
    rewrite <- (migrate_empty source None) at 1.
    rewrite (migrate_steps source methods_catalog [] []);
      [reflexivity | reflexivity | exact methods_ok | exact methods_distinct | reflexivity].
  - apply forallb_forall. intros m Hin. apply negb_true_iff.
    unfold pattern_occurs.
    pose proof methods_compile as Hc. rewrite Forall_forall in Hc.
    destruct (Hc m Hin) as [-> _]. unfold re_search.
    rewrite search_word_pattern by (rewrite old_ref_shape; discriminate).
    rewrite (occurs_migrate methods_catalog m methods_ok
                            (all_ok_In methods_catalog m methods_ok Hin)).
    apply mem_In in Hin. rewrite Hin. apply andb_false_r.
  - intro keep. unfold eval. rewrite convert_text_run. cbn [fst].
    destruct (convert_stages_total source keep) as (out & report & E).
    exists out, report. split; [exact E|].
    exact (convert_stages_no_old_ref source keep out report E).
Qed.

(** ** A rule whose pattern is absent does nothing *)

Lemma migrate_stage_run (s : text) :
  fold_opt migrate_step methods_catalog (s, [])
  = Some (migrate methods_catalog None s,
          map window_base_change
              (filter (fun m => occurs (old_owner ++ m) None s) methods_catalog)).
Proof.
  rewrite <- (migrate_empty s None) at 1.
  rewrite (migrate_steps s methods_catalog [] []);
    [reflexivity | reflexivity | exact methods_ok | exact methods_distinct | reflexivity].
Qed.

Lemma filter_nil {A} (f : A -> bool) (l : list A) :
  filter f l = [] <-> forall x, In x l -> f x = false.
Proof.
  induction l as [|a l IH]; cbn [filter]; [split; [intros _ x [] | reflexivity]|].
  destruct (f a) eqn:E; split.
  - discriminate.
  - intro H. rewrite (H a (or_introl eq_refl)) in E. discriminate.
  - intros H x [<-|Hx]; [exact E | apply IH; assumption].
  - intro H. apply IH. intros x Hx. apply H. right. exact Hx.
Qed.

Lemma find_filter {A} (f g : A -> bool) (l : list A) :
  (forall x, In x l -> f x = true -> g x = true) -> find f (filter g l) = find f l.
Proof.
  induction l as [|x l IH]; intro H; [reflexivity|].
  cbn [filter find].
  assert (IH' : find f (filter g l) = find f l)
    by (apply IH; intros y Hy; apply H; right; exact Hy).
  destruct (g x) eqn:Eg.
  - cbn [find]. rewrite IH'. reflexivity.
  - destruct (f x) eqn:Ef; [|exact IH'].
    rewrite (H x (or_introl eq_refl) Ef) in Eg. discriminate Eg.
Qed.

Lemma occ_occurs (lit : text) (pre s : text) :
  lit <> [] ->
  occ lit (last_of pre None) s = true -> occurs lit None (pre ++ s) = true.
Proof.
  intros Hne H. apply occurs_app_r. destruct s as [|c s].
  - rewrite occ_nil in H by exact Hne. discriminate H.
  - cbn [occurs]. rewrite H. reflexivity.
Qed.

(** The methods whose reference does not stand in the text can be left
    out of the pass. *)
Lemma migrate_present (M : list text) (source : text) :
  forall s pre skip,
    source = pre ++ s ->
    scan_with (migrate_hit M) (last_of pre None) s skip
    = scan_with (migrate_hit (filter (fun m => occurs (old_owner ++ m) None source) M))
                (last_of pre None) s skip.
Proof.
  induction s as [|c s IH]; intros pre skip Hs; [reflexivity|].
  assert (Hnext : source = (pre ++ [c]) ++ s) by (rewrite <- app_assoc; exact Hs).
  assert (Hlast : last_of (pre ++ [c]) None = Some c) by apply last_of_snoc.
  pose proof (fun k => IH (pre ++ [c]) k Hnext) as IH'. rewrite Hlast in IH'.
  cbn [scan_with]. destruct skip as [|j]; [|apply IH'].
  assert (Hhit : migrate_hit (filter (fun m => occurs (old_owner ++ m) None source) M)
                             (last_of pre None) (c :: s)
                 = migrate_hit M (last_of pre None) (c :: s)).
  { unfold migrate_hit, hit_of. rewrite find_filter; [reflexivity|].
    intros m _ Ho. rewrite Hs. apply occ_occurs; [unfold old_owner; discriminate | exact Ho]. }
  rewrite Hhit. destruct (migrate_hit M (last_of pre None) (c :: s)) as [[len rep]|].
  - rewrite IH'. reflexivity.
  - rewrite IH'. reflexivity.
Qed.

Lemma method_pattern_occurs (m source : text) :
  In m methods_catalog ->
  pattern_occurs (window_base_pattern m) source = occurs (old_owner ++ m) None source.
Proof.
  intro Hm. pose proof methods_compile as Hc. rewrite Forall_forall in Hc.
  destruct (Hc m Hm) as [Hre _]. unfold pattern_occurs. rewrite Hre.
  unfold re_search. rewrite search_word_pattern by (unfold old_owner; discriminate).
  destruct (occurs (old_owner ++ m) None source); reflexivity.
Qed.

Lemma migrate_stage_present (source : text) :
  fold_opt migrate_step methods_catalog (source, [])
  = Some (migrate (filter (fun m => pattern_occurs (window_base_pattern m) source)
                          methods_catalog) None source,
          map window_base_change
              (filter (fun m => pattern_occurs (window_base_pattern m) source)
                      methods_catalog)).
Proof.
  rewrite migrate_stage_run.
  rewrite (filter_ext_in (fun m => pattern_occurs (window_base_pattern m) source)
                         (fun m => occurs (old_owner ++ m) None source) methods_catalog)
    by (intros m Hm; apply method_pattern_occurs; exact Hm).
  unfold migrate. f_equal. f_equal.
  exact (migrate_present methods_catalog source source [] 0 eq_refl).
Qed.

Lemma substitute_step_absent (e : text * text) (acc : text * list text) :
  In e color_catalog -> pattern_occurs (fst e) (fst acc) = false ->
  substitute_step e acc = Some acc.
Proof.
  intros He Ho. unfold substitute_step.
  destruct (color_entry_compiles e He) as (r & tpl & Hc). rewrite Hc.
  unfold pattern_occurs in Ho. rewrite (compile_entry_regex _ _ _ Hc) in Ho.
  unfold re_search in Ho.
  destruct (search_from r None (fst acc) 0) eqn:Es; [discriminate|].
  rewrite (sub_scan_nomatch _ _ _ _ _ Es). reflexivity.
Qed.

Lemma annotate_stage_absent (source : text) :
  pattern_occurs (str "\bGame_Interpreter\.prototype\.pluginCommand\b") source = false ->
  fold_opt annotate_step signs_catalog (source, []) = Some (source, []).
Proof.
  intro Ho. cbn [fold_opt signs_catalog]. unfold annotate_step.
  unfold pattern_occurs in Ho. rewrite sign_compiles in *. cbn [fst]. rewrite Ho. reflexivity.
Qed.

(** C8. The engine is total: each of the four stages and [convert_text]
    return a result, for every source text and either setting of the
    skip flag; nothing raises.  A rule whose pattern is absent does
    nothing.  Without a header block the header stage returns the
    source and no change.  The symbol migration stage is the one pass
    over the methods whose pattern stands in the source, and reports
    those; with none it returns the source and no changes.  An entry of
    the call-pattern catalogue whose pattern is absent from the text it
    is applied to returns that text and the changes as they were, and
    so does the stage when no pattern is there.  The annotation stage
    returns the source and no changes where the hook is absent; and
    [convert_text] returns the source and an empty report where nothing
    is recognized. *)
Theorem convert_text_total (source : text) (keep : bool) :
  (exists r, eval (ensure_header_has_target_mz source) = Some r) /\
  (exists r, eval (replace_window_base_methods source) = Some r) /\
  (exists r, eval (replace_colors source keep) = Some r) /\
  (exists r, eval (annotate_plugin_command_todos source) = Some r) /\
  (exists out report, eval (convert_text source keep) = Some (out, report)) /\
  (re_search header_block_re source = None ->
   eval (ensure_header_has_target_mz source) = Some (source, false)) /\
  (let present :=
     filter (fun m => pattern_occurs (window_base_pattern m) source) methods_catalog in
   eval (replace_window_base_methods source)
   = Some (migrate present None source, map window_base_change present)) /\
  ((forall m, In m methods_catalog ->
              pattern_occurs (window_base_pattern m) source = false) ->
   eval (replace_window_base_methods source) = Some (source, [])) /\
  (forall e changes,
      In e color_catalog -> pattern_occurs (fst e) source = false ->
      eval (color_step e (source, changes)) = Some (source, changes)) /\
  ((forall e, In e color_catalog -> pattern_occurs (fst e) source = false) ->
   eval (replace_colors source keep) = Some (source, [])) /\
  ((forall sig, In sig signs_catalog -> pattern_occurs sig source = false) ->
   eval (annotate_plugin_command_todos source) = Some (source, [])) /\
  (recognized source = false -> eval (convert_text source keep) = Some (source, [])).
Proof.
  unfold eval.
  rewrite ensure_header_run, replace_window_base_methods_run, replace_colors_run,
    annotate_run, convert_text_run.
  cbn [fst].
  assert (H1 : re_search header_block_re source = None ->
               header_stage source = (source, false)).
  { intro H. unfold header_stage. rewrite H. reflexivity. }
  assert (H2 : (forall m, In m methods_catalog ->
                          pattern_occurs (window_base_pattern m) source = false) ->
               fold_opt migrate_step methods_catalog (source, []) = Some (source, [])).
  { intro H. rewrite migrate_stage_present.
    rewrite (proj2 (filter_nil _ methods_catalog)); [|exact H].
    cbn [map]. rewrite migrate_empty. reflexivity. }
  assert (H3 : (forall e, In e color_catalog -> pattern_occurs (fst e) source = false) ->
               colors_stage source keep = Some (source, [])).
  { intro H. unfold colors_stage. destruct keep; [reflexivity|].
    apply fold_opt_fixed. intros e He. apply substitute_step_absent; [exact He|].
    apply H. exact He. }
  assert (H4 : (forall sig, In sig signs_catalog -> pattern_occurs sig source = false) ->
               fold_opt annotate_step signs_catalog (source, []) = Some (source, [])).
  { intro H. apply annotate_stage_absent. apply H. left. reflexivity. }
  split; [eexists; reflexivity|].
  split; [apply migrate_stage_total|].
  split; [apply colors_stage_total|].
  split; [apply annotate_stage_total|].
  split; [apply convert_stages_total|].
  split; [intro H; rewrite (H1 H); reflexivity|].
  split; [apply migrate_stage_present|].
  split; [exact H2|].
  split.
  { intros e changes He Ho. rewrite color_step_run. cbn [fst].
    apply (substitute_step_absent e (source, changes) He Ho). }
  split; [exact H3|].
  split; [exact H4|].
  unfold recognized. intro H.
  apply orb_false_iff in H. destruct H as [H Hd].
  apply orb_false_iff in H. destruct H as [H Hc].
  apply orb_false_iff in H. destruct H as [Hh Hm].
  unfold convert_stages. rewrite H1.
  2:{ destruct (re_search header_block_re source); [discriminate Hh | reflexivity]. }
  rewrite H2 by (intros m Hin; exact (existsb_false_In _ _ m Hm Hin)).
  rewrite H3 by (intros e Hin; exact (existsb_false_In _ _ e Hc Hin)).
  rewrite H4 by (intros sig Hin; exact (existsb_false_In _ _ sig Hd Hin)).
  reflexivity.
Qed.

Lemma convert_text_total_witness :
  eval (ensure_header_has_target_mz (str "var a = this.x;")) = Some (str "var a = this.x;", false) /\
  eval (replace_window_base_methods (str "var a = this.x;")) = Some (str "var a = this.x;", []) /\
  eval (replace_colors (str "var a = this.x;") false) = Some (str "var a = this.x;", []) /\
  eval (annotate_plugin_command_todos (str "var a = this.x;")) = Some (str "var a = this.x;", []) /\
  eval (convert_text (str "var a = this.x;") false) = Some (str "var a = this.x;", []).
Proof.
  pose proof (convert_text_total (str "var a = this.x;") false)
    as (_ & _ & _ & _ & _ & H1 & _ & H2 & _ & H3 & H4 & H5).
  split; [apply H1; reflexivity|].
  split; [apply H2; intros m Hm; apply (existsb_false_In
                   (fun m => pattern_occurs (window_base_pattern m) (str "var a = this.x;"))
                   methods_catalog m);
          [reflexivity | exact Hm]|].
  split; [apply H3; intros e He; apply (existsb_false_In
                   (fun e => pattern_occurs (fst e) (str "var a = this.x;")) color_catalog e);
          [reflexivity | exact He]|].
  split; [apply H4; intros sig Hs; apply (existsb_false_In
                   (fun sig => pattern_occurs sig (str "var a = this.x;")) signs_catalog sig);
          [reflexivity | exact Hs]|].
  apply H5. reflexivity.
Defined.

(** ** The second pass

    What the symbol migration stage finds in text the engine has
    already converted. *)


Lemma linebreak_not_ref (c : ascii) : is_linebreak c = true -> ref_char c = false.
Proof. destruct c as [[] [] [] [] [] [] [] []]; intro H; first [reflexivity | discriminate H]. Qed.

Lemma stop_not_word (c : ascii) : ref_char c = false -> is_word c = false.
Proof. unfold ref_char. intro H. apply orb_false_iff in H. tauto. Qed.

(** A character no reference holds closes the text before it. *)
Lemma occurs_at_stop (a0 c0 : ascii) (l a b : text) prev :
  forallb ref_char (a0 :: l) = true -> ref_char c0 = false ->
  occurs (a0 :: l) prev (a ++ c0 :: b)
  = occurs (a0 :: l) prev (a ++ [nl]) || occurs (a0 :: l) (Some nl) b.
Proof.
  intros Href Hc.
  assert (Hw : word_opt (Some c0) = word_opt (Some nl))
    by (cbn [word_opt]; rewrite (stop_not_word c0 Hc); reflexivity).
  rewrite (occurs_stop a0 l c0 nl b
             (fun d Hd => conj (ref_char_stop _ c0 Href Hc d Hd)
                               (ref_char_stop _ nl Href eq_refl d Hd)) Hw).
  f_equal. apply occurs_prev_class. exact Hw.
Qed.

Lemma occurs_one_stop (a0 c0 : ascii) (l : text) prev :
  forallb ref_char (a0 :: l) = true -> ref_char c0 = false ->
  occurs (a0 :: l) prev [c0] = false.
Proof.
  intros Href Hc. cbn [occurs]. rewrite occ_head; [reflexivity|].
  intro E. apply (ref_char_stop _ c0 Href Hc a0 (or_introl eq_refl)). symmetry. exact E.
Qed.

Lemma occurs_join (a0 : ascii) (l : text) :
  forallb ref_char (a0 :: l) = true ->
  forall lines q,
    word_opt q = false ->
    occurs (a0 :: l) q (join [nl] lines ++ [nl]) = existsb (in_line (a0 :: l)) lines.
Proof.
  intros Href. induction lines as [|p [|p' rest] IH]; intros q Hq.
  - apply occurs_one_stop; [exact Href | reflexivity].
  - cbn [join existsb]. rewrite orb_false_r. unfold in_line.
    apply occurs_prev_class. exact Hq.
  - rewrite join_cons2.
    change (existsb (in_line (a0 :: l)) (p :: p' :: rest))
      with (in_line (a0 :: l) p || existsb (in_line (a0 :: l)) (p' :: rest)).
    rewrite <- (IH (Some nl)) by reflexivity.
    rewrite <- !app_assoc. cbn [app].
    rewrite (occurs_at_stop a0 nl l p _ q Href eq_refl). f_equal.
    unfold in_line. apply occurs_prev_class. exact Hq.
Qed.

Lemma existsb_list_insert {A} (f : A -> bool) (i : nat) (x : A) (l : list A) :
  existsb f (list_insert i x l) = f x || existsb f l.
Proof.
  unfold list_insert. rewrite existsb_app. cbn [existsb].
  rewrite <- (firstn_skipn i l) at 3. rewrite existsb_app.
  destruct (existsb f (firstn i l)), (f x); reflexivity.
Qed.

Lemma in_line_free (a0 : ascii) (l u : text) :
  forallb ref_char (a0 :: l) = true ->
  (forall d, In d u -> d <> a0) -> in_line (a0 :: l) u = false.
Proof.
  intros Href Hu. unfold in_line. rewrite (occurs_pass a0 l u [nl] Hu).
  apply occurs_one_stop; [exact Href | reflexivity].
Qed.

Lemma occurs_splitlines (a0 : ascii) (l : text) :
  forallb ref_char (a0 :: l) = true ->
  forall s cur,
    existsb (in_line (a0 :: l)) (splitlines_from cur s)
    = occurs (a0 :: l) (Some nl) (rev cur ++ s ++ [nl]).
Proof.
  intros Href. induction s as [|c s IH]; intro cur.
  - cbn [splitlines_from app]. destruct cur as [|x cur].
    + symmetry. apply occurs_one_stop; [exact Href | reflexivity].
    + cbn [existsb]. rewrite orb_false_r. reflexivity.
  - cbn [splitlines_from]. destruct (is_linebreak c) eqn:El.
    + pose proof (linebreak_not_ref c El) as Hc.
      cbn [app]. rewrite (occurs_at_stop a0 c l (rev cur) _ _ Href Hc).
      assert (Hsame : forall t, existsb (in_line (a0 :: l)) (rev cur :: t)
                                = occurs (a0 :: l) (Some nl) (rev cur ++ [nl])
                                  || existsb (in_line (a0 :: l)) t)
        by reflexivity.
      destruct (Ascii.eqb c cr); [destruct s as [|d s']|].
      * rewrite Hsame, IH. reflexivity.
      * destruct (Ascii.eqb_spec d nl) as [->|].
        -- rewrite Hsame. specialize (IH []).
           change (splitlines_from [] (nl :: s')) with ([] :: splitlines_from [] s') in IH.
           cbn [existsb rev app] in IH. cbn [app]. rewrite <- IH.
           unfold in_line at 2. cbn [app].
           rewrite (occurs_one_stop a0 nl l _ Href eq_refl). reflexivity.
        -- rewrite Hsame, IH. reflexivity.
      * rewrite Hsame, IH. reflexivity.
    + rewrite IH. cbn [rev app]. rewrite <- app_assoc. reflexivity.
Qed.

Lemma add_target_mz_keeps (a0 : ascii) (l header : text) :
  forallb ref_char (a0 :: l) = true ->
  (forall d, In d target_marker -> d <> a0) ->
  occurs (a0 :: l) (Some nl) (add_target_mz header ++ [nl])
  = occurs (a0 :: l) (Some nl) (header ++ [nl]).
Proof.
  intros Href Hm. unfold add_target_mz.
  destruct (contains (str "@target") header); [reflexivity|].
  destruct (splitlines header) as [|l0 lines] eqn:El; [reflexivity|].
  cbv zeta. rewrite (occurs_join a0 l Href) by reflexivity.
  rewrite existsb_list_insert, (in_line_free a0 l target_marker Href Hm).
  cbn [orb]. rewrite <- El. unfold splitlines.
  rewrite (occurs_splitlines a0 l Href). reflexivity.
Qed.

(** The block the header stage puts back starts and ends like the one
    it took out: with a character no reference holds, and with the
    slash of the closing mark. *)
Lemma add_target_mz_shape (x : text) :
  (exists y, x = y ++ close_mark) ->
  exists c0 mid, ref_char c0 = false /\ add_target_mz (open_mark ++ x) = c0 :: mid ++ ["/"].
Proof.
  intros [y ->].
  assert (Hh : open_mark ++ y ++ close_mark = "/" :: (str "*:" ++ y ++ ["*"]) ++ ["/"]).
  { unfold open_mark, close_mark. simpl. rewrite <- app_assoc. reflexivity. }
  unfold add_target_mz.
  destruct (contains (str "@target") (open_mark ++ y ++ close_mark));
    [exists "/", (str "*:" ++ y ++ ["*"]); split; [reflexivity | exact Hh]|].
  destruct (splitlines (open_mark ++ y ++ close_mark)) as [|l0 rest] eqn:El;
    [exists "/", (str "*:" ++ y ++ ["*"]); split; [reflexivity | exact Hh]|].
  cbv zeta.
  (* the first line starts with the opening mark *)
  assert (H0 : exists t0, l0 = open_mark ++ t0).
  { unfold splitlines in El. rewrite splitlines_from_line in El by reflexivity.
    destruct (splitlines_from_hd (y ++ close_mark) (rev open_mark ++ []) ltac:(discriminate))
      as (t & more & Ht).
    rewrite Ht in El. injection El as <- _. exists t. reflexivity. }
  destruct H0 as [t0 ->].
  (* the last line ends with the closing mark *)
  destruct (splitlines_last (open_mark ++ y ++ close_mark) [])
    as (ls & ll & Hl).
  { exists (open_mark ++ y). cbn [rev app]. rewrite <- app_assoc. reflexivity. }
  unfold splitlines in El. rewrite El in Hl.
  remember (open_mark ++ t0) as l0 eqn:E0.
  destruct rest as [|l1 rest].
  - destruct ls as [|z ls]; [|destruct ls; discriminate Hl].
    injection Hl as Hl.
    cbn [length Nat.ltb Nat.leb list_insert firstn skipn app join].
    exists " ", (tl target_marker ++ nl :: ll ++ ["*"]). split; [reflexivity|].
    rewrite Hl. unfold target_marker, close_mark. simpl. reassoc. reflexivity.
  - destruct ls as [|z ls]; [discriminate Hl|].
    injection Hl as _ Hl.
    cbn [length Nat.ltb Nat.leb list_insert firstn skipn app].
    rewrite join_cons2, Hl.
    destruct (join_last [nl] (ll ++ close_mark) (target_marker :: ls)) as [p Hp].
    exists "/", (str "*:" ++ t0 ++ [nl] ++ p ++ ll ++ ["*"]). split; [reflexivity|].
    transitivity (l0 ++ [nl] ++ p ++ ll ++ close_mark);
      [f_equal; f_equal; exact Hp|].
    subst l0. unfold open_mark, close_mark. simpl. reassoc. reflexivity.
Qed.

(** Where a block of that shape stands, a reference stands before it,
    in it or after it. *)
Lemma occurs_block (a0 c0 : ascii) (l mid pre post : text) prev :
  forallb ref_char (a0 :: l) = true -> ref_char c0 = false ->
  occurs (a0 :: l) prev (pre ++ (c0 :: mid ++ ["/"]) ++ post)
  = occurs (a0 :: l) prev (pre ++ [nl])
    || occurs (a0 :: l) (Some nl) ((c0 :: mid ++ ["/"]) ++ [nl])
    || occurs (a0 :: l) (Some nl) post.
Proof.
  intros Href Hc.
  assert (Hmid : forall z, occurs (a0 :: l) (Some nl) (mid ++ "/" :: z)
                           = occurs (a0 :: l) (Some nl) (mid ++ [nl])
                             || occurs (a0 :: l) (Some nl) z)
    by (intro z; apply occurs_at_stop; [exact Href | reflexivity]).
  replace (pre ++ (c0 :: mid ++ ["/"]) ++ post) with (pre ++ c0 :: mid ++ "/" :: post)
    by (cbn [app]; rewrite <- app_assoc; reflexivity).
  rewrite (occurs_at_stop a0 c0 l pre _ prev Href Hc), Hmid.
  replace ((c0 :: mid ++ ["/"]) ++ [nl]) with ([] ++ c0 :: mid ++ "/" :: [nl])
    by (cbn [app]; rewrite <- app_assoc; reflexivity).
  rewrite (occurs_at_stop a0 c0 l [] _ (Some nl) Href Hc), Hmid.
  cbn [app]. rewrite !(occurs_one_stop a0 nl l _ Href eq_refl).
  rewrite orb_false_r. cbn [orb]. rewrite orb_assoc. reflexivity.
Qed.

Lemma header_stage_keeps_refs (a0 : ascii) (l source : text) :
  forallb ref_char (a0 :: l) = true ->
  (forall d, In d target_marker -> d <> a0) ->
  occurs (a0 :: l) None (fst (header_stage source)) = occurs (a0 :: l) None source.
Proof.
  intros Href Hm. unfold header_stage.
  destruct (re_search header_block_re source) as [[[start len] gs]|] eqn:Hs; [|reflexivity].
  destruct (header_block_found source start len gs Hs)
    as (pre & x & post & Hsrc & -> & -> & -> & Hy & _).
  assert (Hhead : firstn (length (open_mark ++ x)) (skipn (length pre) source)
                  = open_mark ++ x).
  { rewrite Hsrc, skipn_app_length. apply firstn_app_length. }
  assert (Hpre : firstn (length pre) source = pre)
    by (rewrite Hsrc; apply firstn_app_length).
  assert (Hpost : skipn (length pre + length (open_mark ++ x)) source = post).
  { rewrite Hsrc, app_assoc, <- length_app. apply skipn_app_length. }
  cbv zeta. rewrite Hhead, Hpre, Hpost.
  destruct (negb (text_eqb (add_target_mz (open_mark ++ x)) (open_mark ++ x)));
    [|reflexivity].
  cbn [fst]. rewrite Hsrc.
  pose proof (add_target_mz_keeps a0 l (open_mark ++ x) Href Hm) as Hk.
  destruct (add_target_mz_shape x Hy) as (c0 & mid & Hc0 & Hn).
  destruct Hy as [y ->].
  assert (Hh : open_mark ++ y ++ close_mark = "/" :: (str "*:" ++ y ++ ["*"]) ++ ["/"]).
  { unfold open_mark, close_mark. simpl. rewrite <- app_assoc. reflexivity. }
  rewrite Hn in *. rewrite Hh in *.
  rewrite (occurs_block a0 c0 l mid pre post None Href Hc0).
  rewrite (occurs_block a0 "/" l _ pre post None Href eq_refl).
  rewrite Hk. reflexivity.
Qed.

(** Where no catalogued reference stands, the stage has nothing to do. *)
Lemma migrate_steps_fixed (t : text) :
  forall l ch,
    (forall m, In m l -> occurs (old_owner ++ m) None t = false) ->
    fold_opt migrate_step l (t, ch) = Some (t, ch).
Proof.
  induction l as [|m l IH]; intros ch H; [reflexivity|].
  cbn [fold_opt]. unfold migrate_step at 1. unfold re_search.
  rewrite search_word_pattern by (rewrite old_ref_shape; discriminate).
  rewrite (H m (or_introl eq_refl)).
  apply IH. intros x Hx. apply H. right. exact Hx.
Qed.

Lemma header_stage_no_old_occurs (t : text) (m : text) :
  In m methods_catalog ->
  occurs (old_owner ++ m) None t = false ->
  occurs (old_owner ++ m) None (fst (header_stage t)) = false.
Proof.
  intros Hin H.
  pose proof methods_refs as Hr. rewrite Forall_forall in Hr.
  destruct (Hr m Hin) as (_ & Href & _).
  rewrite old_ref_shape in *.
  rewrite (header_stage_keeps_refs "W" (old_tail ++ m) t Href); [exact H|].
  intros d Hd. eapply (one_of_false target_marker); [reflexivity | exact Hd].
Qed.

Lemma pattern_heads :
  Forall (fun e => hd_error (fst e) = Some "\"%char) color_catalog.
Proof. repeat constructor. Qed.

Lemma window_base_change_head (line : text) :
  is_window_base_change line = true -> hd_error line = Some "W"%char.
Proof.
  unfold is_window_base_change. intro H. apply existsb_exists in H.
  destruct H as (m & _ & H). apply text_eqb_eq in H. subst line. reflexivity.
Qed.

(** X17.  The symbol migration half of the second pass.  In the output of
    [convert_text] no catalogued old reference stands between word
    boundaries, and the header stage brings none in; so on a second
    pass over that output, with the same flag, the symbol migration
    stage returns its input and no changes, and the report of the
    second pass has no line of that stage. *)
Theorem second_pass_migration_silent (source : text) (keep : bool) :
  exists out report,
    eval (convert_text source keep) = Some (out, report) /\
    eval (replace_window_base_methods out) = Some (out, []) /\
    (forall s1 changed,
        eval (ensure_header_has_target_mz out) = Some (s1, changed) ->
        eval (replace_window_base_methods s1) = Some (s1, [])) /\
    exists out2 report2,
      eval (convert_text out keep) = Some (out2, report2) /\
      existsb is_window_base_change report2 = false.
Proof.
  destruct (convert_stages_total source keep) as (out & report & E).
  exists out, report. rewrite eval_convert_text.
  split; [exact E|].
  pose proof (fun m => convert_stages_no_old_occurs source keep out report m E) as Hout.
  assert (H1 : forall m, In m methods_catalog ->
                         occurs (old_owner ++ m) None (fst (header_stage out)) = false).
  { intros m Hm. apply header_stage_no_old_occurs; [exact Hm | apply Hout; exact Hm]. }
  split; [|split].
  - unfold eval. rewrite replace_window_base_methods_run. cbn [fst].
    apply migrate_steps_fixed. exact Hout.
  - intros s1 changed Hs. unfold eval in Hs |- *.
    rewrite ensure_header_run in Hs. cbn [fst] in Hs. injection Hs as Hs.
    rewrite replace_window_base_methods_run. cbn [fst].
    apply migrate_steps_fixed. rewrite Hs in H1. exact H1.
  - rewrite eval_convert_text. unfold convert_stages.
    destruct (header_stage out) as [s1 changed]. cbn [fst] in H1.
    rewrite (migrate_steps_fixed s1 methods_catalog [] H1).
    destruct (colors_stage s1 keep) as [[s3 c3]|] eqn:E3;
      [|destruct (colors_stage_total s1 keep) as [r Hr]; congruence].
    destruct (fold_opt annotate_step signs_catalog (s3, [])) as [[s4 c4]|] eqn:E4;
      [|destruct (annotate_stage_total s3 []) as [r Hr]; congruence].
    eexists. eexists. split; [reflexivity|].
    apply not_true_is_false. intro Hex. apply existsb_exists in Hex.
    destruct Hex as (line & Hin & Hline). apply window_base_change_head in Hline.
    rewrite app_nil_r in Hin.
    apply in_app_or in Hin. destruct Hin as [Hin|Hin];
      [apply in_app_or in Hin; destruct Hin as [Hin|Hin]|].
    + destruct changed; [|destruct Hin]. destruct Hin as [<-|[]]. discriminate Hline.
    + unfold colors_stage in E3. destruct keep; [injection E3 as _ <-; destruct Hin|].
      apply colors_stage_lines in E3. destruct E3 as (extra & Hex & Hall).
      cbn [snd app] in Hex. subst c3. rewrite Forall_forall in Hall.
      destruct (Hall line Hin) as (e & n & He & ->).
      pose proof pattern_heads as Hp. rewrite Forall_forall in Hp. specialize (Hp e He). cbv beta in Hp.
      destruct e as [[|c p] repl]; cbn [fst snd] in *; [discriminate Hp|].
      unfold color_change in Hline. cbn [app hd_error] in Hline, Hp. congruence.
    + apply annotate_stage_lines in E4. destruct E4 as [-> | ->]; [destruct Hin|].
      destruct Hin as [<-|[]]. discriminate Hline.
Qed.

(** * Further properties of the code *)

(** ** The marker line *)

Lemma splitlines_from_nil (s cur : text) :
  splitlines_from cur s = [] -> s = [] /\ cur = [].
Proof.
  destruct s as [|c s]; cbn [splitlines_from].
  - destruct cur; [auto | discriminate].
  - destruct (is_linebreak c); [discriminate|].
    destruct (splitlines_from_hd s (c :: cur) ltac:(discriminate)) as (t & more & ->).
    discriminate.
Qed.

Lemma contains_join (n sep x : text) (lines : list text) :
  In x lines -> contains n x = true -> contains n (join sep lines) = true.
Proof.
  intros Hin Hx. induction lines as [|p [|q rest] IH]; [destruct Hin| |].
  - destruct Hin as [->|[]]. exact Hx.
  - rewrite join_cons2. destruct Hin as [->|Hin].
    + apply contains_app_l. exact Hx.
    + apply contains_app_r. apply contains_app_r. apply IH. exact Hin.
Qed.

Lemma In_list_insert {A} (i : nat) (x : A) (l : list A) : In x (list_insert i x l).
Proof. unfold list_insert. apply in_or_app. right. left. reflexivity. Qed.

Lemma add_target_mz_has_target (h : text) :
  h <> [] -> contains (str "@target") (add_target_mz h) = true.
Proof.
  intro Hne. unfold add_target_mz.
  destruct (contains (str "@target") h) eqn:E; [exact E|].
  destruct (splitlines h) as [|l0 lines] eqn:El.
  - apply splitlines_from_nil in El. destruct El as [-> _]. congruence.
  - cbv zeta. apply (contains_join _ _ target_marker).
    + apply In_list_insert.
    + exact marker_has_target.
Qed.

(** X1.  [add_target_mz] leaves its own result alone, and its result holds a
    [@target] directive unless the header is the empty string, which it
    returns. *)
Theorem add_target_mz_idempotent (header : text) :
  add_target_mz (add_target_mz header) = add_target_mz header /\
  (header <> [] -> contains (str "@target") (add_target_mz header) = true) /\
  add_target_mz [] = [].
Proof.
  split; [|split; [apply add_target_mz_has_target | reflexivity]].
  destruct header as [|c h]; [reflexivity|].
  pose proof (add_target_mz_has_target (c :: h) ltac:(discriminate)) as H.
  unfold add_target_mz at 1. rewrite H. reflexivity.
Qed.

(** *** Line ends *)

Lemma plain_lf_only (l : text) : plain l = true -> lf_only l = true.
Proof.
  unfold plain, lf_only. intro H. rewrite forallb_forall in *.
  intros c Hc. rewrite (H c Hc). reflexivity.
Qed.

Lemma lf_only_app (a b : text) : lf_only (a ++ b) = lf_only a && lf_only b.
Proof. apply forallb_app. Qed.

Lemma lf_only_join (lines : list text) :
  forallb plain lines = true -> lf_only (join [nl] lines) = true.
Proof.
  induction lines as [|p [|q rest] IH]; intro H; [reflexivity| |].
  - cbn [forallb] in H. apply andb_true_iff in H. apply plain_lf_only. tauto.
  - rewrite join_cons2. cbn [forallb] in H. apply andb_true_iff in H. destruct H as [Hp H].
    rewrite !lf_only_app, (plain_lf_only p Hp), (IH H). reflexivity.
Qed.

Lemma forallb_list_insert {A} (f : A -> bool) (i : nat) (x : A) (l : list A) :
  forallb f (list_insert i x l) = f x && forallb f l.
Proof.
  unfold list_insert. rewrite forallb_app. cbn [forallb].
  rewrite <- (firstn_skipn i l) at 3. rewrite forallb_app.
  destruct (forallb f (firstn i l)), (f x); reflexivity.
Qed.

Lemma add_target_mz_lf_only (h : text) :
  contains (str "@target") h = false -> lf_only (add_target_mz h) = true.
Proof.
  intro Hno. unfold add_target_mz. rewrite Hno.
  destruct (splitlines h) as [|l0 lines] eqn:El.
  - apply splitlines_from_nil in El. destruct El as [-> _]. reflexivity.
  - cbv zeta. apply lf_only_join. rewrite forallb_list_insert, <- El.
    unfold splitlines. rewrite splitlines_plain by reflexivity. reflexivity.
Qed.

Lemma header_stage_at (source : text) (start len : nat) (gs : spans) :
  re_search header_block_re source = Some (start, len, gs) ->
  header_stage source
  = let header := firstn len (skipn start source) in
    if negb (text_eqb (add_target_mz header) header)
    then (firstn start source ++ add_target_mz header ++ skipn (start + len) source, true)
    else (source, false).
Proof. intro H. unfold header_stage. rewrite H. reflexivity. Qed.

(** X2.  Where the first header block has no [@target] directive, the header
    stage always reports a change: it keeps the text before and after
    the block and puts back the block with the marker line in it and
    with no line terminator left in it but the line feed, whatever the
    terminators of the rest of the file are. *)
Theorem header_block_rewritten (source : text) (start len : nat) (gs : spans) :
  re_search header_block_re source = Some (start, len, gs) ->
  contains (str "@target") (firstn len (skipn start source)) = false ->
  exists new_header,
    eval (ensure_header_has_target_mz source)
    = Some (firstn start source ++ new_header ++ skipn (start + len) source, true) /\
    contains (str "@target") new_header = true /\
    lf_only new_header = true.
Proof.
  intros Hs Hno. exists (add_target_mz (firstn len (skipn start source))).
  assert (Hne : firstn len (skipn start source) <> []).
  { destruct (header_block_found source start len gs Hs)
      as (pre & x & post & Hsrc & -> & -> & _).
    rewrite Hsrc, skipn_app_length, firstn_app_length. discriminate. }
  pose proof (add_target_mz_has_target _ Hne) as Hhas.
  split; [|split; [exact Hhas | apply add_target_mz_lf_only; exact Hno]].
  unfold eval. rewrite ensure_header_run. cbn [fst].
  rewrite (header_stage_at source start len gs Hs). cbv zeta.
  destruct (text_eqb (add_target_mz (firstn len (skipn start source)))
                     (firstn len (skipn start source))) eqn:E; [|reflexivity].
  apply text_eqb_eq in E. rewrite E in Hhas. congruence.
Qed.

Lemma header_block_rewritten_witness :
  exists new_header,
    eval (ensure_header_has_target_mz crlf_source)
    = Some (firstn 15 crlf_source ++ new_header ++ skipn (15 + 26) crlf_source, true) /\
    contains (str "@target") new_header = true /\
    lf_only new_header = true.
Proof. exact (header_block_rewritten crlf_source 15 26 [] eq_refl eq_refl). Defined.

(** *** Headers with line feeds *)

Lemma last_of_nonempty (s : text) (p q : option ascii) :
  s <> [] -> last_of s p = last_of s q.
Proof. destruct s; [congruence | reflexivity]. Qed.

Lemma lf_only_cons (c : ascii) (s : text) :
  lf_only (c :: s) = (negb (is_linebreak c) || Ascii.eqb c nl) && lf_only s.
Proof. reflexivity. Qed.

(** Joining the lines of a text whose terminators are line feeds, the
    last character not being one, gives the text back. *)
Lemma join_splitlines :
  forall s cur,
    lf_only s = true -> last_of s None <> Some nl ->
    join [nl] (splitlines_from cur s) = rev cur ++ s.
Proof.
  induction s as [|c s IH]; intros cur Hlf Hlast.
  - cbn [splitlines_from]. rewrite app_nil_r. destruct cur; reflexivity.
  - rewrite lf_only_cons in Hlf. apply andb_true_iff in Hlf. destruct Hlf as [Hc Hlf].
    assert (Hs : last_of s None <> Some nl).
    { destruct s as [|d s]; [discriminate|].
      rewrite (last_of_nonempty (d :: s) None (Some c)) by discriminate.
      exact Hlast. }
    cbn [splitlines_from]. destruct (is_linebreak c) eqn:El.
    + cbn [negb orb] in Hc. apply Ascii.eqb_eq in Hc. subst c.
      change (Ascii.eqb nl cr) with false. cbv iota.
      destruct s as [|d s]; [exfalso; apply Hlast; reflexivity|].
      specialize (IH [] Hlf Hs). cbn [rev app] in IH.
      destruct (splitlines_from [] (d :: s)) as [|l1 more] eqn:E.
      * apply splitlines_from_nil in E. destruct E as [E _]. discriminate E.
      * rewrite join_cons2, IH. reflexivity.
    + rewrite IH by assumption. cbn [rev]. rewrite <- app_assoc. reflexivity.
Qed.

(** Joining the lines of a text that ends in a line feed, all its
    terminators being line feeds, gives the text without that last line
    feed. *)
Lemma join_splitlines_lf :
  forall body cur,
    lf_only body = true ->
    join [nl] (splitlines_from cur (body ++ [nl])) = rev cur ++ body.
Proof.
  induction body as [|c s IH]; intros cur Hlf.
  - cbn [app splitlines_from]. change (is_linebreak nl) with true. cbv iota.
    change (Ascii.eqb nl cr) with false. cbv iota. cbn [splitlines_from join].
    rewrite app_nil_r. reflexivity.
  - rewrite lf_only_cons in Hlf. apply andb_true_iff in Hlf. destruct Hlf as [Hc Hlf].
    cbn [app splitlines_from]. destruct (is_linebreak c) eqn:El.
    + cbn [negb orb] in Hc. apply Ascii.eqb_eq in Hc. subst c.
      change (Ascii.eqb nl cr) with false. cbv iota.
      specialize (IH [] Hlf). cbn [rev app] in IH.
      destruct (splitlines_from [] (s ++ [nl])) as [|l1 more] eqn:E.
      * apply splitlines_from_nil in E. destruct E as [E _].
        destruct s; discriminate E.
      * rewrite join_cons2, IH. reflexivity.
    + rewrite IH by assumption. cbn [rev]. rewrite <- app_assoc. reflexivity.
Qed.

(** X3.  For a header of more than one line whose terminators are line
    feeds, [add_target_mz] puts the marker line in as the second line:
    the first line, the marker line, and the rest of the header.  The
    rest comes back as it was where it does not end in a line feed (a
    header block does not: it ends in the closing delimiter); where it
    does, that last line feed is dropped. *)
Theorem add_target_mz_second_line (first rest : text) :
  plain first = true -> lf_only rest = true -> rest <> [] ->
  contains (str "@target") (first ++ nl :: rest) = false ->
  (last_of rest None <> Some nl ->
   add_target_mz (first ++ nl :: rest) = first ++ nl :: target_marker ++ nl :: rest) /\
  (forall body,
      rest = body ++ [nl] ->
      add_target_mz (first ++ nl :: rest) = first ++ nl :: target_marker ++ nl :: body).
Proof.
  intros Hp Hlf Hne Hno.
  assert (Hshape : forall body,
             join [nl] (splitlines_from [] rest) = body ->
             add_target_mz (first ++ nl :: rest)
             = first ++ nl :: target_marker ++ nl :: body).
  { intros body Hj. unfold add_target_mz. rewrite Hno.
    unfold splitlines. rewrite splitlines_from_line by exact Hp. rewrite app_nil_r.
    change (splitlines_from (rev first) (nl :: rest))
      with (rev (rev first) :: splitlines_from [] rest).
    rewrite rev_involutive.
    destruct (splitlines_from [] rest) as [|l1 more] eqn:E.
    - apply splitlines_from_nil in E. destruct E as [E _]. contradiction.
    - cbv zeta. cbn [length Nat.ltb Nat.leb list_insert firstn skipn app].
      rewrite !join_cons2, Hj. reassoc. reflexivity. }
  split.
  - intro Hlast. apply Hshape.
    pose proof (join_splitlines rest [] Hlf Hlast) as Hj. exact Hj.
  - intros body ->. apply Hshape.
    rewrite lf_only_app in Hlf. apply andb_true_iff in Hlf.
    exact (join_splitlines_lf body [] (proj1 Hlf)).
Qed.

Lemma add_target_mz_second_line_witness :
  add_target_mz (str "/*:" ++ nl :: str " * @plugindesc x" ++ nl :: str " */")
  = str "/*:" ++ nl :: target_marker ++ nl :: str " * @plugindesc x" ++ nl :: str " */" /\
  add_target_mz (str "a" ++ nl :: str "b" ++ [nl])
  = str "a" ++ nl :: target_marker ++ nl :: str "b".
Proof.
  split.
  - refine (proj1 (add_target_mz_second_line
                     (str "/*:") (str " * @plugindesc x" ++ nl :: str " */") _ _ _ _) _);
      first [reflexivity | discriminate].
  - refine (proj2 (add_target_mz_second_line (str "a") (str "b" ++ [nl]) _ _ _ _) (str "b") _);
      first [reflexivity | discriminate].
Defined.

(** ** The header stage *)

Lemma app_same_ends {A} (pre a b post : list A) :
  pre ++ a ++ post = pre ++ b ++ post -> a = b.
Proof. intro H. apply app_inv_head in H. apply app_inv_tail in H. exact H. Qed.

Lemma header_stage_flag (s : text) :
  snd (header_stage s) = true <-> fst (header_stage s) <> s.
Proof.
  destruct (re_search header_block_re s) as [[[start len] gs]|] eqn:Hs.
  - rewrite (header_stage_at s start len gs Hs). cbv zeta.
    destruct (header_block_found s start len gs Hs)
      as (pre & x & post & Hsrc & -> & -> & _).
    assert (Hhead : firstn (length (open_mark ++ x)) (skipn (length pre) s) = open_mark ++ x).
    { rewrite Hsrc, skipn_app_length. apply firstn_app_length. }
    assert (Hpre : firstn (length pre) s = pre) by (rewrite Hsrc; apply firstn_app_length).
    assert (Hpost : skipn (length pre + length (open_mark ++ x)) s = post).
    { rewrite Hsrc, app_assoc, <- length_app. apply skipn_app_length. }
    rewrite Hhead, Hpre, Hpost.
    destruct (text_eqb (add_target_mz (open_mark ++ x)) (open_mark ++ x)) eqn:E;
      cbn [negb fst snd].
    + split; [discriminate | congruence].
    + split; [|reflexivity].
      intros _ Heq. rewrite Hsrc in Heq. apply app_same_ends in Heq.
      apply text_eqb_eq in Heq. congruence.
  - unfold header_stage. rewrite Hs. cbn [fst snd]. split; [discriminate | congruence].
Qed.

(** X4.  The flag the header stage returns tells whether it changed the
    text: it is set exactly when the text returned differs from the
    source. *)
Theorem header_flag_exact (source : text) :
  exists out changed,
    eval (ensure_header_has_target_mz source) = Some (out, changed) /\
    (changed = true <-> out <> source).
Proof.
  unfold eval. rewrite ensure_header_run. cbn [fst].
  pose proof (header_stage_flag source) as H.
  destruct (header_stage source) as [out changed]. cbn [fst snd] in H.
  exists out, changed. split; [reflexivity | exact H].
Qed.

(** *** A block of a single line *)

Lemma quiet_app (r : regex) (a b t : text) :
  forall prev,
    quiet r prev a (b ++ t) -> quiet r (last_of a prev) b t -> quiet r prev (a ++ b) t.
Proof.
  induction a as [|d a IH]; intros prev Ha Hb; [exact Hb|].
  cbn [app quiet] in *. destruct Ha as [Hm Ha].
  rewrite <- app_assoc. split; [exact Hm|]. apply IH; assumption.
Qed.

Lemma quiet_free (u t : text) :
  (forall d, In d u -> d <> "/") ->
  forall prev, quiet header_block_re prev u t.
Proof.
  induction u as [|d u IH]; intros Hu prev; [exact I|].
  cbn [quiet]. split; [|apply IH; intros x Hx; apply Hu; right; exact Hx].
  rewrite match_at_header. unfold open_mark. cbn [str list_ascii_of_string prefixb app].
  destruct (Ascii.eqb_spec "/" d) as [E|]; [|reflexivity].
  exfalso. apply (Hu d (or_introl eq_refl)). symmetry. exact E.
Qed.

(** Text put in front of the block opens no block before it. *)
Lemma quiet_insert (u0 : ascii) (u x post : text) :
  u0 <> "*" -> u0 <> ":" ->
  first_close (x ++ post) <> None ->
  forall pre prev,
    quiet header_block_re prev pre ((open_mark ++ x) ++ post) ->
    quiet header_block_re prev pre ((u0 :: u) ++ (open_mark ++ x) ++ post).
Proof.
  intros H1 H2 Hc. induction pre as [|d b IH]; intros prev Hq; [exact I|].
  cbn [quiet] in *. destruct Hq as [Hn Hq]. split; [|apply IH; exact Hq].
  rewrite match_at_header in *.
  destruct (prefixb open_mark (d :: b ++ (open_mark ++ x) ++ post)) eqn:Ep.
  - exfalso.
    destruct (first_close (skipn 3 (d :: b ++ (open_mark ++ x) ++ post))) eqn:E;
      [discriminate|].
    revert E.
    assert (Hsk : exists w, skipn 3 (d :: b ++ (open_mark ++ x) ++ post) = w ++ x ++ post).
    { destruct b as [|e [|f b]].
      - exists (str ":"). rewrite <- app_assoc. reflexivity.
      - exists (str "*:"). rewrite <- app_assoc. reflexivity.
      - exists (b ++ open_mark). cbn [app skipn]. rewrite <- !app_assoc. reflexivity. }
    destruct Hsk as [w ->]. apply first_close_later. exact Hc.
  - assert (Ep' : prefixb open_mark (d :: b ++ (u0 :: u) ++ (open_mark ++ x) ++ post) = false).
    { unfold open_mark in *. cbn [str list_ascii_of_string] in *.
      destruct b as [|e [|f b]]; cbn [app prefixb] in *.
      - destruct (Ascii.eqb_spec "*" u0) as [E|]; [congruence|].
        rewrite andb_false_r. reflexivity.
      - destruct (Ascii.eqb_spec ":" u0) as [E|]; [congruence|].
        rewrite !andb_false_r. reflexivity.
      - exact Ep. }
    rewrite Ep'. reflexivity.
Qed.

Lemma splitlines_single (l : text) : plain l = true -> l <> [] -> splitlines l = [l].
Proof.
  intros Hp Hne. unfold splitlines. rewrite <- (app_nil_r l) at 1.
  rewrite splitlines_from_line by exact Hp. rewrite app_nil_r. cbn [splitlines_from].
  destruct (rev l) eqn:E.
  - apply (f_equal (@rev ascii)) in E. rewrite rev_involutive in E. cbn in E. congruence.
  - rewrite <- E, rev_involutive. reflexivity.
Qed.

Lemma single_line_step (source : text) (start len : nat) (gs : spans) :
  re_search header_block_re source = Some (start, len, gs) ->
  contains (str "@target") (firstn len (skipn start source)) = false ->
  plain (firstn len (skipn start source)) = true ->
  let out := firstn start source ++ target_marker ++ nl :: skipn start source in
  header_stage source = (out, true) /\
  re_search header_block_re out = Some (start + length target_marker + 1, len, []) /\
  firstn (start + length target_marker + 1) out = firstn start source ++ target_marker ++ [nl] /\
  skipn (start + length target_marker + 1) out = skipn start source.
Proof.
  intros Hs Hno Hp out.
  destruct (header_block_found source start len gs Hs)
    as (pre & x & post & Hsrc & -> & -> & -> & [y ->] & Hc & Hfc & Hq).
  assert (Hskip : skipn (length pre) source = (open_mark ++ y ++ close_mark) ++ post)
    by (rewrite Hsrc; apply skipn_app_length).
  assert (Hpre : firstn (length pre) source = pre)
    by (rewrite Hsrc; apply firstn_app_length).
  assert (Hhead : firstn (length (open_mark ++ y ++ close_mark)) (skipn (length pre) source)
                  = open_mark ++ y ++ close_mark)
    by (rewrite Hskip; apply firstn_app_length).
  assert (Hpost : skipn (length pre + length (open_mark ++ y ++ close_mark)) source = post).
  { rewrite Hsrc, (app_assoc pre (open_mark ++ y ++ close_mark) post), <- length_app.
    apply skipn_app_length. }
  rewrite Hhead in Hno, Hp.
  assert (Hadd : add_target_mz (open_mark ++ y ++ close_mark)
                 = target_marker ++ nl :: open_mark ++ y ++ close_mark).
  { unfold add_target_mz. rewrite Hno.
    rewrite (splitlines_single _ Hp) by discriminate. reflexivity. }
  assert (Hout : out = (pre ++ target_marker ++ [nl]) ++ (open_mark ++ y ++ close_mark) ++ post).
  { unfold out. rewrite Hpre, Hskip. reassoc. reflexivity. }
  split; [|split; [|split]].
  - rewrite (header_stage_at source _ _ [] Hs). cbv zeta. rewrite Hhead, Hpre, Hpost, Hadd.
    destruct (text_eqb _ (open_mark ++ y ++ close_mark)) eqn:E.
    + apply text_eqb_eq in E. apply (f_equal (@length ascii)) in E.
      rewrite length_app in E. cbn [length] in E. lia.
    + cbn [negb]. f_equal. rewrite Hout. reassoc. reflexivity.
  - rewrite Hout. rewrite header_block_intro; [|idtac|exact Hc].
    + f_equal. f_equal. f_equal. rewrite !length_app. cbn [length]. lia.
    + apply quiet_app.
      * replace ((target_marker ++ [nl]) ++ (open_mark ++ y ++ close_mark) ++ post)
          with ((" " :: tl target_marker ++ [nl]) ++ (open_mark ++ y ++ close_mark) ++ post)
          by reflexivity.
        apply quiet_insert; [discriminate | discriminate | exact Hfc | exact Hq].
      * apply quiet_free. intros d Hd.
        eapply (one_of_false (target_marker ++ [nl])); [reflexivity | exact Hd].
  - rewrite Hout.
    replace (length pre + length target_marker + 1) with (length (pre ++ target_marker ++ [nl]))
      by (rewrite !length_app; cbn [length]; lia).
    rewrite firstn_app_length, Hpre. reflexivity.
  - rewrite Hout.
    replace (length pre + length target_marker + 1) with (length (pre ++ target_marker ++ [nl]))
      by (rewrite !length_app; cbn [length]; lia).
    rewrite skipn_app_length, Hskip. reflexivity.
Qed.

Lemma marker_lines_snoc (n : nat) :
  marker_lines n ++ target_marker ++ [nl] = marker_lines (S n).
Proof.
  unfold marker_lines. induction n as [|n IH]; [reflexivity|].
  cbn [repeat concat] in *. rewrite <- app_assoc, IH. reflexivity.
Qed.

(** X5.  The header stage on a block of a single line without a directive,
    for every source with such a first block: the marker line is put
    before the block, where no header block holds it, so the stage
    finds the same block again and adds another marker line each time
    it is applied, reporting a change every time. *)
Theorem single_line_block_never_settles (source : text) (start len : nat) (gs : spans) :
  re_search header_block_re source = Some (start, len, gs) ->
  contains (str "@target") (firstn len (skipn start source)) = false ->
  plain (firstn len (skipn start source)) = true ->
  forall n,
    eval (ensure_header_has_target_mz
            (firstn start source ++ marker_lines n ++ skipn start source))
    = Some (firstn start source ++ marker_lines (S n) ++ skipn start source, true) /\
    re_search header_block_re (firstn start source ++ marker_lines n ++ skipn start source)
    = Some (start + n * length (target_marker ++ [nl]), len, []).
Proof.
  intros Hs Hno Hp n.
  set (s := fun k => firstn start source ++ marker_lines k ++ skipn start source).
  set (w := length (target_marker ++ [nl])).
  assert (Hinv : re_search header_block_re (s n) = Some (start + n * w, len, []) /\
                 firstn (start + n * w) (s n) = firstn start source ++ marker_lines n /\
                 skipn (start + n * w) (s n) = skipn start source).
  { induction n as [|n IH].
    - unfold s. cbn [marker_lines repeat concat app Nat.mul]. rewrite Nat.add_0_r.
      rewrite firstn_skipn, app_nil_r.
      destruct (header_block_found source start len gs Hs) as (_ & _ & _ & _ & _ & _ & -> & _).
      auto.
    - destruct IH as (Hr & Hf & Hk).
      assert (Hh : firstn len (skipn (start + n * w) (s n)) = firstn len (skipn start source))
        by (rewrite Hk; reflexivity).
      destruct (single_line_step (s n) (start + n * w) len [] Hr) as (_ & H2 & H3 & H4);
        [rewrite Hh; exact Hno | rewrite Hh; exact Hp|].
      rewrite Hf, Hk in H2, H3, H4.
      assert (Hsn : (firstn start source ++ marker_lines n) ++ target_marker ++ nl :: skipn start source
                    = s (S n)).
      { unfold s. rewrite <- marker_lines_snoc. reassoc. reflexivity. }
      rewrite Hsn in H2, H3, H4.
      replace (start + S n * w) with (start + n * w + length target_marker + 1)
        by (unfold w; rewrite length_app; cbn [length]; lia).
      split; [exact H2|]. split; [|exact H4].
      rewrite H3, <- marker_lines_snoc. reassoc. reflexivity. }
  destruct Hinv as (Hr & Hf & Hk). split; [|exact Hr].
  assert (Hh : firstn len (skipn (start + n * w) (s n)) = firstn len (skipn start source))
    by (rewrite Hk; reflexivity).
  destruct (single_line_step (s n) (start + n * w) len [] Hr) as (H1 & _);
    [rewrite Hh; exact Hno | rewrite Hh; exact Hp|].
  unfold eval. rewrite ensure_header_run. cbn [fst]. fold (s n). rewrite H1, Hf, Hk.
  f_equal. f_equal. rewrite <- marker_lines_snoc. reassoc. reflexivity.
Qed.

Lemma single_line_block_never_settles_witness :
  eval (ensure_header_has_target_mz
          (str "var a;" ++ marker_lines 2 ++ single_line_header))
  = Some (str "var a;" ++ marker_lines 3 ++ single_line_header, true).
Proof.
  exact (proj1 (single_line_block_never_settles (str "var a;" ++ single_line_header) 6 10 []
                  eq_refl eq_refl eq_refl 2)).
Defined.

(** X6.  Elsewhere the header stage settles at once: where the first header
    block has more than one line, or a directive, or where there is no
    header block, the stage leaves its own output alone. *)
Theorem header_stage_settles (source : text) :
  (forall start len gs,
      re_search header_block_re source = Some (start, len, gs) ->
      contains (str "@target") (firstn len (skipn start source)) = false ->
      1 < length (splitlines (firstn len (skipn start source)))) ->
  exists out changed,
    eval (ensure_header_has_target_mz source) = Some (out, changed) /\
    eval (ensure_header_has_target_mz out) = Some (out, false).
Proof.
  intro Hlines.
  destruct header_marker_inserted as (Hmulti & Hnone & Hhas).
  destruct (re_search header_block_re source) as [[[start len] gs]|] eqn:Hs.
  - destruct (contains (str "@target") (firstn len (skipn start source))) eqn:Hc.
    + destruct (Hhas source false start len gs Hs Hc) as [Hrun _].
      exists source, false. split; exact Hrun.
    + destruct (Hmulti source false start len gs Hs Hc (Hlines start len gs eq_refl Hc))
        as (first & rest & nh & _ & Hnh & _ & Hrun & Hfound & _).
      eexists. exists true. split; [exact Hrun|].
      set (out := firstn start source ++ nh ++ skipn (start + len) source) in *.
      assert (Hblock : firstn (length nh) (skipn start out) = nh).
      { destruct (header_block_found source start len gs Hs) as (pre & x & post & Hsrc & -> & _).
        unfold out. rewrite Hsrc at 1. rewrite firstn_app_length, skipn_app_length.
        apply firstn_app_length. }
      apply (Hhas out false start (length nh) [] Hfound).
      rewrite Hblock, Hnh. rewrite join_cons2. apply contains_app_r. apply contains_app_r.
      apply (contains_join _ _ target_marker); [left; reflexivity | exact marker_has_target].
  - destruct (Hnone source false Hs) as [Hrun _].
    exists source, false. split; exact Hrun.
Qed.

Lemma header_stage_settles_witness :
  exists out changed,
    eval (ensure_header_has_target_mz crlf_source) = Some (out, changed) /\
    eval (ensure_header_has_target_mz out) = Some (out, false).
Proof.
  apply (header_stage_settles crlf_source).
  intros start len gs H. vm_compute in H. injection H as <- <- _.
  intros _. vm_compute. lia.
Defined.

(** ** The symbol migration stage *)

Lemma migrate_no_old (s : text) (m : text) :
  In m methods_catalog -> occurs (old_owner ++ m) None (migrate methods_catalog None s) = false.
Proof.
  intro Hin.
  rewrite (occurs_migrate methods_catalog m methods_ok
                          (all_ok_In methods_catalog m methods_ok Hin)).
  apply mem_In in Hin. rewrite Hin. apply andb_false_r.
Qed.

(** X7.  The symbol migration stage leaves its own output alone: applied to
    the text it returned, it returns that text and no changes. *)
Theorem symbol_migration_idempotent (source : text) :
  exists out changes,
    eval (replace_window_base_methods source) = Some (out, changes) /\
    eval (replace_window_base_methods out) = Some (out, []).
Proof.
  unfold eval. rewrite replace_window_base_methods_run. cbn [fst].
  rewrite migrate_stage_run. eexists. eexists. split; [reflexivity|].
  rewrite replace_window_base_methods_run. cbn [fst].
  apply migrate_steps_fixed. intros m Hm. apply migrate_no_old. exact Hm.
Qed.

(** *** Six characters for each reference *)

Lemma count_refs_pass (M : list text) (u rest : text) :
  (forall d, In d u -> d <> "W") ->
  forall prev, count_refs M prev (u ++ rest) = count_refs M (last_of u prev) rest.
Proof.
  induction u as [|d u IH]; intros Hu prev; [reflexivity|].
  cbn [app count_refs]. rewrite hit_of_head by (apply Hu; left; reflexivity).
  cbn [Nat.add]. apply IH. intros x Hx. apply Hu. right. exact Hx.
Qed.

Lemma migrate_length (M : list text) :
  all_ok M ->
  forall s prev, length (migrate M prev s) = length s + 6 * count_refs M prev s.
Proof.
  intro HM. induction s as [s IH] using text_length_ind. intro prev.
  destruct (migrate_cases M prev s HM)
    as [[-> ->] | [(m & rest & Hin & Hm & Ho & Hs & Hmig) | (c & s' & -> & Hnone & Hmig)]].
  - reflexivity.
  - assert (Hcnt : count_refs M prev s
                   = S (count_refs M (last_of (old_owner ++ m) prev) rest)).
    { assert (Hhit : hit_of M prev s <> None).
      { intro Hn. rewrite (hit_of_None M prev s m Hn Hin) in Ho. discriminate. }
      rewrite Hs in Hhit |- *. rewrite old_ref_shape in Hhit |- *.
      cbn [app count_refs] in Hhit |- *.
      destruct (hit_of M prev ("W" :: (old_tail ++ m) ++ rest)); [|congruence].
      rewrite (count_refs_pass M (old_tail ++ m) rest (old_tail_no_W m Hm)).
      reflexivity. }
    rewrite Hmig, Hcnt, length_app.
    rewrite IH by (rewrite Hs, length_app, old_ref_shape; cbn [length]; lia).
    rewrite Hs, !length_app. unfold new_owner, old_owner. cbn [length str list_ascii_of_string].
    lia.
  - rewrite Hmig. cbn [length count_refs]. rewrite Hnone, IH by (cbn; lia). lia.
Qed.

Lemma count_refs_zero (M : list text) :
  forall s prev,
    count_refs M prev s = 0 <-> forall m, In m M -> occurs (old_owner ++ m) prev s = false.
Proof.
  induction s as [|c s IH]; intro prev; [split; reflexivity|].
  cbn [count_refs occurs]. split.
  - intros H m Hm. destruct (hit_of M prev (c :: s)) eqn:E; [discriminate|].
    rewrite (hit_of_None _ _ _ _ E Hm). cbn [orb Nat.add] in *.
    apply IH; assumption.
  - intro H. destruct (hit_of M prev (c :: s)) as [m|] eqn:E.
    + destruct (hit_of_Some _ _ _ _ E) as [Hin Ho].
      specialize (H m Hin). rewrite Ho in H. discriminate.
    + cbn [Nat.add]. apply IH. intros m Hm. specialize (H m Hm).
      apply orb_false_iff in H. tauto.
Qed.

Lemma migrate_stage_facts (s out : text) (changes : list text) :
  fold_opt migrate_step methods_catalog (s, []) = Some (out, changes) ->
  out = migrate methods_catalog None s /\
  (count_refs methods_catalog None s = 0 -> out = s /\ changes = []) /\
  (changes = [] -> count_refs methods_catalog None s = 0).
Proof.
  rewrite migrate_stage_run. intro H.
  assert (Ho : out = migrate methods_catalog None s) by congruence.
  assert (Hc : changes = map window_base_change
                             (filter (fun m => occurs (old_owner ++ m) None s) methods_catalog))
    by congruence.
  clear H. subst out changes.
  split; [reflexivity|]. split.
  - intro H0. pose proof (proj1 (count_refs_zero methods_catalog s None) H0) as Hocc.
    pose proof (migrate_steps_fixed s methods_catalog [] Hocc) as Hfix.
    rewrite migrate_stage_run in Hfix. split; congruence.
  - intro H. apply map_eq_nil in H. apply count_refs_zero.
    exact (proj1 (filter_nil _ _) H).
Qed.

(** X8.  Every reference the symbol migration stage replaces makes the text
    six characters longer, and the stage reports no change exactly when
    it returns the source as it was, which is when no catalogued old
    reference stands in it. *)
Theorem symbol_migration_length (source : text) :
  exists out changes,
    eval (replace_window_base_methods source) = Some (out, changes) /\
    length out = length source + 6 * count_refs methods_catalog None source /\
    (changes = [] <-> out = source) /\
    (changes = [] <-> count_refs methods_catalog None source = 0).
Proof.
  unfold eval. rewrite replace_window_base_methods_run. cbn [fst].
  destruct (migrate_stage_total source []) as [[out changes] E]. rewrite E.
  exists out, changes. split; [reflexivity|].
  destruct (migrate_stage_facts source out changes E) as (Hout & Hzero & Hch).
  pose proof (migrate_length methods_catalog methods_ok source None) as Hlen.
  rewrite <- Hout in Hlen. split; [exact Hlen|].
  split; split.
  - intro H. apply Hzero, Hch, H.
  - intro H. apply Hzero. rewrite H in Hlen. lia.
  - exact Hch.
  - intro H. apply Hzero, H.
Qed.

(** ** The annotation stage *)

Lemma insert_length (lit note : text) :
  forall s prev,
    length (insert_before_occurrences lit note prev s)
    = length s + length note * count_occurrences lit prev s.
Proof.
  induction s as [|c s IH]; intro prev; [cbn; lia|].
  cbn [insert_before_occurrences count_occurrences]. rewrite length_app. cbn [length].
  rewrite IH. destruct (occ lit prev (c :: s)); cbn [length]; lia.
Qed.

Lemma count_occurrences_pass (a : ascii) (l u rest : text) :
  (forall d, In d u -> d <> a) ->
  forall prev,
    count_occurrences (a :: l) prev (u ++ rest)
    = count_occurrences (a :: l) (last_of u prev) rest.
Proof.
  induction u as [|d u IH]; intros Hu prev; [reflexivity|].
  cbn [app count_occurrences]. rewrite occ_head by (apply Hu; left; reflexivity).
  cbn [Nat.add]. apply IH. intros x Hx. apply Hu. right. exact Hx.
Qed.

Lemma occurs_count (lit : text) :
  forall s prev, occurs lit prev s = false <-> count_occurrences lit prev s = 0.
Proof.
  induction s as [|c s IH]; intro prev; [split; reflexivity|].
  cbn [occurs count_occurrences]. destruct (occ lit prev (c :: s)); cbn [orb Nat.add].
  - split; discriminate.
  - apply IH.
Qed.

(** The annotation keeps every occurrence where it is and makes none. *)
Lemma insert_keeps_count (g0 n0 : ascii) (G note' : text) :
  one_of G g0 = false -> is_word g0 = true ->
  (forall p, word_opt (last_of (g0 :: G) p) = true) ->
  (forall d, In d (g0 :: G) -> d <> n0) ->
  (forall d, In d (n0 :: note') -> d <> g0) ->
  (forall p, word_opt (last_of (n0 :: note') p) = false) ->
  forall s prev,
    count_occurrences (g0 :: G) prev
                      (insert_before_occurrences (g0 :: G) (n0 :: note') prev s)
    = count_occurrences (g0 :: G) prev s.
Proof.
  intros Hself Hg Hlast Hn Hnote Hend.
  induction s as [|c s IH]; intro prev; [reflexivity|].
  destruct (occ (g0 :: G) prev (c :: s)) eqn:E.
  - pose proof (occ_prefix _ _ _ E) as Hs.
    set (rest := skipn (length (g0 :: G)) (c :: s)) in *.
    cbn [app] in Hs. injection Hs as -> Hs.
    cbn [insert_before_occurrences count_occurrences]. rewrite E.
    rewrite (count_occurrences_pass g0 G (n0 :: note') _ Hnote).
    cbn [count_occurrences]. rewrite IH. f_equal.
    assert (Ho : occ (g0 :: G) (last_of (n0 :: note') prev)
                     (g0 :: insert_before_occurrences (g0 :: G) (n0 :: note') (Some g0) s)
                 = true); [|rewrite Ho; reflexivity].
    rewrite Hs.
    rewrite (insert_before_pass g0 G (n0 :: note') G rest)
      by (intros d Hd; eapply one_of_false; eassumption).
    change (g0 :: G ++ ?w) with ((g0 :: G) ++ w).
    unfold occ. rewrite prefixb_app, skipn_app_length.
    unfold at_boundary at 1. cbn [app hd_error word_opt]. rewrite Hend, Hg. cbn [xorb andb].
    rewrite last_of_cons.
    unfold occ in E. apply andb_true_iff in E. destruct E as [_ E].
    fold rest in E. rewrite last_of_cons in E.
    unfold at_boundary in *.
    rewrite insert_head; [exact E|].
    apply occ_after_word; [exact Hg|]. rewrite <- (last_of_cons g0 G prev). apply Hlast.
  - assert (Hback : occ (g0 :: G) prev
                        (c :: insert_before_occurrences (g0 :: G) (n0 :: note') (Some c) s)
                    = false).
    { apply not_true_is_false. intro Ho.
      pose proof (occ_insert_back g0 g0 n0 G G note' Hn Hlast Hg prev (c :: s)) as Hb.
      cbn [insert_before_occurrences] in Hb. rewrite E in Hb. cbn [app] in Hb.
      specialize (Hb Ho). congruence. }
    cbn [insert_before_occurrences]. rewrite E. cbn [app count_occurrences].
    rewrite Hback, E, IH. reflexivity.
Qed.

Lemma annotation_keeps_hooks (s : text) (prev : option ascii) :
  count_occurrences plugin_command prev
                    (insert_before_occurrences plugin_command todo prev s)
  = count_occurrences plugin_command prev s.
Proof.
  apply (insert_keeps_count "G" nl (tl plugin_command) (tl todo)).
  - reflexivity.
  - reflexivity.
  - intro p. reflexivity.
  - intros d Hd. eapply (one_of_false plugin_command); [reflexivity | exact Hd].
  - intros d Hd. eapply (one_of_false todo); [reflexivity | exact Hd].
  - intro p. reflexivity.
Qed.

(** X9.  The annotation stage makes the text longer by the annotation for
    each plugin command hook and leaves every hook in place.  So it
    does not settle: applied to its own output it puts another
    annotation before every hook and reports the same line again.  It
    reports nothing exactly when it returns the source as it was. *)
Theorem annotation_repeats (source : text) :
  exists out changes,
    eval (annotate_plugin_command_todos source) = Some (out, changes) /\
    length out
    = length source + length todo * count_occurrences plugin_command None source /\
    count_occurrences plugin_command None out
    = count_occurrences plugin_command None source /\
    (changes = [] <-> out = source) /\
    exists out2,
      eval (annotate_plugin_command_todos out) = Some (out2, changes) /\
      length out2
      = length source + 2 * length todo * count_occurrences plugin_command None source.
Proof.
  unfold eval. rewrite annotate_run. cbn [fst]. rewrite annotate_steps.
  eexists. eexists. split; [reflexivity|].
  pose proof (insert_length plugin_command todo source None) as Hlen.
  pose proof (annotation_keeps_hooks source None) as Hkeep.
  pose proof (occurs_count plugin_command source None) as Hocc.
  assert (Htodo : 0 < length todo) by (unfold todo; cbn [length]; lia).
  split; [exact Hlen|]. split; [exact Hkeep|]. split.
  - destruct (occurs plugin_command None source) eqn:Eo; split.
    + discriminate.
    + intro Heq. rewrite Heq in Hlen.
      assert (H0 : count_occurrences plugin_command None source = 0) by nia.
      apply Hocc in H0. discriminate.
    + intros _. apply insert_before_none. apply Hocc. reflexivity.
    + reflexivity.
  - rewrite annotate_run. cbn [fst]. rewrite annotate_steps. eexists. split.
    + f_equal. f_equal.
      pose proof (occurs_count plugin_command
                    (insert_before_occurrences plugin_command todo None source) None) as Hocc2.
      rewrite Hkeep in Hocc2.
      destruct (occurs plugin_command None source) eqn:E1;
        destruct (occurs plugin_command None
                         (insert_before_occurrences plugin_command todo None source)) eqn:E2;
        try reflexivity.
      * destruct Hocc as [Ha Hb]. destruct Hocc2 as [Hc Hd].
        specialize (Hc eq_refl). specialize (Hb Hc). discriminate.
      * destruct Hocc as [Ha Hb]. destruct Hocc2 as [Hc Hd].
        specialize (Ha eq_refl). specialize (Hd Ha). discriminate.
    + rewrite insert_length, Hkeep, Hlen. lia.
Qed.

(** ** The report is empty exactly when nothing changed *)

Lemma count_char_app (c : ascii) (a b : text) :
  count_char c (a ++ b) = count_char c a + count_char c b.
Proof. apply count_occ_app. Qed.

Lemma count_char_cons (c d : ascii) (s : text) :
  count_char c (d :: s) = (if ascii_dec d c then 1 else 0) + count_char c s.
Proof. unfold count_char. cbn [count_occ]. destruct (ascii_dec d c); reflexivity. Qed.

Lemma count_char_spaces (c : ascii) (ws : text) :
  is_space c = false -> forallb is_space ws = true -> count_char c ws = 0.
Proof.
  intros Hc. induction ws as [|w ws IH]; intro H; [reflexivity|].
  cbn [forallb] in H. apply andb_true_iff in H. destruct H as [Hw H].
  rewrite count_char_cons, IH by exact H.
  destruct (ascii_dec w c) as [->|]; [congruence | reflexivity].
Qed.

(** *** The header stage *)

Lemma count_char_join (c : ascii) (lines : list text) :
  c <> nl -> count_char c (join [nl] lines) = list_sum (map (count_char c) lines).
Proof.
  intro Hc. induction lines as [|p [|q rest] IH].
  - reflexivity.
  - cbn [join map list_sum fold_right]. unfold list_sum. cbn [map fold_right]. lia.
  - rewrite join_cons2, !count_char_app, IH.
    unfold list_sum. cbn [map fold_right]. rewrite count_char_cons.
    destruct (ascii_dec nl c) as [E|]; [congruence|]. cbn [count_char count_occ]. lia.
Qed.

Lemma list_sum_insert {A} (f : A -> nat) (i : nat) (x : A) (l : list A) :
  list_sum (map f (list_insert i x l)) = f x + list_sum (map f l).
Proof.
  unfold list_insert. rewrite map_app, list_sum_app. cbn [map].
  rewrite <- (firstn_skipn i l) at 3. rewrite map_app, list_sum_app.
  unfold list_sum at 2. cbn [fold_right]. fold (list_sum (map f (skipn i l))). lia.
Qed.

Lemma count_char_splitlines (c : ascii) :
  is_linebreak c = false ->
  forall s cur,
    list_sum (map (count_char c) (splitlines_from cur s)) = count_char c (rev cur ++ s).
Proof.
  intro Hc.
  assert (Hbreak : forall d, is_linebreak d = true -> count_char c [d] = 0).
  { intros d Hd. rewrite count_char_cons. destruct (ascii_dec d c) as [->|]; [congruence|].
    reflexivity. }
  assert (Hsame : forall (l : text) t, list_sum (map (count_char c) (l :: t))
                                       = count_char c l + list_sum (map (count_char c) t))
    by reflexivity.
  induction s as [|d s IH]; intro cur.
  - cbn [splitlines_from]. rewrite app_nil_r. destruct cur as [|x cur]; [reflexivity|].
    rewrite Hsame. cbn [map list_sum fold_right]. unfold list_sum. cbn [fold_right]. lia.
  - cbn [splitlines_from]. destruct (is_linebreak d) eqn:El.
    + rewrite count_char_app. change (d :: s) with ([d] ++ s).
      rewrite count_char_app, (Hbreak d El).
      destruct (Ascii.eqb d cr); [destruct s as [|e s']|].
      * rewrite Hsame, IH. cbn [rev app]. lia.
      * destruct (Ascii.eqb_spec e nl) as [->|].
        -- rewrite Hsame. specialize (IH []).
           change (splitlines_from [] (nl :: s')) with ([] :: splitlines_from [] s') in IH.
           rewrite Hsame in IH. cbn [rev app] in IH.
           change (nl :: s') with ([nl] ++ s') in IH.
           rewrite count_char_app, (Hbreak nl eq_refl) in IH.
           change (nl :: s') with ([nl] ++ s').
           rewrite count_char_app, (Hbreak nl eq_refl).
           cbn [count_char count_occ] in IH. lia.
        -- rewrite Hsame, IH. cbn [rev app]. lia.
      * rewrite Hsame, IH. cbn [rev app]. lia.
    + rewrite IH. cbn [rev]. rewrite <- app_assoc. reflexivity.
Qed.

Lemma add_target_mz_count (c : ascii) (h : text) :
  is_linebreak c = false -> count_char c target_marker = 0 ->
  count_char c (add_target_mz h) = count_char c h.
Proof.
  intros Hc Hm. unfold add_target_mz.
  destruct (contains (str "@target") h); [reflexivity|].
  destruct (splitlines h) as [|l0 lines] eqn:El; [reflexivity|].
  cbv zeta. rewrite count_char_join by (intros ->; discriminate Hc).
  rewrite list_sum_insert, Hm, <- El. unfold splitlines.
  rewrite (count_char_splitlines c Hc). reflexivity.
Qed.

Lemma header_stage_count (c : ascii) (s : text) :
  is_linebreak c = false -> count_char c target_marker = 0 ->
  count_char c (fst (header_stage s)) = count_char c s.
Proof.
  intros Hc Hm. unfold header_stage.
  destruct (re_search header_block_re s) as [[[start len] gs]|]; [|reflexivity].
  cbv zeta. destruct (negb _); [|reflexivity]. cbn [fst].
  rewrite !count_char_app, (add_target_mz_count c _ Hc Hm).
  rewrite <- !count_char_app.
  rewrite <- (firstn_skipn start s) at 4.
  rewrite <- (firstn_skipn len (skipn start s)) at 2.
  rewrite skipn_skipn, (Nat.add_comm len start). reflexivity.
Qed.

(** *** The symbol migration stage *)

Lemma migrate_count (c : ascii) (M : list text) :
  all_ok M ->
  forall s prev,
    count_char c (migrate M prev s) + count_char c old_owner * count_refs M prev s
    = count_char c s + count_char c new_owner * count_refs M prev s.
Proof.
  intro HM. induction s as [s IH] using text_length_ind. intro prev.
  destruct (migrate_cases M prev s HM)
    as [[-> ->] | [(m & rest & Hin & Hm & Ho & Hs & Hmig) | (c0 & s' & -> & Hnone & Hmig)]].
  - cbn [count_refs]. lia.
  - assert (Hcnt : count_refs M prev s
                   = S (count_refs M (last_of (old_owner ++ m) prev) rest)).
    { assert (Hhit : hit_of M prev s <> None).
      { intro Hn. rewrite (hit_of_None M prev s m Hn Hin) in Ho. discriminate. }
      rewrite Hs in Hhit |- *. rewrite old_ref_shape in Hhit |- *.
      cbn [app count_refs] in Hhit |- *.
      destruct (hit_of M prev ("W" :: (old_tail ++ m) ++ rest)); [|congruence].
      rewrite (count_refs_pass M (old_tail ++ m) rest (old_tail_no_W m Hm)).
      reflexivity. }
    rewrite Hmig, Hcnt.
    specialize (IH rest ltac:(rewrite Hs, length_app, old_ref_shape; cbn [length]; lia)
                   (last_of (old_owner ++ m) prev)).
    rewrite Hs. rewrite !count_char_app. nia.
  - rewrite Hmig. cbn [count_refs]. rewrite Hnone. cbn [Nat.add].
    rewrite !count_char_cons. specialize (IH s' ltac:(cbn; lia) (Some c0)). lia.
Qed.

(** *** The call-pattern substitution stage *)

Lemma call_count (name ws1 ws2 arg ws3 : text) :
  forallb is_space ws1 = true -> forallb is_space ws2 = true ->
  forallb is_space ws3 = true ->
  count_char "C" (manager_call name arg)
  = S (count_char "C" (call_text name ws1 ws2 arg ws3)).
Proof.
  intros H1 H2 H3. unfold manager_call, call_text.
  change ("(" :: ws2 ++ arg ++ ws3 ++ [")"]) with (["("] ++ ws2 ++ arg ++ ws3 ++ [")"]).
  change ("(" :: arg ++ [")"]) with (["("] ++ arg ++ [")"]).
  rewrite !count_char_app.
  rewrite (count_char_spaces "C" ws1 eq_refl H1), (count_char_spaces "C" ws2 eq_refl H2),
    (count_char_spaces "C" ws3 eq_refl H3).
  change (count_char "C" (str "ColorManager.")) with 1.
  change (count_char "C" (str "this.")) with 0.
  change (count_char "C" ["("]) with 0. change (count_char "C" [")"]) with 0.
  lia.
Qed.

Lemma render_calls_count (name : text) (has_arg : bool) (segs : list seg) (tail : text) :
  Forall (is_call name has_arg) segs ->
  count_char "C" (render (fun m gs => manager_call name (call_arg has_arg m gs)) segs tail)
  = count_char "C" (render (fun m _ => m) segs tail) + length segs.
Proof.
  unfold render. induction 1 as [|[[gap m] gs] segs Hcall _ IH]; [cbn; lia|].
  cbn [flat_map length]. rewrite <- !app_assoc, !count_char_app in *.
  destruct Hcall as (ws1 & ws2 & ws3 & H1 & H2 & H3 & Hm).
  rewrite (call_count name ws1 ws2 (call_arg has_arg m gs) ws3 H1 H2 H3), <- Hm. lia.
Qed.

Lemma substitute_step_count (name : text) (has_arg : bool) (acc acc' : text * list text) :
  In (name, has_arg) color_names ->
  substitute_step (color_entry name has_arg) acc = Some acc' ->
  exists n,
    count_char "C" (fst acc') = count_char "C" (fst acc) + n /\
    (n = 0 -> acc' = acc) /\
    (0 < n -> exists line, snd acc' = snd acc ++ [line]).
Proof.
  intros Hin Hstep.
  pose proof color_names_compile as Hc. rewrite Forall_forall in Hc.
  specialize (Hc _ Hin). cbn [fst snd] in Hc.
  unfold substitute_step in Hstep. rewrite Hc in Hstep.
  destruct (sub_scan_scanned (color_regex name has_arg)
                             (expand (color_template name has_arg))
                             (never_empty_color name has_arg) (fst acc) None)
    as (segs & tail & Hsc & Hsub).
  rewrite Hsub in Hstep. exists (length segs).
  assert (Hcount : count_char "C" (render (expand (color_template name has_arg)) segs tail)
                   = count_char "C" (fst acc) + length segs).
  { rewrite (Scanned_source _ _ _ _ _ Hsc) at 1.
    rewrite <- (render_calls_count name has_arg segs tail (Scanned_calls _ _ _ _ _ _ Hsc)).
    f_equal. unfold render. f_equal. apply flat_map_ext. intros [[gap m] gs].
    rewrite expand_color. reflexivity. }
  destruct segs as [|sg segs]; cbn [length Nat.ltb Nat.leb] in Hstep; injection Hstep as <-.
  - split; [cbn [length]; lia|]. split; [reflexivity | cbn [length]; lia].
  - cbn [fst snd]. split; [exact Hcount|]. split; [cbn [length]; lia|].
    intros _. eexists. reflexivity.
Qed.

Lemma colors_fold_count (l : list (text * bool)) :
  (forall p, In p l -> In p color_names) ->
  forall acc acc',
    fold_opt substitute_step (map (fun p => color_entry (fst p) (snd p)) l) acc = Some acc' ->
    exists extra,
      snd acc' = snd acc ++ extra /\
      count_char "C" (fst acc) <= count_char "C" (fst acc') /\
      (extra = [] -> fst acc' = fst acc) /\
      (count_char "C" (fst acc') = count_char "C" (fst acc) -> extra = []).
Proof.
  induction l as [|[name has_arg] l IH]; intros Hl acc acc' H; cbn [map fold_opt] in H.
  - injection H as <-. exists []. rewrite app_nil_r. auto.
  - cbn [fst snd] in H.
    destruct (substitute_step (color_entry name has_arg) acc) as [acc1|] eqn:E; [|discriminate].
    destruct (substitute_step_count name has_arg acc acc1 (Hl _ (or_introl eq_refl)) E)
      as (n & Hn & Hzero & Hpos).
    destruct (IH (fun p Hp => Hl p (or_intror Hp)) acc1 acc' H)
      as (extra & Hex & Hle & Hnil & Hsame).
    destruct n as [|n].
    + rewrite (Hzero eq_refl) in *. exists extra. auto.
    + destruct (Hpos ltac:(lia)) as [line Hline].
      exists (line :: extra). rewrite Hex, Hline, <- app_assoc.
      split; [reflexivity|]. split; [lia|]. split; [discriminate | lia].
Qed.

Lemma colors_stage_facts (s : text) (keep : bool) (out : text) (changes : list text) :
  colors_stage s keep = Some (out, changes) ->
  count_char "C" s <= count_char "C" out /\
  (changes = [] -> out = s) /\
  (count_char "C" out = count_char "C" s -> changes = []).
Proof.
  unfold colors_stage. destruct keep.
  - intro H. injection H as <- <-. auto.
  - rewrite color_catalog_entries. intro H.
    destruct (colors_fold_count color_names (fun p Hp => Hp) (s, []) (out, changes) H)
      as (extra & Hex & Hle & Hnil & Hsame).
    cbn [fst snd app] in *. subst extra. auto.
Qed.

(** *** The annotation stage *)

Lemma insert_count (c : ascii) (lit note : text) :
  forall s prev,
    count_char c (insert_before_occurrences lit note prev s)
    = count_char c s + count_char c note * count_occurrences lit prev s.
Proof.
  induction s as [|d s IH]; intro prev; [cbn; lia|].
  cbn [insert_before_occurrences count_occurrences].
  rewrite count_char_app, !count_char_cons, IH.
  destruct (occ lit prev (d :: s)); cbn [count_char count_occ]; lia.
Qed.

(** X10.  The call-pattern substitution stage reports no change exactly when
    it returns the source as it was, with the skip flag set or not:
    entries that fire one after the other never bring the text back to
    what it was, since every call rewritten adds a capital C. *)
Theorem color_report_exact (source : text) (keep : bool) :
  exists out changes,
    eval (replace_colors source keep) = Some (out, changes) /\
    (changes = [] <-> out = source) /\
    count_char "C" source + length changes <= count_char "C" out.
Proof.
  unfold eval. rewrite replace_colors_run. cbn [fst].
  destruct (colors_stage_total source keep) as [[out changes] E]. rewrite E.
  exists out, changes. split; [reflexivity|].
  destruct (colors_stage_facts source keep out changes E) as (Hle & Hnil & Hsame).
  split; [split; [exact Hnil | intros ->; apply Hsame; reflexivity]|].
  unfold colors_stage in E. destruct keep.
  - injection E as <- <-. cbn [length]. lia.
  - rewrite color_catalog_entries in E. clear Hle Hnil Hsame.
    assert (Hgen : forall l acc acc',
               (forall p, In p l -> In p color_names) ->
               fold_opt substitute_step (map (fun p => color_entry (fst p) (snd p)) l) acc
               = Some acc' ->
               count_char "C" (fst acc) + length (snd acc') <=
               count_char "C" (fst acc') + length (snd acc)).
    { induction l as [|[name has_arg] l IH]; intros acc acc' Hl H; cbn [map fold_opt] in H.
      - injection H as <-. lia.
      - cbn [fst snd] in H.
        destruct (substitute_step (color_entry name has_arg) acc) as [acc1|] eqn:E1;
          [|discriminate].
        destruct (substitute_step_count name has_arg acc acc1 (Hl _ (or_introl eq_refl)) E1)
          as (n & Hn & Hzero & Hpos).
        specialize (IH acc1 acc' (fun p Hp => Hl p (or_intror Hp)) H).
        destruct n as [|n].
        + rewrite (Hzero eq_refl) in *. exact IH.
        + destruct (Hpos ltac:(lia)) as [line Hline].
          rewrite Hline, length_app in IH. cbn [length] in IH. lia. }
    specialize (Hgen color_names (source, []) (out, changes) (fun p Hp => Hp) E).
    cbn [fst snd length] in Hgen. lia.
Qed.

Lemma convert_stages_report_empty (source : text) (keep : bool) :
  exists out report,
    convert_stages source keep = Some (out, report) /\
    (report = [] <-> out = source).
Proof.
  unfold convert_stages.
  destruct (header_stage source) as [s1 changed] eqn:E1.
  destruct (migrate_stage_total s1 []) as [[s2 c2] E2]. rewrite E2.
  destruct (colors_stage_total s2 keep) as [[s3 c3] E3]. rewrite E3.
  rewrite annotate_steps. eexists. eexists. split; [reflexivity|].
  pose proof (header_stage_flag source) as Hflag. rewrite E1 in Hflag. cbn [fst snd] in Hflag.
  destruct (migrate_stage_facts s1 s2 c2 E2) as (Hs2 & Hzero & Hc2).
  destruct (colors_stage_facts s2 keep s3 c3 E3) as (Hle & Hnil & Hsame).
  pose proof (occurs_count plugin_command s3 None) as Hocc.
  split.
  - intro Hrep.
    apply app_eq_nil in Hrep. destruct Hrep as [Hrep Hc4].
    apply app_eq_nil in Hrep. destruct Hrep as [Hrep Hc3].
    apply app_eq_nil in Hrep. destruct Hrep as [Hhdr Hc2'].
    assert (Hch : changed = false) by (destruct changed; [discriminate Hhdr | reflexivity]).
    assert (H1 : s1 = source).
    { destruct (list_eq_dec ascii_dec s1 source) as [e|n]; [exact e|].
      apply Hflag in n. congruence. }
    destruct (Hzero (Hc2 Hc2')) as [H2 _].
    rewrite insert_before_none.
    + rewrite (Hnil Hc3), H2, H1. reflexivity.
    + apply Hocc. destruct (occurs plugin_command None s3); [discriminate Hc4 | reflexivity].
  - intro Hout.
    pose proof (header_stage_count "C" source eq_refl eq_refl) as HC1.
    pose proof (header_stage_count "S" source eq_refl eq_refl) as HS1.
    rewrite E1 in HC1, HS1. cbn [fst] in HC1, HS1.
    pose proof (migrate_count "C" methods_catalog methods_ok s1 None) as HC2.
    pose proof (migrate_count "S" methods_catalog methods_ok s1 None) as HS2.
    rewrite <- Hs2 in HC2, HS2.
    change (count_char "C" old_owner) with 0 in HC2.
    change (count_char "C" new_owner) with 0 in HC2.
    change (count_char "S" old_owner) with 0 in HS2.
    change (count_char "S" new_owner) with 1 in HS2.
    pose proof (insert_count "C" plugin_command todo s3 None) as HC4.
    rewrite Hout in HC4. change (count_char "C" todo) with 2 in HC4.
    assert (H4 : count_occurrences plugin_command None s3 = 0) by lia.
    assert (H3 : count_char "C" s3 = count_char "C" s2) by lia.
    rewrite (insert_before_none _ _ _ _ H4) in Hout.
    apply Hocc in H4. rewrite H4.
    pose proof (Hsame H3) as Hc3. rewrite (Hnil Hc3) in Hout. subst c3.
    assert (H2 : count_refs methods_catalog None s1 = 0) by (rewrite Hout in HS2; lia).
    destruct (Hzero H2) as [Hs21 ->].
    rewrite Hs21 in Hout.
    destruct changed; [|reflexivity].
    exfalso. apply (proj1 Hflag eq_refl). exact Hout.
Qed.

(** X11.  The report of [convert_text] is empty exactly when the text it
    returns is the source: no stage changes the text without a report
    line, and no stages undo one another. *)
Theorem report_empty_iff_unchanged (source : text) (keep : bool) :
  exists out report,
    eval (convert_text source keep) = Some (out, report) /\
    (report = [] <-> out = source).
Proof. rewrite eval_convert_text. apply convert_stages_report_empty. Qed.

(** ** What the report says of the source

    A literal between word boundaries (a reference, the plugin command
    hook) stands in the text a stage returns exactly when it stood in
    the text the stage was given. *)

(** No occurrence starts inside [u]. *)
Lemma occurs_skip_region (a0 : ascii) (l u rest : text) :
  is_word a0 = true ->
  forall prev,
    no_start_after_break a0 prev u = true ->
    occurs (a0 :: l) prev (u ++ rest) = occurs (a0 :: l) (last_of u prev) rest.
Proof.
  intro Ha. induction u as [|d u IH]; intros prev H; [reflexivity|].
  cbn [no_start_after_break] in H. apply andb_true_iff in H. destruct H as [Hd H].
  cbn [app occurs]. rewrite (IH (Some d) H), last_of_cons.
  assert (Ho : occ (a0 :: l) prev (d :: u ++ rest) = false); [|rewrite Ho; reflexivity].
  destruct (Ascii.eqb_spec d a0) as [->|Hne].
  - cbn [andb negb] in Hd. apply negb_true_iff in Hd. apply negb_false_iff in Hd.
    unfold occ, at_boundary. cbn [hd_error word_opt]. rewrite Hd, Ha. reflexivity.
  - apply occ_head. exact Hne.
Qed.

(** *** Through the symbol migration stage *)

Lemma migrate_prefix_same (M : list text) :
  all_ok M ->
  forall u s prev,
    (forall d, In d u -> d <> "W") ->
    prefixb u (migrate M prev s) = prefixb u s /\
    (prefixb u s = true ->
     skipn (length u) (migrate M prev s) = migrate M (last_of u prev) (skipn (length u) s)).
Proof.
  intro HM. induction u as [|a u IH]; intros s prev Hu; [split; reflexivity|].
  destruct (migrate_cases M prev s HM)
    as [[-> ->] | [(m & rest & _ & _ & _ & -> & ->) | (c & s' & -> & _ & ->)]].
  - split; [reflexivity | discriminate].
  - rewrite old_ref_shape, new_ref_shape. cbn [app prefixb].
    destruct (Ascii.eqb_spec a "W") as [E|];
      [exfalso; apply (Hu a (or_introl eq_refl)); exact E|].
    split; [reflexivity | discriminate].
  - cbn [prefixb length skipn].
    destruct (IH s' (Some c) (fun d Hd => Hu d (or_intror Hd))) as [H1 H2].
    rewrite H1. split; [reflexivity|].
    intro H. apply andb_true_iff in H. destruct H as [Hac H].
    apply Ascii.eqb_eq in Hac. subst c. rewrite last_of_cons. exact (H2 H).
Qed.

Lemma occ_migrate_same (M : list text) (lit : text) :
  all_ok M -> (forall d, In d lit -> d <> "W") ->
  forall s prev, occ lit prev (migrate M prev s) = occ lit prev s.
Proof.
  intros HM Hlit s prev. unfold occ, at_boundary.
  destruct (migrate_prefix_same M HM lit s prev Hlit) as [H1 H2].
  rewrite H1, migrate_head by exact HM.
  destruct (prefixb lit s) eqn:E; [|rewrite !andb_false_r; reflexivity].
  rewrite (H2 eq_refl), migrate_head by exact HM. reflexivity.
Qed.

Lemma occurs_migrate_same (M : list text) (a0 : ascii) (l : text) :
  all_ok M -> is_word a0 = true ->
  (forall d, In d (a0 :: l) -> d <> "W") ->
  (forall m p, In m M ->
               no_start_after_break a0 p (old_owner ++ m) = true /\
               no_start_after_break a0 p (new_owner ++ m) = true) ->
  forall s prev, occurs (a0 :: l) prev (migrate M prev s) = occurs (a0 :: l) prev s.
Proof.
  intros HM Ha Hlit Hreg. induction s as [s IH] using text_length_ind. intro prev.
  pose proof (occ_migrate_same M (a0 :: l) HM Hlit s prev) as Hocc.
  destruct (migrate_cases M prev s HM)
    as [[-> ->] | [(m & rest & Hin & Hm & Ho & Hs & Hmig) | (c & s' & -> & Hnone & Hmig)]].
  - reflexivity.
  - destruct (Hreg m prev Hin) as [Hold Hnew].
    rewrite Hmig, Hs.
    rewrite (occurs_skip_region a0 l _ _ Ha prev Hnew).
    rewrite (occurs_skip_region a0 l _ _ Ha prev Hold).
    rewrite (ref_last_same m prev Hm).
    apply IH. rewrite Hs, length_app, old_ref_shape. cbn [length]. lia.
  - rewrite Hmig in *. cbn [occurs]. rewrite Hocc. f_equal. apply IH. cbn [length]. lia.
Qed.

(** *** Through the call-pattern substitution stage *)

Lemma color_scan_prefix_same (name : text) (has_arg : bool) :
  forall u s prev,
    no_start_after_break "C" prev u = true ->
    no_start_after_break "t" prev u = true ->
    prefixb u (color_scan name has_arg prev s) = prefixb u s /\
    (prefixb u s = true ->
     skipn (length u) (color_scan name has_arg prev s)
     = color_scan name has_arg (last_of u prev) (skipn (length u) s)).
Proof.
  induction u as [|a u IH]; intros s prev HC Ht; [split; reflexivity|].
  cbn [no_start_after_break] in HC, Ht.
  apply andb_true_iff in HC. destruct HC as [HaC HC].
  apply andb_true_iff in Ht. destruct Ht as [Hat Ht].
  destruct (color_scan_cases name has_arg prev s)
    as [[-> E] | [(ws1 & ws2 & arg & ws3 & rest & -> & Hb & _ & _ & _ & E)
                 | (c & s' & -> & E)]];
    rewrite E.
  - split; [reflexivity | discriminate].
  - rewrite Hb in HaC, Hat. cbn [negb] in HaC, Hat. rewrite andb_true_r in HaC, Hat.
    apply negb_true_iff in HaC, Hat.
    unfold manager_call, call_text. cbn [str list_ascii_of_string app prefixb].
    rewrite HaC, Hat. split; [reflexivity | discriminate].
  - cbn [prefixb length skipn].
    destruct (Ascii.eqb_spec a c) as [->|Hne]; cbn [andb].
    + destruct (IH s' (Some c) HC Ht) as [H1 H2].
      rewrite last_of_cons. split; [exact H1 | exact H2].
    + split; [reflexivity | discriminate].
Qed.

Lemma occ_color_scan_same (name : text) (has_arg : bool) (lit : text) prev (s : text) :
  no_start_after_break "C" prev lit = true ->
  no_start_after_break "t" prev lit = true ->
  occ lit prev (color_scan name has_arg prev s) = occ lit prev s.
Proof.
  intros HC Ht. unfold occ, at_boundary.
  destruct (color_scan_prefix_same name has_arg lit s prev HC Ht) as [H1 H2].
  rewrite H1, color_scan_head.
  destruct (prefixb lit s) eqn:E; [|rewrite !andb_false_r; reflexivity].
  rewrite (H2 eq_refl), color_scan_head. reflexivity.
Qed.

Lemma occurs_color_scan_same (name : text) (has_arg : bool) (a0 : ascii) (l : text) :
  (forall d, In d (str "ColorManager." ++ name ++ ["("]) -> d <> a0) ->
  (forall d, In d (str "this." ++ name) -> d <> a0) ->
  forallb ref_char (a0 :: l) = true ->
  (forall p, no_start_after_break "C" p (a0 :: l) = true) ->
  (forall p, no_start_after_break "t" p (a0 :: l) = true) ->
  forall s prev,
    occurs (a0 :: l) prev (color_scan name has_arg prev s) = occurs (a0 :: l) prev s.
Proof.
  intros HX HXin Href HC Ht.
  assert (Hcl : forall d, In d (a0 :: l) -> d <> ")")
    by (apply ref_char_stop; [exact Href | reflexivity]).
  assert (Hop : forall d, In d (a0 :: l) -> d <> "(")
    by (apply ref_char_stop; [exact Href | reflexivity]).
  assert (Hsp : forall ws, forallb is_space ws = true -> forall c, In c ws -> c <> a0).
  { intros ws Hw c Hc E. subst c.
    exact (spaces_stop _ _ Href Hw a0 a0 (or_introl eq_refl) Hc eq_refl). }
  induction s as [s IH] using text_length_ind. intro prev.
  destruct (color_scan_cases name has_arg prev s)
    as [[-> E] | [(ws1 & ws2 & arg & ws3 & rest & -> & Hb & H1 & H2 & H3 & E)
                 | (c & s' & -> & E)]].
  - rewrite E. reflexivity.
  - rewrite E. clear E.
    assert (Hend : exists c0 b, ws3 ++ [")"] = c0 :: b /\ ref_char c0 = false /\
                                word_opt (Some c0) = false /\
                                (forall d, In d b -> d <> a0) /\
                                last_of b (Some c0) = Some ")").
    { destruct ws3 as [|w ws3].
      - exists ")", []. repeat split; try reflexivity. intros d [].
      - exists w, (ws3 ++ [")"]). cbn [forallb] in H3. apply andb_true_iff in H3.
        destruct H3 as [Hw H3]. split; [reflexivity|].
        split; [apply space_not_ref; exact Hw|].
        split; [cbn [word_opt]; destruct (is_word w) eqn:Ew; [|reflexivity];
                rewrite (word_not_space w Ew) in Hw; discriminate|].
        split; [|apply last_of_snoc].
        intros d Hd. apply in_app_or in Hd. destruct Hd as [Hd|[<-|[]]].
        + exact (Hsp ws3 H3 d Hd).
        + intro Ex. apply (Hcl a0 (or_introl eq_refl)). symmetry. exact Ex. }
    destruct Hend as (c0 & b & Hend & Hc0 & Hw0 & Hbfree & Hblast).
    assert (Hstop0 : forall d, In d (a0 :: l) -> d <> c0) by (apply ref_char_stop; assumption).
    assert (Hout : occurs (a0 :: l) prev
                          (manager_call name arg ++ color_scan name has_arg (Some ")") rest)
                   = occurs (a0 :: l) (last_of (str "ColorManager." ++ name ++ ["("]) prev)
                            (arg ++ [c0])
                     || occurs (a0 :: l) (Some ")") (color_scan name has_arg (Some ")") rest)).
    { unfold manager_call.
      replace ((str "ColorManager." ++ name ++ "(" :: arg ++ [")"])
               ++ color_scan name has_arg (Some ")") rest)
        with ((str "ColorManager." ++ name ++ ["("]) ++ arg
              ++ ")" :: color_scan name has_arg (Some ")") rest)
        by (reassoc; reflexivity).
      rewrite (occurs_pass a0 l _ _ HX).
      apply (occurs_stop a0 l ")" c0 _ (fun d Hd => conj (Hcl d Hd) (Hstop0 d Hd))
                         (eq_sym Hw0)). }
    assert (Hin : occurs (a0 :: l) prev (call_text name ws1 ws2 arg ws3 ++ rest)
                  = occurs (a0 :: l)
                           (last_of ((str "this." ++ name) ++ ws1 ++ "(" :: ws2) prev)
                           (arg ++ [c0])
                    || occurs (a0 :: l) (Some ")") rest).
    { unfold call_text.
      replace (((str "this." ++ name) ++ ws1 ++ "(" :: ws2 ++ arg ++ ws3 ++ [")"]) ++ rest)
        with (((str "this." ++ name) ++ ws1 ++ "(" :: ws2) ++ arg ++ (ws3 ++ [")"]) ++ rest)
        by (reassoc; reflexivity).
      rewrite Hend. cbn [app].
      rewrite (occurs_pass a0 l ((str "this." ++ name) ++ ws1 ++ "(" :: ws2)).
      2:{ intros d Hd. apply in_app_or in Hd. destruct Hd as [Hd|Hd]; [exact (HXin d Hd)|].
          apply in_app_or in Hd. destruct Hd as [Hd|[<-|Hd]].
          - exact (Hsp ws1 H1 d Hd).
          - intro Ex. apply (Hop a0 (or_introl eq_refl)). symmetry. exact Ex.
          - exact (Hsp ws2 H2 d Hd). }
      rewrite (occurs_stop a0 l c0 c0 _ (fun d Hd => conj (Hstop0 d Hd) (Hstop0 d Hd)) eq_refl).
      rewrite (occurs_pass a0 l b _ Hbfree), Hblast. reflexivity. }
    rewrite Hout, Hin.
    rewrite IH by (unfold call_text; lens; lia).
    f_equal. apply occurs_prev_class.
    assert (Hwin : word_opt (last_of ((str "this." ++ name) ++ ws1 ++ "(" :: ws2) prev) = false).
    { rewrite 2 last_of_app. rewrite last_of_cons. apply last_of_spaces; [exact H2 | reflexivity]. }
    assert (Hwout : word_opt (last_of (str "ColorManager." ++ name ++ ["("]) prev) = false).
    { rewrite 2 last_of_app. reflexivity. }
    rewrite Hwin, Hwout. reflexivity.
  - pose proof (occ_color_scan_same name has_arg (a0 :: l) prev (c :: s') (HC prev) (Ht prev))
      as Hocc.
    rewrite E in *. cbn [occurs]. rewrite Hocc. f_equal. apply IH. cbn [length]. lia.
Qed.

(** *** The plugin command hook through the first three stages *)

Lemma methods_regions :
  Forall (fun m => forall p,
              no_start_after_break "G" p (old_owner ++ m) = true /\
              no_start_after_break "G" p (new_owner ++ m) = true)
         methods_catalog.
Proof. repeat (constructor; [intro p; split; reflexivity|]). constructor. Qed.

Lemma color_names_hook_free :
  Forall (fun p => one_of (str "ColorManager." ++ fst p ++ ["("]) "G" = false /\
                   one_of (str "this." ++ fst p) "G" = false)
         color_names.
Proof. repeat constructor. Qed.

Lemma hook_through_header (s : text) :
  occurs plugin_command None (fst (header_stage s)) = occurs plugin_command None s.
Proof.
  apply (header_stage_keeps_refs "G" (tl plugin_command) s); [reflexivity|].
  intros d Hd. eapply (one_of_false target_marker); [reflexivity | exact Hd].
Qed.

Lemma hook_through_migration (s : text) :
  occurs plugin_command None (migrate methods_catalog None s) = occurs plugin_command None s.
Proof.
  apply (occurs_migrate_same methods_catalog "G" (tl plugin_command) methods_ok eq_refl).
  - intros d Hd. eapply (one_of_false plugin_command); [reflexivity | exact Hd].
  - intros m p Hm. pose proof methods_regions as H. rewrite Forall_forall in H.
    exact (H m Hm p).
Qed.

Lemma hook_through_colors (s : text) (keep : bool) (s3 : text) (c3 : list text) :
  colors_stage s keep = Some (s3, c3) ->
  occurs plugin_command None s3 = occurs plugin_command None s.
Proof.
  intro Hrun. unfold colors_stage in Hrun.
  destruct keep; [injection Hrun as <- _; reflexivity|].
  apply (fold_opt_inv substitute_step
           (fun acc => occurs plugin_command None (fst acc) = occurs plugin_command None s)
           color_catalog) with (s := (s, [])) (s' := (s3, c3)); [|reflexivity|exact Hrun].
  intros e acc acc' Hin Hacc Hstep.
  rewrite color_catalog_entries in Hin. apply in_map_iff in Hin.
  destruct Hin as ([name has_arg] & <- & Hin). cbn [fst snd] in Hstep.
  pose proof color_names_compile as Hc. rewrite Forall_forall in Hc.
  pose proof color_names_hook_free as Hf. rewrite Forall_forall in Hf.
  specialize (Hc _ Hin). destruct (Hf _ Hin) as [Hf1 Hf2]. cbn [fst snd] in Hc, Hf1, Hf2.
  unfold substitute_step in Hstep. rewrite Hc in Hstep.
  pose proof (sub_scan_text (color_regex name has_arg) (expand (color_template name has_arg))
                            (never_empty_color name has_arg) (fst acc) None 0) as Hsub.
  destruct (sub_scan _ _ None (fst acc) 0) as [out n]. cbn [fst] in Hsub.
  destruct (Nat.ltb 0 n); injection Hstep as <-; [|exact Hacc].
  cbn [fst]. rewrite <- Hacc, Hsub.
  apply (occurs_color_scan_same name has_arg "G" (tl plugin_command)).
  - intros d Hd. exact (one_of_false _ _ d Hf1 Hd).
  - intros d Hd. exact (one_of_false _ _ d Hf2 Hd).
  - reflexivity.
  - intro p. reflexivity.
  - intro p. reflexivity.
Qed.

Lemma window_base_change_inj (m m' : text) :
  window_base_change m = window_base_change m' -> m = m'.
Proof.
  unfold window_base_change. intro H.
  apply app_inv_head in H.
  assert (Hlen : length m = length m').
  { apply (f_equal (@length ascii)) in H. rewrite !length_app in H. lia. }
  apply app_eq_length in H; [tauto | exact Hlen].
Qed.

Lemma header_stage_changed (s : text) :
  snd (header_stage s) = true <->
  exists start len gs,
    re_search header_block_re s = Some (start, len, gs) /\
    contains (str "@target") (firstn len (skipn start s)) = false.
Proof.
  destruct (re_search header_block_re s) as [[[start len] gs]|] eqn:Hs.
  - rewrite (header_stage_at s start len gs Hs). cbv zeta.
    assert (Hne : firstn len (skipn start s) <> []).
    { destruct (header_block_found s start len gs Hs)
        as (pre & x & post & Hsrc & -> & -> & _).
      rewrite Hsrc, skipn_app_length, firstn_app_length. discriminate. }
    pose proof (add_target_mz_has_target _ Hne) as Hhas.
    destruct (contains (str "@target") (firstn len (skipn start s))) eqn:Ec.
    + assert (Hsame : add_target_mz (firstn len (skipn start s)) = firstn len (skipn start s))
        by (unfold add_target_mz; rewrite Ec; reflexivity).
      rewrite Hsame. destruct (text_eqb _ _) eqn:E.
      * cbn [negb snd]. split; [discriminate|].
        intros (st & ln & g & Heq & Hno). injection Heq as <- <- _. congruence.
      * exfalso. assert (text_eqb (firstn len (skipn start s)) (firstn len (skipn start s)) = true)
          by (apply text_eqb_eq; reflexivity). congruence.
    + destruct (text_eqb _ _) eqn:E.
      * apply text_eqb_eq in E. rewrite E in Hhas. congruence.
      * cbn [negb snd]. split; [|reflexivity].
        intros _. exists start, len, gs. split; [reflexivity | exact Ec].
  - unfold header_stage. rewrite Hs. cbn [snd]. split; [discriminate|].
    intros (st & ln & g & Heq & _). discriminate Heq.
Qed.

Lemma color_lines_head (s : text) (keep : bool) (s3 : text) (c3 : list text) :
  colors_stage s keep = Some (s3, c3) ->
  forall line, In line c3 -> hd_error line = Some backslash.
Proof.
  unfold colors_stage. destruct keep; [intro H; injection H as _ <-; intros line []|].
  intro H. apply colors_stage_lines in H. destruct H as (extra & Hex & Hall).
  cbn [snd app] in Hex. subst c3. rewrite Forall_forall in Hall.
  intros line Hin. destruct (Hall line Hin) as (e & n & He & ->).
  pose proof pattern_heads as Hp. rewrite Forall_forall in Hp. specialize (Hp e He).
  destruct e as [[|c p] repl]; cbn [fst snd] in *; [discriminate Hp|].
  unfold color_change. cbn [app hd_error]. exact Hp.
Qed.

(** X12.  What the report of [convert_text] says of the source as it was
    given: it has the header line exactly when the first header block
    of the source has no [@target] directive; it has the line of a
    method exactly when the method is catalogued and its old reference
    stands in the source; and it has the annotation line exactly when
    the plugin command hook stands in the source.  The stages that run
    before a stage do not change what it finds of these. *)
Theorem report_reflects_source (source : text) (keep : bool) :
  exists out report,
    eval (convert_text source keep) = Some (out, report) /\
    (In header_change report <->
     exists start len gs,
       re_search header_block_re source = Some (start, len, gs) /\
       contains (str "@target") (firstn len (skipn start source)) = false) /\
    (forall m,
        In (window_base_change m) report <->
        In m methods_catalog /\ occurs (old_owner ++ m) None source = true) /\
    (In annotated_change report <-> occurs plugin_command None source = true).
Proof.
  rewrite eval_convert_text. unfold convert_stages.
  destruct (header_stage source) as [s1 changed] eqn:E1.
  rewrite migrate_stage_run.
  destruct (colors_stage_total (migrate methods_catalog None s1) keep) as [[s3 c3] E3].
  rewrite E3, annotate_steps. eexists. eexists. split; [reflexivity|].
  pose proof (color_lines_head _ _ _ _ E3) as Hc3.
  pose proof (header_stage_changed source) as Hchanged. rewrite E1 in Hchanged.
  cbn [snd] in Hchanged.
  assert (Hhook : occurs plugin_command None s3 = occurs plugin_command None source).
  { rewrite (hook_through_colors _ _ _ _ E3), hook_through_migration.
    pose proof (hook_through_header source) as H. rewrite E1 in H. exact H. }
  assert (Hrefs : forall m, In m methods_catalog ->
                            occurs (old_owner ++ m) None s1 = occurs (old_owner ++ m) None source).
  { intros m Hm. pose proof methods_refs as Hr. rewrite Forall_forall in Hr.
    destruct (Hr m Hm) as (_ & Href & _).
    pose proof (header_stage_keeps_refs "W" (old_tail ++ m) source Href) as H.
    rewrite E1 in H. apply H.
    intros d Hd. eapply (one_of_false target_marker); [reflexivity | exact Hd]. }
  set (hdr := if changed then [header_change] else []).
  set (c2 := map window_base_change
                 (filter (fun m => occurs (old_owner ++ m) None s1) methods_catalog)).
  set (c4 := if occurs plugin_command None s3 then [annotated_change] else []).
  assert (Hc2 : forall line, In line c2 -> hd_error line = Some "W").
  { intros line Hin. apply in_map_iff in Hin. destruct Hin as (m & <- & _). reflexivity. }
  assert (Hsplit : forall line,
             In line (((hdr ++ c2) ++ c3) ++ c4) <->
             In line hdr \/ In line c2 \/ In line c3 \/ In line c4).
  { intro line. rewrite !in_app_iff. tauto. }
  split; [|split].
  - rewrite Hsplit, <- Hchanged. split.
    + intros [H | [H | [H | H]]].
      * unfold hdr in H. destruct changed; [reflexivity | destruct H].
      * apply Hc2 in H. discriminate H.
      * apply Hc3 in H. discriminate H.
      * unfold c4 in H. destruct (occurs plugin_command None s3); [|destruct H].
        destruct H as [H|[]]. discriminate H.
    + intros ->. left. left. reflexivity.
  - intro m. rewrite Hsplit. split.
    + intros [H | [H | [H | H]]].
      * unfold hdr in H. destruct changed; [|destruct H]. destruct H as [H|[]].
        apply (f_equal (@hd_error ascii)) in H. discriminate H.
      * apply in_map_iff in H. destruct H as (m' & Heq & Hin).
        apply window_base_change_inj in Heq. subst m'.
        apply filter_In in Hin. destruct Hin as [Hm Ho].
        split; [exact Hm|]. rewrite <- (Hrefs m Hm). exact Ho.
      * apply Hc3 in H. discriminate H.
      * unfold c4 in H. destruct (occurs plugin_command None s3); [|destruct H].
        destruct H as [H|[]]. apply (f_equal (@hd_error ascii)) in H. discriminate H.
    + intros [Hm Ho]. right. left. apply in_map. apply filter_In.
      split; [exact Hm|]. rewrite (Hrefs m Hm). exact Ho.
  - rewrite Hsplit, <- Hhook. split.
    + intros [H | [H | [H | H]]].
      * unfold hdr in H. destruct changed; [|destruct H]. destruct H as [H|[]].
        discriminate H.
      * apply Hc2 in H. discriminate H.
      * apply Hc3 in H. discriminate H.
      * unfold c4 in H. destruct (occurs plugin_command None s3); [reflexivity | destruct H].
    + intro H. right. right. right. unfold c4. rewrite H. left. reflexivity.
Qed.

(** ** At most one line for each rule *)

Lemma color_change_is_color (e : text * text) (n : nat) :
  In e color_catalog -> is_color_change (color_change (fst e) (snd e) n) = true.
Proof.
  intro He. unfold is_color_change. apply existsb_exists. exists e. split; [exact He|].
  unfold color_change.
  replace (fst e ++ str " -> " ++ snd e ++ str " (" ++ str_of_nat n ++ str "x)")
    with ((fst e ++ str " -> " ++ snd e ++ str " (") ++ str_of_nat n ++ str "x)")
    by (rewrite <- !app_assoc; reflexivity).
  apply prefixb_app.
Qed.

Lemma Sublist_filter {A} (f : A -> bool) (l : list A) : Sublist (filter f l) l.
Proof.
  induction l as [|x l IH]; cbn [filter]; [apply Sublist_nil|].
  destruct (f x); [apply Sublist_keep | apply Sublist_skip]; exact IH.
Qed.

Lemma Sublist_In {A} (a b : list A) (x : A) : Sublist a b -> In x a -> In x b.
Proof.
  induction 1 as [|a b y _ IH|z a b _ IH]; intro Hin.
  - exact Hin.
  - right. apply IH. exact Hin.
  - destruct Hin as [->|Hin]; [left; reflexivity | right; apply IH; exact Hin].
Qed.

Lemma Sublist_length {A} (a b : list A) : Sublist a b -> length a <= length b.
Proof. induction 1; cbn [length]; lia. Qed.

Lemma Sublist_NoDup {A} (a b : list A) : Sublist a b -> NoDup b -> NoDup a.
Proof.
  induction 1 as [|a b y _ IH|z a b Hs IH]; intro Hb.
  - exact Hb.
  - apply IH. inversion Hb; assumption.
  - inversion Hb as [|? ? Hz Hb']; subst. constructor; [|apply IH; exact Hb'].
    intro Hin. apply Hz. exact (Sublist_In _ _ _ Hs Hin).
Qed.

Lemma NoDup_map_inj {A B} (f : A -> B) (l : list A) :
  (forall x y, f x = f y -> x = y) -> NoDup l -> NoDup (map f l).
Proof.
  intros Hf. induction 1 as [|x l Hx _ IH]; cbn [map]; constructor; [|exact IH].
  intro Hin. apply in_map_iff in Hin. destruct Hin as (y & Heq & Hy).
  apply Hf in Heq. subst y. exact (Hx Hy).
Qed.

Lemma distinct_NoDup (l : list text) : distinct l = true -> NoDup l.
Proof.
  induction l as [|x l IH]; intro H; [constructor|].
  cbn [distinct] in H. apply andb_true_iff in H. destruct H as [Hx Hl].
  constructor; [|apply IH; exact Hl].
  intro Hin. apply mem_In in Hin. rewrite Hin in Hx. discriminate Hx.
Qed.

Lemma differ_app (p q x y : text) : differ p q = true -> p ++ x <> q ++ y.
Proof.
  revert q. induction p as [|a p IH]; intros [|b q] H; cbn [differ] in H;
    try discriminate H.
  cbn [app]. intro Heq. injection Heq as -> Heq.
  rewrite Ascii.eqb_refl in H. cbn [negb orb] in H. exact (IH q H Heq).
Qed.

Lemma all_differ_sub (a b : list (text * text)) :
  Sublist a b -> all_differ b = true -> all_differ a = true.
Proof.
  induction 1 as [|a b y _ IH|z a b Hs IH]; intro Hb.
  - reflexivity.
  - cbn [all_differ] in Hb. apply andb_true_iff in Hb. apply IH. tauto.
  - cbn [all_differ] in *. apply andb_true_iff in Hb. destruct Hb as [Hz Hb].
    rewrite (IH Hb), andb_true_r. rewrite forallb_forall in *.
    intros e He. apply Hz. exact (Sublist_In _ _ _ Hs He).
Qed.

Lemma color_lines_NoDup (es : list ((text * text) * nat)) :
  all_differ (map fst es) = true -> NoDup (map color_line es).
Proof.
  induction es as [|en es IH]; intro H; [constructor|].
  cbn [map all_differ] in H. apply andb_true_iff in H. destruct H as [Hen Hes].
  cbn [map]. constructor; [|apply IH; exact Hes].
  intro Hin. apply in_map_iff in Hin. destruct Hin as (en' & Heq & Hin').
  rewrite forallb_forall in Hen.
  specialize (Hen (fst en') (in_map fst _ _ Hin')).
  unfold color_line, color_change in Heq. symmetry in Heq.
  exact (differ_app _ _ _ _ Hen Heq).
Qed.

Lemma color_catalog_differ : all_differ color_catalog = true.
Proof. reflexivity. Qed.

(** The lines the call-pattern entries add: one for each entry that
    fires, in the order of the entries. *)
Lemma substitute_steps_lines (l : list (text * text)) :
  forall acc acc',
    fold_opt substitute_step l acc = Some acc' ->
    exists es,
      snd acc' = snd acc ++ map color_line es /\
      Sublist (map fst es) l /\ Forall (fun en => 0 < snd en) es.
Proof.
  induction l as [|e l IH]; intros acc acc' H; cbn [fold_opt] in H.
  - injection H as <-. exists []. cbn [map]. rewrite app_nil_r.
    split; [reflexivity|]. split; constructor.
  - destruct (substitute_step e acc) as [acc1|] eqn:E; [|discriminate].
    destruct (IH acc1 acc' H) as (es & Hsnd & Hsub & Hpos).
    unfold substitute_step in E.
    destruct (compile_entry e) as [[r tpl]|]; [|discriminate].
    destruct (sub_scan r (expand tpl) None (fst acc) 0) as [out n].
    destruct (Nat.ltb 0 n) eqn:En; injection E as <-; cbn [snd] in Hsnd.
    + exists ((e, n) :: es). cbn [map fst snd].
      split; [rewrite Hsnd, <- app_assoc; reflexivity|].
      split; [apply Sublist_keep; exact Hsub|].
      constructor; [apply Nat.ltb_lt; exact En | exact Hpos].
    + exists es. split; [exact Hsnd|]. split; [apply Sublist_skip; exact Hsub | exact Hpos].
Qed.

Lemma color_line_head (es : list ((text * text) * nat)) (line : text) :
  Sublist (map fst es) color_catalog -> In line (map color_line es) ->
  hd_error line = Some backslash.
Proof.
  intros Hsub Hin. apply in_map_iff in Hin. destruct Hin as (en & <- & Hen).
  pose proof pattern_heads as Hp. rewrite Forall_forall in Hp.
  specialize (Hp (fst en) (Sublist_In _ _ _ Hsub (in_map fst _ _ Hen))).
  unfold color_line, color_change.
  destruct en as [[[|c p] repl] n]; cbn [fst snd] in *; [discriminate Hp | exact Hp].
Qed.

(** X13.  The report of [convert_text] never has more than one line for each
    rule: it is the header line or nothing, then the lines of some of
    the catalogued methods, each once and in the order of the
    catalogue, then the lines of some of the call patterns, each once
    with its count and in the order of the catalogue, then the
    annotation line or nothing.  So it has 29 lines at most, however
    long the source is and however often a rule fires, and no line
    stands in it twice. *)
Theorem report_one_line_per_rule (source : text) (keep : bool) :
  exists out report,
    eval (convert_text source keep) = Some (out, report) /\
    length report
    <= 1 + length methods_catalog + length color_catalog + length signs_catalog /\
    Forall (fun line =>
              line = header_change \/ is_window_base_change line = true \/
              is_color_change line = true \/ line = annotated_change) report /\
    (exists (changed hook : bool) (ms : list text) (es : list ((text * text) * nat)),
        report = (if changed then [header_change] else []) ++
                 map window_base_change ms ++ map color_line es ++
                 (if hook then [annotated_change] else []) /\
        Sublist ms methods_catalog /\ Sublist (map fst es) color_catalog /\
        Forall (fun en => 0 < snd en) es) /\
    NoDup report.
Proof.
  rewrite eval_convert_text. unfold convert_stages.
  destruct (header_stage source) as [s1 changed] eqn:E1.
  rewrite migrate_stage_run.
  destruct (colors_stage_total (migrate methods_catalog None s1) keep) as [[s3 c3] E3].
  rewrite E3, annotate_steps. eexists. eexists. split; [reflexivity|].
  set (ms := filter (fun m => occurs (old_owner ++ m) None s1) methods_catalog).
  assert (Hms : Sublist ms methods_catalog) by apply Sublist_filter.
  assert (Hes : exists es, c3 = map color_line es /\ Sublist (map fst es) color_catalog /\
                           Forall (fun en => 0 < snd en) es).
  { unfold colors_stage in E3. destruct keep.
    - injection E3 as _ <-. exists []. split; [reflexivity|].
      split; [|constructor]. cbn [map].
      clear. induction color_catalog; [apply Sublist_nil | apply Sublist_skip; assumption].
    - apply substitute_steps_lines in E3. exact E3. }
  destruct Hes as (es & -> & Hes & Hpos).
  set (hook := occurs plugin_command None s3).
  set (hdr := if changed then [header_change] else []).
  set (ann := if hook then [annotated_change] else []).
  assert (Hhdr : forall line, In line hdr -> line = header_change)
    by (intros line H; unfold hdr in H; destruct changed; [destruct H as [<-|[]]; reflexivity
                                                          | destruct H]).
  assert (Hann : forall line, In line ann -> line = annotated_change)
    by (intros line H; unfold ann in H; destruct hook; [destruct H as [<-|[]]; reflexivity
                                                       | destruct H]).
  assert (Hw : forall line, In line (map window_base_change ms) -> hd_error line = Some "W").
  { intros line Hin. apply in_map_iff in Hin. destruct Hin as (m & <- & _). reflexivity. }
  pose proof (color_line_head es) as Hc.
  split; [|split; [|split]].
  - rewrite !length_app, !length_map.
    pose proof (Sublist_length _ _ Hms) as H2.
    pose proof (Sublist_length _ _ Hes) as H3. rewrite length_map in H3.
    assert (H1 : length hdr <= 1) by (unfold hdr; destruct changed; cbn [length]; lia).
    assert (H4 : length ann <= length signs_catalog)
      by (unfold ann; destruct hook; cbn [length signs_catalog]; lia).
    apply Nat.add_le_mono; [apply Nat.add_le_mono; [apply Nat.add_le_mono|]|]; assumption.
  - rewrite !Forall_app. repeat split.
    + apply Forall_forall. intros line H. left. exact (Hhdr line H).
    + apply Forall_forall. intros line Hin. right. left.
      apply in_map_iff in Hin. destruct Hin as (m & <- & Hm).
      unfold is_window_base_change. apply existsb_exists. exists m.
      split; [exact (Sublist_In _ _ _ Hms Hm) | apply text_eqb_eq; reflexivity].
    + apply Forall_forall. intros line Hin. right. right. left.
      apply in_map_iff in Hin. destruct Hin as (en & <- & Hen).
      apply color_change_is_color.
      exact (Sublist_In _ _ _ Hes (in_map fst _ _ Hen)).
    + apply Forall_forall. intros line H. right. right. right. exact (Hann line H).
  - exists changed, hook, ms, es. split; [|auto].
    rewrite <- !app_assoc. reflexivity.
  - assert (N1 : NoDup hdr) by (unfold hdr; destruct changed; repeat constructor; intros []).
    assert (N4 : NoDup ann) by (unfold ann; destruct hook; repeat constructor; intros []).
    assert (N2 : NoDup (map window_base_change ms)).
    { apply NoDup_map_inj.
      - intros m m'. apply window_base_change_inj.
      - exact (Sublist_NoDup _ _ Hms (distinct_NoDup _ methods_distinct)). }
    assert (N3 : NoDup (map color_line es)).
    { apply color_lines_NoDup. exact (all_differ_sub _ _ Hes color_catalog_differ). }
    apply NoDup_app;
      [apply NoDup_app; [apply NoDup_app; [exact N1 | exact N2 |] | exact N3 |] | exact N4 |].
    + intros line H1 H2. apply Hhdr in H1. apply Hw in H2. subst line. discriminate H2.
    + intros line H1 H2. apply Hc in H2; [|exact Hes].
      apply in_app_or in H1. destruct H1 as [H1|H1].
      * apply Hhdr in H1. subst line. discriminate H2.
      * apply Hw in H1. rewrite H1 in H2. discriminate H2.
    + intros line H1 H2. apply Hann in H2. subst line.
      apply in_app_or in H1. destruct H1 as [H1|H1];
        [apply in_app_or in H1; destruct H1 as [H1|H1]|].
      * apply Hhdr in H1. discriminate H1.
      * apply Hw in H1. discriminate H1.
      * apply Hc in H1; [discriminate H1 | exact Hes].
Qed.

(** ** The pattern of a method *)

Lemma parse_escaped (l rest : text) :
  forall acc ng stack,
    parse (re_escape l ++ rest) None acc ng stack
    = parse rest None (rev (lit_items l) ++ acc) ng stack.
Proof.
  induction l as [|c l IH]; intros acc ng stack; [reflexivity|].
  unfold re_escape in *. cbn [flat_map lit_items map rev].
  rewrite <- !app_assoc. cbn [app].
  destruct (one_of special_chars c) eqn:E.
  - cbn [app parse]. rewrite Ascii.eqb_refl.
    assert (He : escape_item c = Some (Chr (CLit c))).
    { unfold special_chars in E. unfold one_of in E. cbn [str list_ascii_of_string app existsb] in E.
      repeat (apply orb_true_iff in E; destruct E as [E|E];
              [apply Ascii.eqb_eq in E; subst c; reflexivity|]).
      discriminate E. }
    rewrite He. apply IH.
  - cbn [app parse].
    assert (Hraw : forall d, one_of special_chars d = true -> Ascii.eqb c d = false).
    { intros d Hd. destruct (Ascii.eqb_spec c d) as [->|]; [congruence | reflexivity]. }
    rewrite (Hraw backslash eq_refl), (Hraw "[" eq_refl), (Hraw "." eq_refl),
      (Hraw "(" eq_refl), (Hraw ")" eq_refl), (Hraw "*" eq_refl).
    assert (Hq : one_of (str "?+{}|^$") c = false).
    { unfold one_of. cbn [str list_ascii_of_string existsb].
      rewrite (Hraw "?" eq_refl), (Hraw "+" eq_refl), (Hraw "{" eq_refl),
        (Hraw "}" eq_refl), (Hraw "|" eq_refl), (Hraw "^" eq_refl), (Hraw "$" eq_refl).
      reflexivity. }
    rewrite Hq. apply IH.
Qed.

Lemma re_escape_app (a b : text) : re_escape (a ++ b) = re_escape a ++ re_escape b.
Proof. unfold re_escape. apply flat_map_app. Qed.

Lemma lit_items_app (a b : text) : lit_items (a ++ b) = lit_items a ++ lit_items b.
Proof. unfold lit_items. apply map_app. Qed.

Lemma escaped_word_compiles (lit : text) :
  re_compile (str "\b" ++ re_escape lit ++ str "\b") = Some (word_pattern lit).
Proof.
  unfold re_compile.
  change (str "\b" ++ re_escape lit ++ str "\b")
    with (backslash :: "b" :: re_escape lit ++ str "\b").
  assert (Hb : forall rest acc, parse (backslash :: "b" :: rest) None acc 0 []
                                = parse rest None (Bnd :: acc) 0 []) by reflexivity.
  rewrite Hb, parse_escaped.
  change (str "\b") with (backslash :: "b" :: []). rewrite Hb.
  cbn [parse]. unfold word_pattern. f_equal. f_equal.
  cbn [rev]. rewrite rev_app_distr, rev_involutive. reflexivity.
Qed.

(** X14.  The pattern the symbol migration stage builds for a method name
    compiles whatever characters the name holds, those special in
    patterns too, and it matches the literal qualified reference
    between two word boundaries and nothing else. *)
Theorem method_pattern_literal (method source : text) :
  re_compile (window_base_pattern method) = Some (word_pattern (old_owner ++ method)) /\
  pattern_occurs (window_base_pattern method) source
  = occurs (old_owner ++ method) None source.
Proof.
  assert (Hc : re_compile (window_base_pattern method)
               = Some (word_pattern (old_owner ++ method))).
  { rewrite <- escaped_word_compiles, re_escape_app, <- app_assoc. reflexivity. }
  split; [exact Hc|].
  unfold pattern_occurs. rewrite Hc. unfold re_search.
  apply search_word_pattern. rewrite old_ref_shape. discriminate.
Qed.

(** ** The report file *)

Lemma report_text_empty (in_name out_name : text) (report : list text) :
  report_text in_name out_name report = str "No heuristic changes were necessary."
  <-> report = [].
Proof.
  destruct report as [|line report]; [split; reflexivity|].
  split; discriminate.
Qed.

(** X15.  The report file that [main] writes holds the one sentence
    [No heuristic changes were necessary.] exactly when the text
    [convert_text] returned, which [main] writes to the output file, is
    the source text it was given. *)
Theorem report_file_says_unchanged (source : text) (keep : bool) (in_name out_name : text) :
  exists out report,
    eval (convert_text source keep) = Some (out, report) /\
    (report_text in_name out_name report = str "No heuristic changes were necessary."
     <-> out = source).
Proof.
  rewrite eval_convert_text.
  destruct (convert_stages_report_empty source keep) as (out & report & E & H).
  exists out, report. split; [exact E|].
  rewrite report_text_empty. exact H.
Qed.

(** ** With the skip flag set the converter only puts text in *)

Lemma Subseq_refl (a : text) : Subseq a a.
Proof. induction a; [apply Subseq_nil | apply Subseq_keep; assumption]. Qed.

Lemma Subseq_app (a b c d : text) : Subseq a b -> Subseq c d -> Subseq (a ++ c) (b ++ d).
Proof.
  intros H1 H2. induction H1; cbn [app];
    [assumption | apply Subseq_skip; assumption | apply Subseq_keep; assumption].
Qed.

Lemma Subseq_trans (a b c : text) : Subseq a b -> Subseq b c -> Subseq a c.
Proof.
  intros H1 H2. revert a H1. induction H2 as [|b c y H2 IH|x b c H2 IH]; intros a H1.
  - exact H1.
  - constructor. apply IH. exact H1.
  - inversion H1 as [|a' b' y' H|x' a' b' H]; subst.
    + apply Subseq_skip. apply IH. exact H.
    + apply Subseq_keep. apply IH. exact H.
Qed.

Lemma Subseq_put (u b : text) : Subseq b (u ++ b).
Proof. induction u; cbn [app]; [apply Subseq_refl | apply Subseq_skip; assumption]. Qed.

Lemma Subseq_insert (a u b : text) : Subseq (a ++ b) (a ++ u ++ b).
Proof. apply Subseq_app; [apply Subseq_refl | apply Subseq_put]. Qed.

Lemma migrate_only_inserts (M : list text) :
  all_ok M -> forall s prev, Subseq s (migrate M prev s).
Proof.
  intro HM. induction s as [s IH] using text_length_ind. intro prev.
  destruct (migrate_cases M prev s HM)
    as [[-> ->] | [(m & rest & Hin & Hm & Ho & Hs & Hmig) | (c & s' & -> & Hnone & Hmig)]].
  - constructor.
  - rewrite Hmig. rewrite Hs at 1. apply Subseq_app.
    + apply Subseq_app; [|apply Subseq_refl].
      exact (Subseq_insert (str "Window_") (str "Status") (str "Base.prototype.")).
    + apply IH. rewrite Hs, length_app, old_ref_shape. cbn [length]. lia.
  - rewrite Hmig. apply Subseq_keep. apply IH. cbn [length]. lia.
Qed.

Lemma insert_only_inserts (lit note : text) :
  forall s prev, Subseq s (insert_before_occurrences lit note prev s).
Proof.
  induction s as [|c s IH]; intro prev; [constructor|].
  cbn [insert_before_occurrences].
  change (c :: s) with ([] ++ c :: s) at 1.
  apply Subseq_app; [|apply Subseq_keep; apply IH].
  destruct (occ lit prev (c :: s)); [|apply Subseq_nil].
  rewrite <- (app_nil_r note). apply (Subseq_put note []).
Qed.

Lemma lf_only_firstn (n : nat) (s : text) : lf_only s = true -> lf_only (firstn n s) = true.
Proof.
  intro H. rewrite <- (firstn_skipn n s), lf_only_app in H.
  apply andb_true_iff in H. tauto.
Qed.

Lemma lf_only_skipn (n : nat) (s : text) : lf_only s = true -> lf_only (skipn n s) = true.
Proof.
  intro H. rewrite <- (firstn_skipn n s), lf_only_app in H.
  apply andb_true_iff in H. tauto.
Qed.

Lemma join_insert_only_inserts (x : text) (lines : list text) :
  lines <> [] ->
  Subseq (join [nl] lines)
         (join [nl] (list_insert (if Nat.ltb 1 (length lines) then 1 else 0) x lines)).
Proof.
  intro Hne. destruct lines as [|p [|q rest]]; [congruence| |].
  - cbn [length Nat.ltb Nat.leb list_insert firstn skipn app join].
    replace (x ++ nl :: p) with ((x ++ [nl]) ++ p) by (rewrite <- app_assoc; reflexivity).
    apply Subseq_put.
  - cbn [length Nat.ltb Nat.leb list_insert firstn skipn app].
    rewrite !join_cons2. apply Subseq_app; [apply Subseq_refl|].
    apply Subseq_app; [apply Subseq_refl|].
    replace (x ++ [nl] ++ join [nl] (q :: rest)) with ((x ++ [nl]) ++ join [nl] (q :: rest))
      by (rewrite <- app_assoc; reflexivity).
    apply Subseq_put.
Qed.

Lemma header_stage_only_inserts (s : text) :
  lf_only s = true -> Subseq s (fst (header_stage s)).
Proof.
  intro Hlf. unfold header_stage.
  destruct (re_search header_block_re s) as [[[start len] gs]|] eqn:Hs; [|apply Subseq_refl].
  cbv zeta. destruct (negb _); [|apply Subseq_refl]. cbn [fst].
  destruct (header_block_found s start len gs Hs)
    as (pre & x & post & Hsrc & -> & -> & _ & [y ->] & _).
  assert (Hhead : firstn (length (open_mark ++ y ++ close_mark)) (skipn (length pre) s)
                  = open_mark ++ y ++ close_mark).
  { rewrite Hsrc, skipn_app_length. apply firstn_app_length. }
  assert (Hpre : firstn (length pre) s = pre) by (rewrite Hsrc; apply firstn_app_length).
  assert (Hpost : skipn (length pre + length (open_mark ++ y ++ close_mark)) s = post).
  { rewrite Hsrc, (app_assoc pre (open_mark ++ y ++ close_mark) post), <- length_app.
    apply skipn_app_length. }
  assert (Hh : lf_only (open_mark ++ y ++ close_mark) = true).
  { rewrite <- Hhead. apply lf_only_firstn, lf_only_skipn. exact Hlf. }
  rewrite Hhead, Hpre, Hpost. rewrite Hsrc at 1.
  apply Subseq_app; [apply Subseq_refl|]. apply Subseq_app; [|apply Subseq_refl].
  unfold add_target_mz.
  destruct (contains (str "@target") (open_mark ++ y ++ close_mark)); [apply Subseq_refl|].
  assert (Hj : join [nl] (splitlines (open_mark ++ y ++ close_mark))
               = open_mark ++ y ++ close_mark).
  { apply (join_splitlines _ [] Hh).
    rewrite (app_assoc open_mark y close_mark).
    change close_mark with (str "*" ++ ["/"]). rewrite app_assoc, last_of_snoc.
    discriminate. }
  destruct (splitlines (open_mark ++ y ++ close_mark)) as [|l0 lines] eqn:El;
    [apply Subseq_refl|].
  cbv zeta. rewrite <- Hj at 1.
  apply join_insert_only_inserts. discriminate.
Qed.

(** X16.  With the skip flag set, and on a source whose line terminators are
    line feeds, [convert_text] only puts characters in: the text it
    returns holds every character of the source, in the order of the
    source. *)
Theorem keep_flag_only_inserts (source : text) :
  lf_only source = true ->
  exists out report,
    eval (convert_text source true) = Some (out, report) /\ Subseq source out.
Proof.
  intro Hlf. rewrite eval_convert_text. unfold convert_stages.
  destruct (header_stage source) as [s1 changed] eqn:E1.
  rewrite migrate_stage_run. cbn [colors_stage]. rewrite annotate_steps.
  eexists. eexists. split; [reflexivity|].
  pose proof (header_stage_only_inserts source Hlf) as H1. rewrite E1 in H1. cbn [fst] in H1.
  eapply Subseq_trans; [exact H1|].
  eapply Subseq_trans; [apply (migrate_only_inserts methods_catalog methods_ok s1 None)|].
  apply insert_only_inserts.
Qed.

Lemma keep_flag_only_inserts_witness :
  exists out report,
    eval (convert_text (str "/*:" ++ nl :: str " */" ++ nl ::
                        str "Window_Base.prototype.drawActorHp = f;") true)
    = Some (out, report) /\
    Subseq (str "/*:" ++ nl :: str " */" ++ nl :: str "Window_Base.prototype.drawActorHp = f;")
           out.
Proof. apply keep_flag_only_inserts. reflexivity. Defined.

(** ** The skip flag and the report *)

Lemma filter_all {A} (f : A -> bool) (l : list A) :
  (forall x, In x l -> f x = true) -> filter f l = l.
Proof.
  induction l as [|a l IH]; intro H; [reflexivity|].
  cbn [filter]. rewrite (H a (or_introl eq_refl)). f_equal.
  apply IH. intros x Hx. apply H. right. exact Hx.
Qed.

(** X18.  The skip flag changes nothing of the report but the lines of the
    call patterns: the report with the flag set is the report without
    it, less those lines. *)
Theorem flag_only_drops_color_lines (source : text) :
  exists out_kept report_kept out report,
    eval (convert_text source true) = Some (out_kept, report_kept) /\
    eval (convert_text source false) = Some (out, report) /\
    filter (fun line => negb (is_color_change line)) report = report_kept.
Proof.
  rewrite !eval_convert_text. unfold convert_stages.
  destruct (header_stage source) as [s1 changed] eqn:E1.
  rewrite migrate_stage_run.
  set (s2 := migrate methods_catalog None s1).
  set (c2 := map window_base_change
                 (filter (fun m => occurs (old_owner ++ m) None s1) methods_catalog)).
  destruct (colors_stage_total s2 false) as [[s3 c3] E3]. rewrite E3.
  cbn [colors_stage]. rewrite !annotate_steps.
  rewrite (hook_through_colors s2 false s3 c3 E3).
  eexists. eexists. eexists. eexists. split; [reflexivity|]. split; [reflexivity|].
  pose proof other_lines_not_color as Hl. rewrite forallb_forall in Hl.
  rewrite !filter_app, app_nil_r.
  assert (H1 : filter (fun line => negb (is_color_change line))
                      (if changed then [header_change] else [])
               = (if changed then [header_change] else [])).
  { apply filter_all. intros x Hx. apply Hl.
    destruct changed; [destruct Hx as [<-|[]]; left; reflexivity | destruct Hx]. }
  assert (H2 : filter (fun line => negb (is_color_change line)) c2 = c2).
  { apply filter_all. intros x Hx. apply Hl. right. right.
    unfold c2 in Hx. apply in_map_iff in Hx. destruct Hx as (m & <- & Hm).
    apply in_map. apply filter_In in Hm. tauto. }
  assert (H3 : filter (fun line => negb (is_color_change line)) c3 = []).
  { apply filter_nil. intros x Hx. apply negb_false_iff.
    unfold colors_stage in E3. apply colors_stage_lines in E3.
    destruct E3 as (extra & Hex & Hall). cbn [snd app] in Hex. subst c3.
    rewrite Forall_forall in Hall. destruct (Hall x Hx) as (e & n & He & ->).
    apply color_change_is_color. exact He. }
  assert (H4 : filter (fun line => negb (is_color_change line))
                      (if occurs plugin_command None s2 then [annotated_change] else [])
               = (if occurs plugin_command None s2 then [annotated_change] else [])).
  { apply filter_all. intros x Hx. apply Hl.
    destruct (occurs plugin_command None s2); [|destruct Hx].
    destruct Hx as [<-|[]]. right. left. reflexivity. }
  rewrite H1, H2, H3, H4, app_nil_r. reflexivity.
Qed.
